(** * Asset manager worker: key derivation, counter-mode decryption,
      bundle cache, image cache and export naming

    A shallow embedding of [src/workers/assetManager.ts] and of the part of
    the store that consumes it.  Typed arrays are lists of bytes, JavaScript
    numbers that count things are integers, the platform's digest and block
    cipher are the functions of FIPS 180-4 and FIPS 197 (checked below on
    the standards' own vectors), and the manager's private maps are finite
    maps threaded through a state-and-exception monad. *)

From Stdlib Require Import ZArith List Lia Bool.
From Stdlib Require Import Strings.String Strings.Ascii Strings.Byte.
From Equations Require Import Equations.
From stdpp Require Import base option list gmap strings pretty.

Import ListNotations.
Local Open Scope Z_scope.

(** ** Bytes *)

(** Storing a number into a [Uint8Array] keeps its low eight bits. *)
Definition byte_of_Z (z : Z) : byte :=
  match Byte.of_N (Z.to_N (z mod 256)) with
  | Some b => b
  | None => x00
  end.

Definition Z_of_byte (b : byte) : Z := Z.of_N (Byte.to_N b).

(** [a ^ b] on two elements of a [Uint8Array], stored back into one. *)
Definition byte_xor (a b : byte) : byte :=
  byte_of_Z (Z.lxor (Z_of_byte a) (Z_of_byte b)).

#[global] Instance byte_eq_dec : EqDecision byte.
Proof.
  intros a b. destruct (Byte.eqb a b) eqn:E.
  - left. apply Byte.byte_dec_bl, E.
  - right. intros ->. rewrite Byte.byte_dec_lb in E by reflexivity. discriminate E.
Defined.

Definition bytes_of_Zs (l : list Z) : list byte := map byte_of_Z l.
Definition Zs_of_bytes (l : list byte) : list Z := map Z_of_byte l.

(** Bytes written as numbers. *)
Definition hex_bytes : list Z -> list byte := bytes_of_Zs.

(** [new Uint8Array(n)]: [n] zero bytes. *)
Definition Uint8Array_new (n : nat) : list byte := repeat x00 n.

(** [arr.slice(0, end)]: a negative [end] counts from the end of the array,
    and the result is clamped to the array. *)
Definition Uint8Array_slice0 (arr : list byte) (end_ : Z) : list byte :=
  let len := Z.of_nat (length arr) in
  let final := if end_ <? 0 then Z.max (len + end_) 0 else Z.min end_ len in
  firstn (Z.to_nat final) arr.

(** [arr.subarray(0, n)] for a non-negative [n]. *)
Definition Uint8Array_subarray0 (arr : list byte) (n : nat) : list byte :=
  firstn n arr.

(** [arr[i]] for an index inside the array. *)
Definition byte_at (arr : list byte) (i : nat) : byte := nth i arr x00.

(** ** SHA-1 (FIPS 180-4), the digest behind [crypto.subtle.digest] *)

Module SHA1.

Definition w32 (x : Z) : Z := x mod 2 ^ 32.

Definition rotl (n x : Z) : Z :=
  w32 (Z.lor (Z.shiftl x n) (Z.shiftr x (32 - n))).

Definition be32 (b0 b1 b2 b3 : Z) : Z :=
  Z.lor (Z.shiftl b0 24) (Z.lor (Z.shiftl b1 16) (Z.lor (Z.shiftl b2 8) b3)).

Definition be32_bytes (w : Z) : list Z :=
  [Z.shiftr w 24 mod 256; Z.shiftr w 16 mod 256; Z.shiftr w 8 mod 256; w mod 256].

Definition be64_bytes (n : Z) : list Z :=
  be32_bytes (Z.shiftr n 32 mod 2 ^ 32) ++ be32_bytes (n mod 2 ^ 32).

(** Padding: a one bit, zeros up to 56 modulo 64, the bit length. *)
Definition pad (msg : list Z) : list Z :=
  let l := Z.of_nat (length msg) in
  msg ++ [0x80] ++ repeat 0 (Z.to_nat ((55 - l) mod 64)) ++ be64_bytes (8 * l).

Fixpoint blocks (fuel : nat) (l : list Z) : list (list Z) :=
  match fuel, l with
  | O, _ | _, [] => []
  | S fuel', _ => firstn 64 l :: blocks fuel' (skipn 64 l)
  end.

Fixpoint words (fuel : nat) (l : list Z) : list Z :=
  match fuel, l with
  | S fuel', b0 :: b1 :: b2 :: b3 :: rest => be32 b0 b1 b2 b3 :: words fuel' rest
  | _, _ => []
  end.

Definition W_at (W : list Z) (t : nat) : Z := nth t W 0.

Definition schedule (block : list Z) : list Z :=
  fold_left
    (fun W t =>
       W ++ [rotl 1 (Z.lxor (Z.lxor (W_at W (t - 3)) (W_at W (t - 8)))
                            (Z.lxor (W_at W (t - 14)) (W_at W (t - 16))))])
    (seq 16 64) (words 16 block).

Definition f (t : nat) (b c d : Z) : Z :=
  if (t <? 20)%nat then Z.lor (Z.land b c) (Z.land (Z.lxor b 0xFFFFFFFF) d)
  else if (t <? 40)%nat then Z.lxor (Z.lxor b c) d
  else if (t <? 60)%nat then Z.lor (Z.lor (Z.land b c) (Z.land b d)) (Z.land c d)
  else Z.lxor (Z.lxor b c) d.

Definition K (t : nat) : Z :=
  if (t <? 20)%nat then 0x5A827999
  else if (t <? 40)%nat then 0x6ED9EBA1
  else if (t <? 60)%nat then 0x8F1BBCDC
  else 0xCA62C1D6.

Definition hstate : Type := Z * Z * Z * Z * Z.

Definition round (W : list Z) (s : hstate) (t : nat) : hstate :=
  let '(a, b, c, d, e) := s in
  (w32 (rotl 5 a + f t b c d + e + K t + W_at W t), a, rotl 30 b, c, d).

Definition compress (h : hstate) (block : list Z) : hstate :=
  let W := schedule block in
  let '(a, b, c, d, e) := fold_left (round W) (seq 0 80) h in
  let '(h0, h1, h2, h3, h4) := h in
  (w32 (h0 + a), w32 (h1 + b), w32 (h2 + c), w32 (h3 + d), w32 (h4 + e)).

Definition H0 : hstate :=
  (0x67452301, 0xEFCDAB89, 0x98BADCFE, 0x10325476, 0xC3D2E1F0).

Definition digest_words (msg : list Z) : hstate :=
  let padded := pad msg in
  fold_left compress (blocks (length padded) padded) H0.

Definition digest (msg : list byte) : list byte :=
  let '(h0, h1, h2, h3, h4) := digest_words (Zs_of_bytes msg) in
  bytes_of_Zs (be32_bytes h0 ++ be32_bytes h1 ++ be32_bytes h2 ++
               be32_bytes h3 ++ be32_bytes h4).

End SHA1.

(** ** AES (FIPS 197), the block cipher behind [crypto.subtle.encrypt] *)

Module AES.

(** Multiplication by [x] in GF(2^8) modulo [x^8 + x^4 + x^3 + x + 1]. *)
Definition xtime (a : Z) : Z :=
  let s := Z.shiftl a 1 mod 256 in
  if Z.testbit a 7 then Z.lxor s 0x1B else s.

Fixpoint gmul_bits (bits : nat) (a b : Z) : Z :=
  match bits with
  | O => 0
  | S bits' =>
      Z.lxor (if Z.odd b then a else 0) (gmul_bits bits' (xtime a) (Z.shiftr b 1))
  end.

Definition gmul (a b : Z) : Z := gmul_bits 8 a b.

(** The multiplicative inverse is the 254th power; zero maps to zero. *)
Definition ginv (a : Z) : Z := Nat.iter 253 (gmul a) a.

Definition rotl8 (n x : Z) : Z :=
  Z.lor (Z.shiftl x n) (Z.shiftr x (8 - n)) mod 256.

Definition sbox_of (a : Z) : Z :=
  let b := ginv a in
  Z.lxor (Z.lxor (Z.lxor b (rotl8 1 b)) (Z.lxor (rotl8 2 b) (rotl8 3 b)))
         (Z.lxor (rotl8 4 b) 0x63).

Definition sbox_table : list Z :=
  Eval vm_compute in map (fun i => sbox_of (Z.of_nat i)) (seq 0 256).

Definition sbox (a : Z) : Z := nth (Z.to_nat a) sbox_table 0.

Definition at16 (s : list Z) (i : nat) : Z := nth i s 0.

(** The state is kept in input order: byte [r + 4c] is row [r], column [c]. *)
Definition sub_bytes (s : list Z) : list Z := map sbox s.

Definition shift_rows (s : list Z) : list Z :=
  map (fun i => let r := (i mod 4)%nat in
                let c := (i / 4)%nat in
                at16 s (r + 4 * ((c + r) mod 4))%nat)
      (seq 0 16).

Definition mix_columns (s : list Z) : list Z :=
  map (fun i => let r := (i mod 4)%nat in
                let c := (i / 4)%nat in
                let a k := at16 s (4 * c + (r + k) mod 4)%nat in
                Z.lxor (Z.lxor (gmul 2 (a 0%nat)) (gmul 3 (a 1%nat)))
                       (Z.lxor (a 2%nat) (a 3%nat)))
      (seq 0 16).

Definition add_round_key (w : list Z) (round : nat) (s : list Z) : list Z :=
  map (fun i => Z.lxor (at16 s i) (nth (16 * round + i) w 0)) (seq 0 16).

Definition word_at (w : list Z) (i : nat) : list Z :=
  firstn 4 (skipn (4 * i) w).

Definition xor_words (a b : list Z) : list Z :=
  map (fun i => Z.lxor (nth i a 0) (nth i b 0)) (seq 0 4).

Definition rot_word (a : list Z) : list Z :=
  map (fun i => nth ((i + 1) mod 4) a 0) (seq 0 4).

Definition rcon (j : nat) : Z := Nat.iter (j - 1) xtime 1.

Definition expand_step (Nk : nat) (w : list Z) (i : nat) : list Z :=
  let temp := word_at w (i - 1) in
  let temp :=
    if (i mod Nk =? 0)%nat
    then xor_words (map sbox (rot_word temp)) [rcon (i / Nk); 0; 0; 0]
    else if (6 <? Nk)%nat && (i mod Nk =? 4)%nat then map sbox temp
    else temp in
  w ++ xor_words (word_at w (i - Nk)) temp.

Definition key_expansion (key : list Z) : list Z :=
  let Nk := (length key / 4)%nat in
  let Nr := (Nk + 6)%nat in
  fold_left (expand_step Nk) (seq Nk (4 * (Nr + 1) - Nk)) key.

Definition cipher (key blk : list Z) : list Z :=
  let Nr := (length key / 4 + 6)%nat in
  let w := key_expansion key in
  let s := fold_left
             (fun s round =>
                add_round_key w round (mix_columns (shift_rows (sub_bytes s))))
             (seq 1 (Nr - 1)) (add_round_key w 0 blk) in
  add_round_key w Nr (shift_rows (sub_bytes s)).

(** One block under a raw key of 16, 24 or 32 bytes. *)
Definition encrypt_block (key blk : list byte) : list byte :=
  bytes_of_Zs (cipher (Zs_of_bytes key) (Zs_of_bytes blk)).

End AES.

(** ** The Web Crypto calls of the worker *)

(** A JavaScript string is held as the bytes of its UTF-8 form, so
    [new TextEncoder().encode(s)] reads them off. *)
Definition TextEncoder_encode (s : string) : list byte := list_byte_of_string s.

(** [digestSha1]: the whole buffer of a freshly built array is the array. *)
Definition digestSha1 (data : list byte) : list byte := SHA1.digest data.

(** An imported raw AES key. *)
Record CryptoKey := { key_bytes : list byte }.

(** [crypto.subtle.importKey('raw', keyData, 'AES-CBC', ...)] rejects a key
    that is not 128, 192 or 256 bits long. *)
Definition importKey_raw_AES (keyData : list byte) : option CryptoKey :=
  let n := length keyData in
  if (n =? 16)%nat || (n =? 24)%nat || (n =? 32)%nat
  then Some {| key_bytes := keyData |}
  else None.

Definition xor_bytes (a b : list byte) : list byte :=
  map (fun p => byte_xor (fst p) (snd p)) (combine a b).

(** PKCS#7 padding: always at least one byte, a whole block when the input
    is already a multiple of the block size. *)
Definition pkcs7_pad (data : list byte) : list byte :=
  let n := (16 - length data mod 16)%nat in
  data ++ repeat (byte_of_Z (Z.of_nat n)) n.

Fixpoint cbc_blocks (fuel : nat) (key : CryptoKey) (prev data : list byte)
  : list byte :=
  match fuel, data with
  | O, _ | _, [] => []
  | S fuel', _ =>
      let c := AES.encrypt_block (key_bytes key) (xor_bytes (firstn 16 data) prev) in
      c ++ cbc_blocks fuel' key c (skipn 16 data)
  end.

(** [crypto.subtle.encrypt({ name: 'AES-CBC', iv }, key, data)]. *)
Definition encrypt_AES_CBC (iv : list byte) (key : CryptoKey) (data : list byte)
  : list byte :=
  let padded := pkcs7_pad data in
  cbc_blocks (length padded) key iv padded.

(** [new DataView(buf).setBigUint64(byteOffset, value, littleEndian)] on a
    buffer that has the eight bytes: the value is taken modulo 2^64. *)
Definition DataView_setBigUint64
  (buf : list byte) (byteOffset : nat) (value : Z) (littleEndian : bool)
  : list byte :=
  let v := value mod 2 ^ 64 in
  fold_left
    (fun b k =>
       let shift := if littleEndian then k else (7 - k)%nat in
       <[(byteOffset + k)%nat := byte_of_Z (Z.shiftr v (8 * Z.of_nat shift))]> b)
    (seq 0 8) buf.

(** ** getKeyPbkdf1 *)

Lemma digestSha1_length (data : list byte) : length (digestSha1 data) = 20%nat.
Proof.
  unfold digestSha1, SHA1.digest.
  destruct (SHA1.digest_words (Zs_of_bytes data)) as [[[[h0 h1] h2] h3] h4].
  reflexivity.
Qed.

(** [for (let i = 0; i < count - 1; i++) hash = await digestSha1(hash)] *)
Equations? rehash_loop (count i : Z) (hash : list byte) : list byte
  by wf (Z.to_nat (count - 1 - i)) lt :=
  rehash_loop count i hash with Z_lt_dec i (count - 1) := {
    | left _ => rehash_loop count (i + 1) (digestSha1 hash);
    | right _ => hash }.
Proof. lia. Qed.

(** [while (hashder.length < keyLen) { ...; index++ }] *)
Equations? extend_loop (keyLen : Z) (hash hashder : list byte) (index : Z)
  : list byte
  by wf (Z.to_nat (keyLen - Z.of_nat (length hashder))) lt :=
  extend_loop keyLen hash hashder index
    with Z_lt_dec (Z.of_nat (length hashder)) keyLen := {
    | left _ =>
        let marker := index + 48 in
        let extra := digestSha1 (byte_of_Z marker :: hash) in
        extend_loop keyLen hash (hashder ++ extra) (index + 1);
    | right _ => hashder }.
Proof.
  subst extra. rewrite length_app, digestSha1_length. lia.
Qed.

Definition getKeyPbkdf1
  (password : string) (salt : list byte) (keyLen countParam : Z) : list byte :=
  let index := 1 in
  let count := countParam - 1 in
  let pwdBytes := TextEncoder_encode password in
  let hash := digestSha1 (pwdBytes ++ salt) in
  let hash := rehash_loop count 0 hash in
  let hashder := digestSha1 hash in
  let hashder := extend_loop keyLen hash hashder index in
  Uint8Array_slice0 hashder keyLen.

(** ** decryptAesCtrPbkdf1 *)

Definition BLOCK_SIZE : nat := 16.

(** The inner loop: [output[offset + i] = data[offset + i] ^ keystream[i]]
    for [i] below [chunkLen]. *)
Definition xor_chunk
  (data keystream : list byte) (offset chunkLen : nat) (output : list byte)
  : list byte :=
  fold_left
    (fun out i =>
       <[(offset + i)%nat :=
          byte_xor (byte_at data (offset + i)) (byte_at keystream i)]> out)
    (seq 0 chunkLen) output.

Definition counter_block (counter : Z) : list byte :=
  DataView_setBigUint64 (Uint8Array_new 16) 0 counter true.

Definition keystream_block (cryptoKey : CryptoKey) (counter : Z) : list byte :=
  let zeroIV := Uint8Array_new 16 in
  let keystreamBuf := encrypt_AES_CBC zeroIV cryptoKey (counter_block counter) in
  Uint8Array_subarray0 keystreamBuf BLOCK_SIZE.

(** [for (let offset = 0; offset < data.length; offset += BLOCK_SIZE)] *)
Equations? ctr_loop
  (cryptoKey : CryptoKey) (data : list byte)
  (offset : nat) (counter : Z) (output : list byte) : list byte
  by wf (length data - offset)%nat lt :=
  ctr_loop cryptoKey data offset counter output
    with lt_dec offset (length data) := {
    | left _ =>
        let keystream := keystream_block cryptoKey counter in
        let chunkLen := Nat.min BLOCK_SIZE (length data - offset) in
        ctr_loop cryptoKey data (offset + BLOCK_SIZE) (counter + 1)
                 (xor_chunk data keystream offset chunkLen output);
    | right _ => output }.
Proof. unfold BLOCK_SIZE. lia. Qed.

(** [None] is the rejection of [importKey]; nothing else in the body fails. *)
Definition decryptAesCtrPbkdf1
  (data : list byte) (password : string) (salt : list byte)
  (keyLen countParam : Z) : option (list byte) :=
  let keyBytes := getKeyPbkdf1 password salt keyLen countParam in
  match importKey_raw_AES keyBytes with
  | None => None
  | Some cryptoKey =>
      Some (ctr_loop cryptoKey data 0 1 (Uint8Array_new (length data)))
  end.

(** The defaults of the signature: [keyLen = 32, countParam = 100]. *)
Definition decryptAesCtrPbkdf1_default
  (data : list byte) (password : string) (salt : list byte)
  : option (list byte) :=
  decryptAesCtrPbkdf1 data password salt 32 100.

(** ** Strings *)

(** [new TextDecoder('utf-8').decode(bytes)]: a leading byte order mark is
    dropped and every ill-formed sequence becomes U+FFFD; with strings held
    as UTF-8 bytes, a well-formed sequence is kept as it is. *)
Module UTF8.

Record dstate := {
  needed : nat;
  lower : Z;
  upper : Z;
  seen : list byte
}.

Definition start : dstate :=
  {| needed := 0; lower := 0x80; upper := 0xBF; seen := [] |}.

Definition replacement : list byte := bytes_of_Zs [0xEF; 0xBF; 0xBD].

Definition lead (b : byte) : list byte * dstate :=
  let z := Z_of_byte b in
  if z <=? 0x7F then ([b], start)
  else if (0xC2 <=? z) && (z <=? 0xDF) then
    ([], {| needed := 1; lower := 0x80; upper := 0xBF; seen := [b] |})
  else if (0xE0 <=? z) && (z <=? 0xEF) then
    ([], {| needed := 2;
            lower := if z =? 0xE0 then 0xA0 else 0x80;
            upper := if z =? 0xED then 0x9F else 0xBF;
            seen := [b] |})
  else if (0xF0 <=? z) && (z <=? 0xF4) then
    ([], {| needed := 3;
            lower := if z =? 0xF0 then 0x90 else 0x80;
            upper := if z =? 0xF4 then 0x8F else 0xBF;
            seen := [b] |})
  else (replacement, start).

Definition step (s : dstate) (b : byte) : list byte * dstate :=
  match needed s with
  | O => lead b
  | S n =>
      let z := Z_of_byte b in
      if (lower s <=? z) && (z <=? upper s) then
        match n with
        | O => (seen s ++ [b], start)
        | S _ => ([], {| needed := n; lower := 0x80; upper := 0xBF;
                         seen := seen s ++ [b] |})
        end
      else
        let '(out, s') := lead b in (replacement ++ out, s')
  end.

Fixpoint run (s : dstate) (l : list byte) : list byte :=
  match l with
  | [] => match needed s with O => [] | S _ => replacement end
  | b :: l' => let '(out, s') := step s b in out ++ run s' l'
  end.

Definition strip_bom (l : list byte) : list byte :=
  match l with
  | xef :: xbb :: xbf :: rest => rest
  | _ => l
  end.

Definition decode (l : list byte) : string :=
  string_of_list_byte (run start (strip_bom l)).

End UTF8.

Definition TextDecoder_decode (data : list byte) : string := UTF8.decode data.

Definition String_endsWith (s suffix : string) : bool :=
  let n := String.length s in
  let k := String.length suffix in
  (k <=? n)%nat && String.eqb (substring (n - k) k s) suffix.

(** [name.replace(/\.ab$/, '')] *)
Definition strip_ab (name : string) : string :=
  if String_endsWith name ".ab"
  then substring 0 (String.length name - 3) name
  else name.

Fixpoint String_filter (keep : ascii -> bool) (s : string) : string :=
  match s with
  | EmptyString => EmptyString
  | String c s' =>
      if keep c then String c (String_filter keep s') else String_filter keep s'
  end.

(** The characters of the class in [getLegalFileName]: slash, backslash,
    colon, star, question mark, double quote, angle brackets, bar. *)
Definition illegal_chars : list ascii :=
  ["047"; "092"; "058"; "042"; "063"; "034"; "060"; "062"; "124"]%char.

Definition getLegalFileName (name : string) : string :=
  String_filter (fun c => negb (existsb (Ascii.eqb c) illegal_chars)) name.

(** ** The parser's data *)

Inductive AssetType :=
| TextAsset
| Sprite
| SpriteAtlas
| Texture2D
| OtherType (id : Z) (enumName : option string).

Definition AssetType_eqb (a b : AssetType) : bool :=
  match a, b with
  | TextAsset, TextAsset | Sprite, Sprite
  | SpriteAtlas, SpriteAtlas | Texture2D, Texture2D => true
  | OtherType i _, OtherType j _ => i =? j
  | _, _ => false
  end.

(** [AssetType[type]], the enum's reverse mapping. *)
Definition AssetType_name (t : AssetType) : option string :=
  match t with
  | TextAsset => Some "TextAsset"
  | Sprite => Some "Sprite"
  | SpriteAtlas => Some "SpriteAtlas"
  | Texture2D => Some "Texture2D"
  | OtherType _ enumName => enumName
  end.

Definition showAssetType (t : AssetType) : bool :=
  existsb (AssetType_eqb t) [TextAsset; Sprite; SpriteAtlas; Texture2D].

Definition canExportAssetType (t : AssetType) : bool :=
  existsb (AssetType_eqb t) [TextAsset; Sprite; Texture2D].

(** The structured dump of an object, opaque to the manager. *)
Inductive Dump := DumpOf (rendered : string).

Module ImgBitMap.
Record t := { width : Z; height : Z; data : list byte }.
End ImgBitMap.

(** An object of a bundle.  The two methods the manager calls are given by
    what they return: [dump()] may throw, [getImageBitmap()] may have no
    bitmap. *)
Module AssetObject.
Record t := {
  name : string;
  type : AssetType;
  pathId : Z;
  size : Z;
  dump : string + Dump;
  data : list byte;
  getImageBitmap : option ImgBitMap.t
}.
End AssetObject.

Definition isTextAssetObj (obj : option AssetObject.t) : bool :=
  match obj with
  | Some o => AssetType_eqb (AssetObject.type o) TextAsset
  | None => false
  end.

Definition isImageAssetObj (obj : option AssetObject.t) : bool :=
  match obj with
  | Some o => AssetType_eqb (AssetObject.type o) Sprite
              || AssetType_eqb (AssetObject.type o) Texture2D
  | None => false
  end.

Module Bundle.
Record t := {
  objects : list AssetObject.t;
  objectMap : gmap Z AssetObject.t;
  containerMap : option (gmap Z string)
}.
End Bundle.

Module BundleLoadOptions.
Record t := { unityCNKey : option string; env : Z; envIndex : Z }.
End BundleLoadOptions.

Module File.
Record t := { name : string; type : string; bytes : list byte }.
End File.

(** ** What the manager hands out *)

(** [data: string | null | undefined] *)
Inductive AssetData :=
| DataUndefined
| DataNull
| DataString (s : string).

Module AssetInfo.
Record t := {
  key : string;
  fileId : string;
  fileName : string;
  name : string;
  container : string;
  type : string;
  pathId : Z;
  size : Z;
  dump : Dump;
  data : AssetData;
  search : string
}.
End AssetInfo.

Module FileLoadingError.
Record t := { name : string; error : string }.
End FileLoadingError.

Module LoadFilesResult.
Record t := {
  errors : list FileLoadingError.t;
  infos : list AssetInfo.t;
  successNum : nat
}.
End LoadFilesResult.

Module ExportedFile.
Record t := { name : string; type : string; data : list byte }.
End ExportedFile.

Module ImageResult.
Record t := { url : string; blob : list byte }.
End ImageResult.

(** ** The manager's state *)

Abbreviation PromiseId := nat.

(** What [getAssetObjPNG] is waiting for when it yields. *)
Inductive DecodeJob :=
| JobNoBitmap
| JobConvert (bitmap : ImgBitMap.t).

Inductive PromiseState :=
| Pending (job : DecodeJob)
| Fulfilled (value : option ImageResult.t).

Module Promise.
Record t := { state : PromiseState; revokeWhenSettled : bool }.
End Promise.

(** Calls that leave the manager, as a test double would record them:
    progress reports, calls of the parser, the decode [loadImage] starts
    for a key, the bitmap [exportAssets] asks for itself, and clears. *)
Inductive Event :=
| EvProgress (name : string) (i n totalAssetNum : nat)
| EvParse (buffer : list byte)
| EvDecode (key : string)
| EvExportDecode (key : string)
| EvClear.

(** [bundleMap] and [imageMap] are the two private maps.  The promises the
    image map shares with its callers live in [promises], addressed by
    position; [trace] has the most recent event first. *)
Record State := {
  bundleMap : gmap string Bundle.t;
  imageMap : gmap string PromiseId;
  promises : list Promise.t;
  urls : nat;
  revoked : gset string;
  trace : list Event
}.

Definition initial : State :=
  {| bundleMap := ∅; imageMap := ∅; promises := []; urls := 0;
     revoked := ∅; trace := [] |}.

Definition set_bundleMap (f : gmap string Bundle.t -> gmap string Bundle.t)
  (st : State) : State :=
  {| bundleMap := f (bundleMap st); imageMap := imageMap st;
     promises := promises st; urls := urls st; revoked := revoked st;
     trace := trace st |}.

Definition set_imageMap (f : gmap string PromiseId -> gmap string PromiseId)
  (st : State) : State :=
  {| bundleMap := bundleMap st; imageMap := f (imageMap st);
     promises := promises st; urls := urls st; revoked := revoked st;
     trace := trace st |}.

Definition set_promises (f : list Promise.t -> list Promise.t)
  (st : State) : State :=
  {| bundleMap := bundleMap st; imageMap := imageMap st;
     promises := f (promises st); urls := urls st; revoked := revoked st;
     trace := trace st |}.

Definition set_urls (f : nat -> nat) (st : State) : State :=
  {| bundleMap := bundleMap st; imageMap := imageMap st;
     promises := promises st; urls := f (urls st); revoked := revoked st;
     trace := trace st |}.

Definition set_revoked (f : gset string -> gset string) (st : State) : State :=
  {| bundleMap := bundleMap st; imageMap := imageMap st;
     promises := promises st; urls := urls st; revoked := f (revoked st);
     trace := trace st |}.

Definition emit (e : Event) (st : State) : State :=
  {| bundleMap := bundleMap st; imageMap := imageMap st;
     promises := promises st; urls := urls st; revoked := revoked st;
     trace := e :: trace st |}.

(** ** Computations that may throw *)

Definition M (A : Type) : Type := State -> (string + A) * State.

Definition ret {A} (a : A) : M A := fun st => (inr a, st).

Definition throw {A} (e : string) : M A := fun st => (inl e, st).

Definition bind {A B} (m : M A) (k : A -> M B) : M B :=
  fun st =>
    match m st with
    | (inl e, st') => (inl e, st')
    | (inr a, st') => k a st'
    end.

Definition tryCatch {A} (m : M A) (handler : string -> M A) : M A :=
  fun st =>
    match m st with
    | (inl e, st') => handler e st'
    | (inr a, st') => (inr a, st')
    end.

Definition gets {A} (f : State -> A) : M A := fun st => (inr (f st), st).

Definition modify (f : State -> State) : M unit := fun st => (inr tt, f st).

Notation "x <- m ;; k" := (bind m (fun x => k))
  (at level 100, m at next level, right associativity).
Notation "m ;;; k" := (bind m (fun _ => k))
  (at level 100, right associativity).

(** [Promise.all(list.map(async x => ...))] for callbacks that only read the
    manager: the first rejection in list order is the rejection of the
    whole. *)
Fixpoint Promise_all {A B} (f : A -> M B) (l : list A) : M (list B) :=
  match l with
  | [] => ret []
  | a :: l' => b <- f a ;; bs <- Promise_all f l' ;; ret (b :: bs)
  end.

(** The value an [async] call hands back: settled at once, or a function of
    what a promise of the image map settles to. *)
Inductive Async (A : Type) :=
| Now (a : A)
| Later (p : PromiseId) (k : option ImageResult.t -> A).
Arguments Now {A} a.
Arguments Later {A} p k.

Definition Async_map {A B} (f : A -> B) (a : Async A) : Async B :=
  match a with
  | Now x => Now (f x)
  | Later p k => Later p (fun v => f (k v))
  end.

Definition settled_value (st : State) (p : PromiseId)
  : option (option ImageResult.t) :=
  match promises st !! p with
  | Some pr =>
      match Promise.state pr with
      | Fulfilled v => Some v
      | Pending _ => None
      end
  | None => None
  end.

(** Modelled from the spec: [isFulfilled] of the tracked promise, whose module
    is not among the sources; it answers, without blocking, whether the
    promise has already settled. *)
Definition isFulfilled (st : State) (p : PromiseId) : bool :=
  match settled_value st p with
  | Some _ => true
  | None => false
  end.

(** What awaiting the call gives in [st], if it has settled there. *)
Definition await {A} (st : State) (a : Async A) : option A :=
  match a with
  | Now x => Some x
  | Later p k => k <$> settled_value st p
  end.

(** ** The manager *)

Definition getAssetKey (fileId : string) (pathId : Z) : string :=
  fileId +:+ "_" +:+ pretty pathId.

Definition getAssetObj (st : State) (fileId : string) (pathId : Z)
  : option AssetObject.t :=
  match bundleMap st !! fileId with
  | Some bundle => Bundle.objectMap bundle !! pathId
  | None => None
  end.

(** [getAssetObjPNG] up to its [await]: the bitmap is asked for, and when
    there is one it is handed to the converter pool. *)
Definition getAssetObjPNG_start (obj : AssetObject.t) : DecodeJob :=
  match AssetObject.getImageBitmap obj with
  | None => JobNoBitmap
  | Some bitmap => JobConvert bitmap
  end.

(** Modelled from the spec: the converter pool, whose module is not among
    the sources, calls back exactly once per task, with an empty result
    when the encoding failed.  [converted] is what the callback received;
    [getAssetObjPNG] returns it when it is there. *)
Definition getAssetObjPNG_finish
  (job : DecodeJob) (converted : option (list byte)) : option (list byte) :=
  match job with
  | JobNoBitmap => None
  | JobConvert _ => converted
  end.

Definition loadImage (fileId : string) (pathId : Z) (st : State)
  : Async (option ImageResult.t) * State :=
  let key := getAssetKey fileId pathId in
  match imageMap st !! key with
  | Some p => (Later p (fun v => v), st)
  | None =>
      match getAssetObj st fileId pathId with
      | None => (Now None, st)
      | Some obj =>
          if negb (AssetType_eqb (AssetObject.type obj) Sprite)
             && negb (AssetType_eqb (AssetObject.type obj) Texture2D)
          then (Now None, st)
          else
            let job := getAssetObjPNG_start obj in
            let result := length (promises st) in
            let st := emit (EvDecode key) st in
            let st := set_promises
                        (fun ps => ps ++ [{| Promise.state := Pending job;
                                             Promise.revokeWhenSettled := false |}])
                        st in
            let st := set_imageMap (fun m => <[key := result]> m) st in
            (Later result (fun v => v), st)
      end
  end.

(** The rest of the task started by [loadImage], run when the converter
    has called back (or at once when there was no bitmap): the promise
    settles, with a fresh object URL when there is a buffer. *)
Definition settle (p : PromiseId) (converted : option (list byte)) (st : State)
  : State :=
  match promises st !! p with
  | Some pr =>
      match Promise.state pr with
      | Fulfilled _ => st
      | Pending job =>
          match getAssetObjPNG_finish job converted with
          | None =>
              set_promises
                (fun ps => <[p := {| Promise.state := Fulfilled None;
                                     Promise.revokeWhenSettled :=
                                       Promise.revokeWhenSettled pr |}]> ps)
                st
          | Some buffer =>
              let url := "blob:" +:+ pretty (urls st) in
              let img := {| ImageResult.url := url; ImageResult.blob := buffer |} in
              let st := set_urls S st in
              let st := set_promises
                          (fun ps => <[p := {| Promise.state := Fulfilled (Some img);
                                               Promise.revokeWhenSettled :=
                                                 Promise.revokeWhenSettled pr |}]> ps)
                          st in
              if Promise.revokeWhenSettled pr
              then set_revoked (fun s => {[url]} ∪ s) st
              else st
          end
      end
  | None => st
  end.

Definition getImageUrl (fileId : string) (pathId : Z) (st : State)
  : Async (option string) * State :=
  let '(img, st') := loadImage fileId pathId st in
  (Async_map (fun r => ImageResult.url <$> r) img, st').

(** The store's [loadImage]: [info.data = img ?? null]. *)
Definition store_loadImage_data (img : option string) : AssetData :=
  match img with
  | Some url => DataString url
  | None => DataNull
  end.

Definition exportAsset (fileId : string) (pathId : Z) (st : State)
  : Async (option ExportedFile.t) * State :=
  match getAssetObj st fileId pathId with
  | None => (Now None, st)
  | Some obj =>
      if negb (canExportAssetType (AssetObject.type obj)) then (Now None, st)
      else
        let fileName := getLegalFileName (AssetObject.name obj) in
        match AssetObject.type obj with
        | TextAsset =>
            (Now (Some {| ExportedFile.name := fileName +:+ ".txt";
                          ExportedFile.type := "text/plain";
                          ExportedFile.data := AssetObject.data obj |}), st)
        | Sprite | Texture2D =>
            let '(img, st') := loadImage fileId pathId st in
            (Async_map
               (fun r =>
                  match r with
                  | Some image =>
                      Some {| ExportedFile.name := fileName +:+ ".png";
                              ExportedFile.type := "image/png";
                              ExportedFile.data := ImageResult.blob image |}
                  | None => None
                  end)
               img, st')
        | _ => (Now None, st)
        end
  end.

(** One callback of [clear]'s [forEach]: the URL is revoked once the image
    has resolved. *)
Definition release (p : PromiseId) (st : State) : State :=
  match promises st !! p with
  | Some pr =>
      match Promise.state pr with
      | Fulfilled (Some img) =>
          set_revoked (fun s => {[ImageResult.url img]} ∪ s) st
      | Fulfilled None => st
      | Pending job =>
          set_promises
            (fun ps => <[p := {| Promise.state := Pending job;
                                 Promise.revokeWhenSettled := true |}]> ps)
            st
      end
  | None => st
  end.

Definition clear (st : State) : State :=
  let st := map_fold (fun _ p acc => release p acc) st (imageMap st) in
  emit EvClear (set_imageMap (fun _ => ∅) (set_bundleMap (fun _ => ∅) st)).

Definition getAssetData (obj : AssetObject.t) (key : string) (st : State)
  : AssetData :=
  match AssetObject.type obj with
  | TextAsset => DataString (TextDecoder_decode (AssetObject.data obj))
  | Sprite | Texture2D =>
      match imageMap st !! key with
      | Some imgPromise =>
          match settled_value st imgPromise with
          | Some (Some img) => DataString (ImageResult.url img)
          | Some None => DataNull
          | None => DataUndefined
          end
      | None => DataUndefined
      end
  | _ => DataUndefined
  end.

(** [getCanExportAssetTypes]: the names of the exportable types, as the
    enum's reverse mapping gives them. *)
Definition getCanExportAssetTypes : list (option string) :=
  map AssetType_name [TextAsset; Sprite; Texture2D].

(** The store's [canExport]: membership in its own set of type names,
    [types], which it fills from [getCanExportAssetTypes] when the worker
    has answered and which is empty until then. *)
Definition store_canExport (types : list (option string)) (type : string) : bool :=
  existsb (fun t => bool_decide (t = Some type)) types.

(** ** Naming inside the archive ([exportAssets]) *)

(** Modelled from the spec: the grouping policies; the enum's module is not
    among the sources, its four members are those the options dialog
    offers. *)
Inductive ExportGroupMethod :=
| NONE
| TYPE_NAME
| SOURCE_FILE_NAME
| CONTAINER_PATH.

Module ExportParam.
Record t := {
  fileId : string;
  pathId : Z;
  fileName : string;
  container : string
}.
End ExportParam.

Module ExportEntry.
Record t := {
  key : string;
  fileName : string;
  container : string;
  obj : option AssetObject.t
}.
End ExportEntry.

Definition exportEntry (st : State) (p : ExportParam.t) : ExportEntry.t :=
  {| ExportEntry.key := getAssetKey (ExportParam.fileId p) (ExportParam.pathId p);
     ExportEntry.fileName := ExportParam.fileName p;
     ExportEntry.container := ExportParam.container p;
     ExportEntry.obj := getAssetObj st (ExportParam.fileId p) (ExportParam.pathId p) |}.

(** A [Map] with string keys: setting a key that is there replaces its
    value in place, a new key goes to the end. *)
Fixpoint Map_set {V} (m : list (string * V)) (k : string) (v : V)
  : list (string * V) :=
  match m with
  | [] => [(k, v)]
  | (k', v') :: m' =>
      if String.eqb k' k then (k, v) :: m' else (k', v') :: Map_set m' k v
  end.

Fixpoint Map_get {V} (m : list (string * V)) (k : string) : option V :=
  match m with
  | [] => None
  | (k', v') :: m' => if String.eqb k' k then Some v' else Map_get m' k
  end.

(** [new Map(params.map(...))] *)
Definition exportAssets_objMap (st : State) (params : list ExportParam.t)
  : list (string * ExportEntry.t) :=
  fold_left (fun m p => Map_set m (ExportEntry.key (exportEntry st p))
                                (exportEntry st p))
            params [].

Definition getObjName (objMap : list (string * ExportEntry.t)) (key : string)
  : string :=
  match Map_get objMap key with
  | Some data =>
      match ExportEntry.obj data with
      | Some obj => AssetObject.name obj
      | None => EmptyString
      end
  | None => EmptyString
  end.

(** A value inside a template literal. *)
Definition template (s : option string) : string := default "undefined" s.

Definition getObjPath
  (objMap : list (string * ExportEntry.t)) (groupMethod : ExportGroupMethod)
  (key ext : string) : string :=
  match Map_get objMap key with
  | None => EmptyString
  | Some data =>
      match ExportEntry.obj data with
      | None => EmptyString
      | Some obj =>
          let fileName := ExportEntry.fileName data in
          let container := ExportEntry.container data in
          let legalName := getLegalFileName (AssetObject.name obj) in
          let flat := legalName +:+ "." +:+ ext in
          match groupMethod with
          | CONTAINER_PATH =>
              if negb (String.eqb container EmptyString) then container else flat
          | NONE => flat
          | TYPE_NAME =>
              template (AssetType_name (AssetObject.type obj))
                +:+ "/" +:+ legalName +:+ "." +:+ ext
          | SOURCE_FILE_NAME => fileName +:+ "/" +:+ legalName +:+ "." +:+ ext
          end
      end
  end.

(** The images sorted by the preparation loop of [exportAssets]: those whose
    cache entry has resolved to an image, and those to convert. *)
Module Prepared.
Record t := {
  imgData : list (string * list byte);
  imgBitmaps : list (string * ImgBitMap.t)
}.
End Prepared.

(** One turn of the loop over the selected images: an entry of the image
    map is used when it is fulfilled with an image; otherwise the object is
    asked for its bitmap again. *)
Definition prepare_image
  (key : string) (obj : AssetObject.t) (acc : Prepared.t) (st : State)
  : Prepared.t * State :=
  let cached :=
    match imageMap st !! key with
    | Some image =>
        match settled_value st image with
        | Some (Some img) => Some (ImageResult.blob img)
        | _ => None
        end
    | None => None
    end in
  match cached with
  | Some blob =>
      ({| Prepared.imgData := Prepared.imgData acc ++ [(key, blob)];
          Prepared.imgBitmaps := Prepared.imgBitmaps acc |}, st)
  | None =>
      let st := emit (EvExportDecode key) st in
      match AssetObject.getImageBitmap obj with
      | Some bitmap =>
          ({| Prepared.imgData := Prepared.imgData acc;
              Prepared.imgBitmaps := Prepared.imgBitmaps acc ++ [(key, bitmap)] |},
           st)
      | None => (acc, st)
      end
  end.

(** [exportAssets] up to the point where the conversions it needs are handed
    to the pool.  The progress reports of this phase are throttled by the
    clock and are left out. *)
Definition exportAssets_prepare (params : list ExportParam.t) (st : State)
  : Prepared.t * State :=
  let objMap := exportAssets_objMap st params in
  let objs := map snd objMap in
  let imgObjs := List.filter (fun data => isImageAssetObj (ExportEntry.obj data)) objs in
  fold_left
    (fun '(acc, st) data =>
       match ExportEntry.obj data with
       | Some obj => prepare_image (ExportEntry.key data) obj acc st
       | None => (acc, st)
       end)
    imgObjs
    ({| Prepared.imgData := []; Prepared.imgBitmaps := [] |}, st).

(** ** Requests to the worker *)

(** What the worker runs between two yields.  [CallLoadFiles] is a call of
    [loadFiles] served from start to end with nothing served in between.
    A call of [loadFiles] that is in flight while other requests are
    served runs in stretches of its own, whichever touch the manager:
    the report at the head of a turn of its loop ([LoadReport]),
    [loadFile] from the arrival of the file's bytes up to the call of the
    parser ([LoadLookup]), and the rest of [loadFile] once the parser has
    answered ([LoadParsed]). *)
Inductive Request :=
| CallLoadFiles (files : list File.t) (options : BundleLoadOptions.t)
| CallGetImageUrl (fileId : string) (pathId : Z)
| CallExportAsset (fileId : string) (pathId : Z)
| CallExportAssets (params : list ExportParam.t)
| Settled (p : PromiseId) (converted : option (list byte))
| CallClear
| LoadReport (name : string) (i n totalAssetNum : nat)
| LoadLookup (file : File.t) (options : BundleLoadOptions.t)
| LoadParsed (file : File.t) (options : BundleLoadOptions.t).

Definition is_clear (r : Request) : bool :=
  match r with
  | CallClear => true
  | _ => false
  end.

(** The events since the cache was last cleared. *)
Fixpoint since_clear (tr : list Event) : list Event :=
  match tr with
  | [] => []
  | EvClear :: _ => []
  | e :: tr' => e :: since_clear tr'
  end.

Definition is_decode (key : string) (e : Event) : bool :=
  match e with
  | EvDecode k => String.eqb k key
  | _ => false
  end.

Definition is_parse (buffer : list byte) (e : Event) : bool :=
  match e with
  | EvParse b => bool_decide (b = buffer)
  | _ => false
  end.

Definition is_export_decode (key : string) (e : Event) : bool :=
  match e with
  | EvExportDecode k => String.eqb k key
  | _ => false
  end.

(** How often [loadImage] has started the decode of [key] since the last
    clear. *)
Definition decodes (key : string) (st : State) : nat :=
  length (List.filter (is_decode key) (since_clear (trace st))).

(** How often [exportAssets] has asked for the bitmap of [key] itself since
    the last clear. *)
Definition export_decodes (key : string) (st : State) : nat :=
  length (List.filter (is_export_decode key) (since_clear (trace st))).

(** How often the parser has been called on [buffer]. *)
Definition parses (buffer : list byte) (st : State) : nat :=
  length (List.filter (is_parse buffer) (trace st)).

(** ** Loading files *)

Section Loading.

(** The content hash and the bundle parser are libraries; the parser may
    throw.  [toLowerCase] is the platform's. *)
Variable calcMd5 : list byte -> string.
Variable loadAssetBundle :
  list byte -> BundleLoadOptions.t -> string + Bundle.t.
Variable String_toLowerCase : string -> string.

(** What spreading [n] elements into the arguments of one call does on
    the engine at hand: nothing, or a [RangeError], given by its text,
    when they are more than the engine passes. *)
Variable spreadError : nat -> option string.

Definition call_loadAssetBundle
  (buffer : list byte) (options : BundleLoadOptions.t) : M Bundle.t :=
  modify (emit (EvParse buffer)) ;;;
  match loadAssetBundle buffer options with
  | inl err => throw err
  | inr bundle => ret bundle
  end.

(** The callback of the [map] in [loadFile]. *)
Definition assetInfoOf
  (fileId fileName : string) (bundle : Bundle.t) (obj : AssetObject.t)
  : M AssetInfo.t :=
  let key := getAssetKey fileId (AssetObject.pathId obj) in
  let container :=
    match Bundle.containerMap bundle with
    | Some m => default EmptyString (m !! AssetObject.pathId obj)
    | None => EmptyString
    end in
  dump <- match AssetObject.dump obj with
          | inl err => throw err
          | inr d => ret d
          end ;;
  data <- gets (getAssetData obj key) ;;
  ret {| AssetInfo.key := key;
         AssetInfo.fileId := fileId;
         AssetInfo.fileName := fileName;
         AssetInfo.name := AssetObject.name obj;
         AssetInfo.container := container;
         AssetInfo.type := default EmptyString (AssetType_name (AssetObject.type obj));
         AssetInfo.pathId := AssetObject.pathId obj;
         AssetInfo.size := AssetObject.size obj;
         AssetInfo.dump := dump;
         AssetInfo.data := data;
         AssetInfo.search := String_toLowerCase (AssetObject.name obj) |}.

Definition loadFile (file : File.t) (options : BundleLoadOptions.t)
  : M (list AssetInfo.t) :=
  let buffer := File.bytes file in
  let md5 := calcMd5 buffer in
  cached <- gets (fun st => bundleMap st !! md5) ;;
  bundle <- match cached with
            | Some b => ret b
            | None => call_loadAssetBundle buffer options
            end ;;
  present <- gets (fun st => bundleMap st !! md5) ;;
  match present with
  | Some _ => ret tt
  | None => modify (set_bundleMap (fun m => <[md5 := bundle]> m))
  end ;;;
  Promise_all (assetInfoOf md5 (File.name file) bundle)
              (List.filter (fun obj => showAssetType (AssetObject.type obj))
                           (Bundle.objects bundle)).

(** [loadFile] from the arrival of the bytes up to the point where it
    waits for the parser: the cached bundle on a hit, the call of the
    parser on a miss. *)
Definition loadFile_lookup (file : File.t) (options : BundleLoadOptions.t)
  : M (option Bundle.t) :=
  let buffer := File.bytes file in
  let md5 := calcMd5 buffer in
  cached <- gets (fun st => bundleMap st !! md5) ;;
  match cached with
  | Some b => ret (Some b)
  | None => modify (emit (EvParse buffer)) ;;; ret None
  end.

(** The rest of [loadFile]: at once on a hit, and on a miss when the
    parser has answered, which may be after other requests. *)
Definition loadFile_resume (file : File.t) (options : BundleLoadOptions.t)
  (cached : option Bundle.t) : M (list AssetInfo.t) :=
  let buffer := File.bytes file in
  let md5 := calcMd5 buffer in
  bundle <- match cached with
            | Some b => ret b
            | None =>
                match loadAssetBundle buffer options with
                | inl err => throw err
                | inr bundle => ret bundle
                end
            end ;;
  present <- gets (fun st => bundleMap st !! md5) ;;
  match present with
  | Some _ => ret tt
  | None => modify (set_bundleMap (fun m => <[md5 := bundle]> m))
  end ;;;
  Promise_all (assetInfoOf md5 (File.name file) bundle)
              (List.filter (fun obj => showAssetType (AssetObject.type obj))
                           (Bundle.objects bundle)).

(** A progress report.  The report's [progress] is the double
    [(i / n) * 100]; the event keeps the two operands [i] and [n]. *)
Definition onProgress (name : string) (i n totalAssetNum : nat) : M unit :=
  modify (emit (EvProgress name i n totalAssetNum)).

(** The manual decryption of [loadFiles], for environment 2 and names
    ending in [.ab]; a rejection of the key import is thrown. *)
Definition decryptFile (file : File.t) (options : BundleLoadOptions.t)
  : M File.t :=
  if (BundleLoadOptions.envIndex options =? 2)
     && String_endsWith (File.name file) ".ab"
  then
    let raw := File.bytes file in
    let salt := TextEncoder_encode (strip_ab (File.name file)) in
    match decryptAesCtrPbkdf1 raw "System.Byte[]" salt 32 100 with
    | Some decrypted =>
        ret {| File.name := File.name file; File.type := File.type file;
               File.bytes := decrypted |}
    | None => throw "DataError"
    end
  else ret file.

(** The body of the [try] block of the loop of [loadFiles] up to the
    result of [loadFile]. *)
Definition attempt
  (n : nat) (options : BundleLoadOptions.t) (i : nat) (file : File.t)
  (totalAssetNum : nat) : M (list AssetInfo.t) :=
  onProgress (File.name file) i n totalAssetNum ;;;
  file' <- decryptFile file options ;;
  loadFile file' options.

(** The [try] block of the loop of [loadFiles].  [errors], [infos] and
    [successNum] are variables of the call, so a throw hands them to
    [catch] as they are at the throw: with [successNum] already counted
    when what throws is the spreading of [result] into [push]. *)
Definition loadFiles_try
  (n : nat) (options : BundleLoadOptions.t) (i : nat) (file : File.t)
  (acc : LoadFilesResult.t)
  : State -> ((string * LoadFilesResult.t) + LoadFilesResult.t) * State :=
  fun st =>
    match attempt n options i file (length (LoadFilesResult.infos acc)) st with
    | (inl err, st') => (inl (err, acc), st')
    | (inr result, st') =>
        match result with
        | [] => (inr acc, st')
        | _ :: _ =>
            let acc :=
              {| LoadFilesResult.errors := LoadFilesResult.errors acc;
                 LoadFilesResult.infos := LoadFilesResult.infos acc;
                 LoadFilesResult.successNum := S (LoadFilesResult.successNum acc) |} in
            match spreadError (length result) with
            | Some err => (inl (err, acc), st')
            | None =>
                (inr {| LoadFilesResult.errors := LoadFilesResult.errors acc;
                        LoadFilesResult.infos := LoadFilesResult.infos acc ++ result;
                        LoadFilesResult.successNum :=
                          LoadFilesResult.successNum acc |}, st')
            end
        end
    end.

(** The [catch] block: [thrown] is the error, as [String(err)], with the
    variables as the throw left them. *)
Definition loadFiles_catch
  (file : File.t) (thrown : string * LoadFilesResult.t) : LoadFilesResult.t :=
  let '(err, acc) := thrown in
  {| LoadFilesResult.errors :=
       LoadFilesResult.errors acc
       ++ [{| FileLoadingError.name := File.name file;
              FileLoadingError.error := err |}];
     LoadFilesResult.infos := LoadFilesResult.infos acc;
     LoadFilesResult.successNum := LoadFilesResult.successNum acc |}.

Fixpoint loadFiles_loop
  (n : nat) (options : BundleLoadOptions.t) (i : nat) (files : list File.t)
  (acc : LoadFilesResult.t) : M LoadFilesResult.t :=
  match files with
  | [] => ret acc
  | file :: rest =>
      fun st =>
        match loadFiles_try n options i file acc st with
        | (inl thrown, st') =>
            loadFiles_loop n options (S i) rest (loadFiles_catch file thrown) st'
        | (inr acc', st') =>
            loadFiles_loop n options (S i) rest acc' st'
        end
  end.

Definition loadFiles (files : list File.t) (options : BundleLoadOptions.t)
  : M LoadFilesResult.t :=
  loadFiles_loop (length files) options 0 files
    {| LoadFilesResult.errors := []; LoadFilesResult.infos := [];
       LoadFilesResult.successNum := 0 |}.

(** The infos of a bundle as [loadFile] builds them in state [st]. *)
Definition project
  (st : State) (fileId fileName : string) (bundle : Bundle.t)
  : string + list AssetInfo.t :=
  fst (Promise_all (assetInfoOf fileId fileName bundle)
         (List.filter (fun obj => showAssetType (AssetObject.type obj))
                      (Bundle.objects bundle))
         st).

(** *** The manager as a transition system

    The worker runs one synchronous stretch at a time: a call from the
    store up to the point where it yields, or the continuation of a
    decode whose conversion has been reported. *)

Definition step (st : State) (r : Request) : State :=
  match r with
  | CallLoadFiles files options => snd (loadFiles files options st)
  | CallGetImageUrl fileId pathId => snd (getImageUrl fileId pathId st)
  | CallExportAsset fileId pathId => snd (exportAsset fileId pathId st)
  | CallExportAssets params => snd (exportAssets_prepare params st)
  | Settled p converted => settle p converted st
  | CallClear => clear st
  | LoadReport name i n totalAssetNum =>
      snd (onProgress name i n totalAssetNum st)
  | LoadLookup file options => snd (loadFile_lookup file options st)
  | LoadParsed file options => snd (loadFile_resume file options None st)
  end.

Definition run (st : State) (rs : list Request) : State := fold_left step rs st.

(** *** The loop of [loadFiles], file by file *)

Definition infos_of (outcome : string + list AssetInfo.t) : list AssetInfo.t :=
  match outcome with
  | inl _ => []
  | inr infos => infos
  end.

(** What [push] has added for a file: the infos of the file, unless the
    attempt threw or the infos could not be spread. *)
Definition pushed_of (outcome : string + list AssetInfo.t) : list AssetInfo.t :=
  match outcome with
  | inl _ => []
  | inr infos =>
      match spreadError (length infos) with
      | Some _ => []
      | None => infos
      end
  end.

(** The outcome of every file, each attempted in the state the previous
    one left. *)
Fixpoint outcomes
  (n : nat) (options : BundleLoadOptions.t) (i : nat) (files : list File.t)
  (totalAssetNum : nat) (st : State)
  : list (File.t * (string + list AssetInfo.t)) * State :=
  match files with
  | [] => ([], st)
  | file :: rest =>
      let '(outcome, st1) := attempt n options i file totalAssetNum st in
      let '(others, st2) :=
        outcomes n options (S i) rest
                 (totalAssetNum + length (pushed_of outcome)) st1 in
      ((file, outcome) :: others, st2)
  end.

(** The bookkeeping of one turn of the loop, given the file's outcome. *)
Definition tally
  (acc : LoadFilesResult.t) (o : File.t * (string + list AssetInfo.t))
  : LoadFilesResult.t :=
  match snd o with
  | inl err =>
      {| LoadFilesResult.errors :=
           LoadFilesResult.errors acc
           ++ [{| FileLoadingError.name := File.name (fst o);
                  FileLoadingError.error := err |}];
         LoadFilesResult.infos := LoadFilesResult.infos acc;
         LoadFilesResult.successNum := LoadFilesResult.successNum acc |}
  | inr [] => acc
  | inr (info :: infos) =>
      match spreadError (length (info :: infos)) with
      | Some err =>
          {| LoadFilesResult.errors :=
               LoadFilesResult.errors acc
               ++ [{| FileLoadingError.name := File.name (fst o);
                      FileLoadingError.error := err |}];
             LoadFilesResult.infos := LoadFilesResult.infos acc;
             LoadFilesResult.successNum := S (LoadFilesResult.successNum acc) |}
      | None =>
          {| LoadFilesResult.errors := LoadFilesResult.errors acc;
             LoadFilesResult.infos := LoadFilesResult.infos acc ++ info :: infos;
             LoadFilesResult.successNum := S (LoadFilesResult.successNum acc) |}
      end
  end.

(** The entry [catch] adds for a file, if any: for an attempt that threw,
    and for infos that could not be spread. *)
Definition error_of (o : File.t * (string + list AssetInfo.t))
  : list FileLoadingError.t :=
  match snd o with
  | inl err => [{| FileLoadingError.name := File.name (fst o);
                   FileLoadingError.error := err |}]
  | inr [] => []
  | inr (info :: infos) =>
      match spreadError (length (info :: infos)) with
      | Some err => [{| FileLoadingError.name := File.name (fst o);
                        FileLoadingError.error := err |}]
      | None => []
      end
  end.

Definition errors_of (os : list (File.t * (string + list AssetInfo.t)))
  : list FileLoadingError.t :=
  flat_map error_of os.

(** The files whose infos could not be spread. *)
Definition overflowed (o : File.t * (string + list AssetInfo.t)) : bool :=
  match snd o with
  | inr (info :: infos) =>
      match spreadError (length (info :: infos)) with
      | Some _ => true
      | None => false
      end
  | _ => false
  end.

Definition has_infos (o : File.t * (string + list AssetInfo.t)) : bool :=
  match snd o with
  | inr (_ :: _) => true
  | _ => false
  end.

(** The events of one file: its progress report, then at most one call of
    the parser; written most recent first, as the trace is. *)
Definition segment_of (n i : nat) (file : File.t) (seg : list Event) : Prop :=
  exists (totalAssetNum : nat) (parse : list Event),
    seg = parse ++ [EvProgress (File.name file) i n totalAssetNum]
    /\ (parse = [] \/ exists buffer, parse = [EvParse buffer]).

End Loading.

(** ** The derivation in the specification's words *)

Module Derive.

(** [hash0 = SHA1(password_bytes || salt)] *)
Definition hash0 (password : string) (salt : list byte) : list byte :=
  SHA1.digest (TextEncoder_encode password ++ salt).

(** SHA1 applied to [hash0] exactly [(iterationCount - 1) - 1] more times. *)
Definition hashN (password : string) (salt : list byte) (iterationCount : Z)
  : list byte :=
  Nat.iter (Z.to_nat ((iterationCount - 1) - 1)) SHA1.digest (hash0 password salt).

(** [seed = SHA1(hashN)] *)
Definition seed (hN : list byte) : list byte := SHA1.digest hN.

(** The seed followed by [SHA1(byte(marker + 48) || hashN)] for the markers
    [1 .. k]. *)
Definition accumulated (hN : list byte) (k : nat) : list byte :=
  seed hN ++
  concat (map (fun marker => SHA1.digest (byte_of_Z (Z.of_nat marker + 48) :: hN))
              (seq 1 k)).

End Derive.

(** The number a run of bytes holds, least significant byte first. *)
Definition le_value (bs : list byte) : Z :=
  fold_right (fun b acc => Z_of_byte b + 256 * acc) 0 bs.

(** ** Test doubles *)

Module Fixture.

Definition hex_digit (n : Z) : ascii :=
  nth (Z.to_nat n) (list_ascii_of_string "0123456789abcdef") "0"%char.

Fixpoint hex (bs : list byte) : string :=
  match bs with
  | [] => EmptyString
  | b :: bs' =>
      String (hex_digit (Z_of_byte b / 16))
             (String (hex_digit (Z_of_byte b mod 16)) (hex bs'))
  end.

(** A stand-in for the content hash: the content itself in hexadecimal. *)
Definition hash (buffer : list byte) : string := hex buffer.

Definition lower_char (c : ascii) : ascii :=
  let n := nat_of_ascii c in
  if ((65 <=? n) && (n <=? 90))%nat then ascii_of_nat (n + 32) else c.

Fixpoint lower (s : string) : string :=
  match s with
  | EmptyString => EmptyString
  | String c s' => String (lower_char c) (lower s')
  end.

Definition pixel : ImgBitMap.t :=
  {| ImgBitMap.width := 1; ImgBitMap.height := 1;
     ImgBitMap.data := bytes_of_Zs [255; 0; 0; 255] |}.

(** A sprite with a bitmap, whose name has a slash. *)
Definition icon : AssetObject.t :=
  {| AssetObject.name := "icon/large"; AssetObject.type := Sprite;
     AssetObject.pathId := 1; AssetObject.size := 64;
     AssetObject.dump := inr (DumpOf "{}");
     AssetObject.data := [];
     AssetObject.getImageBitmap := Some pixel |}.

(** A sprite without a bitmap. *)
Definition ghost : AssetObject.t :=
  {| AssetObject.name := "ghost"; AssetObject.type := Sprite;
     AssetObject.pathId := 2; AssetObject.size := 0;
     AssetObject.dump := inr (DumpOf "{}");
     AssetObject.data := [];
     AssetObject.getImageBitmap := None |}.

(** A text whose bytes start with a byte order mark. *)
Definition notes : AssetObject.t :=
  {| AssetObject.name := "notes"; AssetObject.type := TextAsset;
     AssetObject.pathId := 3; AssetObject.size := 4;
     AssetObject.dump := inr (DumpOf "{}");
     AssetObject.data := bytes_of_Zs [0xEF; 0xBB; 0xBF; 0x41];
     AssetObject.getImageBitmap := None |}.

Definition atlas : AssetObject.t :=
  {| AssetObject.name := "atlas"; AssetObject.type := SpriteAtlas;
     AssetObject.pathId := 4; AssetObject.size := 8;
     AssetObject.dump := inr (DumpOf "{}");
     AssetObject.data := [];
     AssetObject.getImageBitmap := None |}.

Definition gameObject : AssetObject.t :=
  {| AssetObject.name := "root"; AssetObject.type := OtherType 1 (Some "GameObject");
     AssetObject.pathId := 5; AssetObject.size := 8;
     AssetObject.dump := inr (DumpOf "{}");
     AssetObject.data := [];
     AssetObject.getImageBitmap := None |}.

Definition bundle_of (objs : list AssetObject.t) : Bundle.t :=
  {| Bundle.objects := objs;
     Bundle.objectMap :=
       fold_left (fun m o => <[AssetObject.pathId o := o]> m) objs ∅;
     Bundle.containerMap := Some {[ 1 := "assets/icons/large.png" ]} |}.

Definition assets : list byte := TextEncoder_encode "UnityFS assets".
Definition scene : list byte := TextEncoder_encode "UnityFS scene".
Definition garbage : list byte := TextEncoder_encode "not a bundle".

(** A parser that knows two contents and throws on everything else. *)
Definition parser (buffer : list byte) (options : BundleLoadOptions.t)
  : string + Bundle.t :=
  if bool_decide (buffer = assets)
  then inr (bundle_of [icon; ghost; notes; atlas; gameObject])
  else if bool_decide (buffer = scene)
  then inr (bundle_of [gameObject])
  else inl "Error: unsupported bundle".

(** An engine that passes at most eight arguments in one call. *)
Definition spread (n : nat) : option string :=
  if (n <=? 8)%nat then None
  else Some "RangeError: Maximum call stack size exceeded".

Definition options : BundleLoadOptions.t :=
  {| BundleLoadOptions.unityCNKey := None; BundleLoadOptions.env := 0;
     BundleLoadOptions.envIndex := 0 |}.

Definition file (name : string) (bytes : list byte) : File.t :=
  {| File.name := name; File.type := EmptyString; File.bytes := bytes |}.

Definition fileId : string := hash assets.

Definition png : list byte := bytes_of_Zs [0x89; 0x50; 0x4E; 0x47].

Definition select (pathId : Z) (container : string) : ExportParam.t :=
  {| ExportParam.fileId := fileId; ExportParam.pathId := pathId;
     ExportParam.fileName := "a.bundle"; ExportParam.container := container |}.

(** The worker after the known bundle has been loaded from [a.bundle]. *)
Definition loaded : State :=
  run hash parser lower spread initial [CallLoadFiles [file "a.bundle" assets] options].

End Fixture.

(** * Properties *)

(** ** The primitives on the standards' vectors *)

Definition fips197_plain : list byte :=
  hex_bytes [0x00; 0x11; 0x22; 0x33; 0x44; 0x55; 0x66; 0x77;
             0x88; 0x99; 0xaa; 0xbb; 0xcc; 0xdd; 0xee; 0xff].

Example sha1_abc :
  SHA1.digest (list_byte_of_string "abc") =
  hex_bytes [0xa9; 0x99; 0x3e; 0x36; 0x47; 0x06; 0x81; 0x6a; 0xba; 0x3e;
             0x25; 0x71; 0x78; 0x50; 0xc2; 0x6c; 0x9c; 0xd0; 0xd8; 0x9d].
Proof. vm_compute. reflexivity. Qed.

Example sha1_empty :
  SHA1.digest [] =
  hex_bytes [0xda; 0x39; 0xa3; 0xee; 0x5e; 0x6b; 0x4b; 0x0d; 0x32; 0x55;
             0xbf; 0xef; 0x95; 0x60; 0x18; 0x90; 0xaf; 0xd8; 0x07; 0x09].
Proof. vm_compute. reflexivity. Qed.

Example sha1_two_blocks :
  SHA1.digest (list_byte_of_string
    "abcdbcdecdefdefgefghfghighijhijkijkljklmklmnlmnomnopnopq") =
  hex_bytes [0x84; 0x98; 0x3e; 0x44; 0x1c; 0x3b; 0xd2; 0x6e; 0xba; 0xae;
             0x4a; 0xa1; 0xf9; 0x51; 0x29; 0xe5; 0xe5; 0x46; 0x70; 0xf1].
Proof. vm_compute. reflexivity. Qed.

Example aes128_fips197 :
  AES.encrypt_block (bytes_of_Zs (map Z.of_nat (seq 0 16))) fips197_plain =
  hex_bytes [0x69; 0xc4; 0xe0; 0xd8; 0x6a; 0x7b; 0x04; 0x30;
             0xd8; 0xcd; 0xb7; 0x80; 0x70; 0xb4; 0xc5; 0x5a].
Proof. vm_compute. reflexivity. Qed.

Example aes192_fips197 :
  AES.encrypt_block (bytes_of_Zs (map Z.of_nat (seq 0 24))) fips197_plain =
  hex_bytes [0xdd; 0xa9; 0x7c; 0xa4; 0x86; 0x4c; 0xdf; 0xe0;
             0x6e; 0xaf; 0x70; 0xa0; 0xec; 0x0d; 0x71; 0x91].
Proof. vm_compute. reflexivity. Qed.

Example aes256_fips197 :
  AES.encrypt_block (bytes_of_Zs (map Z.of_nat (seq 0 32))) fips197_plain =
  hex_bytes [0x8e; 0xa2; 0xb7; 0xca; 0x51; 0x67; 0x45; 0xbf;
             0xea; 0xfc; 0x49; 0x90; 0x4b; 0x49; 0x60; 0x89].
Proof. vm_compute. reflexivity. Qed.

(** The derivation and the decryption on inputs worked out independently,
    with the SHA-1 and the AES-256-CBC of standard tools. *)
Example getKeyPbkdf1_vector :
  getKeyPbkdf1 "System.Byte[]" (TextEncoder_encode "level01") 32 3 =
  hex_bytes [0xa2; 0xb4; 0x8a; 0x3c; 0xd9; 0x9c; 0xbf; 0x75;
             0xf1; 0x60; 0xe5; 0x46; 0x3e; 0x43; 0x1a; 0xe0;
             0xfc; 0xd6; 0xdd; 0xfc; 0xad; 0x12; 0xea; 0x36;
             0xc4; 0xac; 0x6b; 0xc8; 0x10; 0xd7; 0x27; 0x62].
Proof. vm_compute. reflexivity. Qed.

Example decryptAesCtrPbkdf1_vector :
  decryptAesCtrPbkdf1 (TextEncoder_encode "UnityFS bundle, twenty-nine b")
                      "System.Byte[]" (TextEncoder_encode "level01") 32 3 =
  Some (hex_bytes [0xfe; 0xf3; 0x47; 0x40; 0x4c; 0xea; 0x4e; 0x0b;
                   0xbb; 0x18; 0x80; 0x1e; 0xc9; 0xac; 0x84; 0xee;
                   0x26; 0xda; 0xa0; 0xa9; 0x31; 0xb9; 0xb8; 0x6e;
                   0xc0; 0x13; 0x6d; 0x90; 0xaa]).
Proof. vm_compute. reflexivity. Qed.

(** ** Bytes *)

Lemma Z_of_byte_range (b : byte) : 0 <= Z_of_byte b < 256.
Proof.
  unfold Z_of_byte. pose proof (Byte.to_N_bounded b). lia.
Qed.

Lemma byte_of_Z_of_byte (b : byte) : byte_of_Z (Z_of_byte b) = b.
Proof.
  unfold byte_of_Z. pose proof (Z_of_byte_range b) as Hr.
  rewrite Z.mod_small by exact Hr.
  unfold Z_of_byte. rewrite N2Z.id, Byte.of_to_N. reflexivity.
Qed.

Lemma Z_of_byte_of_Z (z : Z) : Z_of_byte (byte_of_Z z) = z mod 256.
Proof.
  unfold byte_of_Z.
  pose proof (Z.mod_pos_bound z 256 ltac:(lia)) as Hr.
  destruct (Byte.of_N (Z.to_N (z mod 256))) as [b|] eqn:Hb.
  - apply Byte.to_of_N in Hb. unfold Z_of_byte.
    replace (Byte.to_N b) with (Z.to_N (z mod 256)) by congruence. lia.
  - apply Byte.of_N_None_iff in Hb. lia.
Qed.

Lemma byte_xor_involutive (a k : byte) : byte_xor (byte_xor a k) k = a.
Proof.
  unfold byte_xor. rewrite Z_of_byte_of_Z.
  pose proof (Z_of_byte_range a) as Ha. pose proof (Z_of_byte_range k) as Hk.
  assert (Hx : 0 <= Z.lxor (Z_of_byte a) (Z_of_byte k) < 256).
  { split.
    - apply Z.lxor_nonneg. lia.
    - change 256 with (2 ^ 8).
      destruct (Z.eq_dec (Z.lxor (Z_of_byte a) (Z_of_byte k)) 0) as [->|Hne]; [lia|].
      apply Z.log2_lt_pow2.
      + assert (0 <= Z.lxor (Z_of_byte a) (Z_of_byte k)) by (apply Z.lxor_nonneg; lia).
        lia.
      + eapply Z.le_lt_trans; [apply Z.log2_lxor; lia|].
        apply Z.max_lub_lt.
        * destruct (Z.eq_dec (Z_of_byte a) 0) as [->|]; [reflexivity|].
          apply Z.log2_lt_pow2; lia.
        * destruct (Z.eq_dec (Z_of_byte k) 0) as [->|]; [reflexivity|].
          apply Z.log2_lt_pow2; lia. }
  rewrite Z.mod_small by exact Hx.
  rewrite Z.lxor_assoc, Z.lxor_nilpotent, Z.lxor_0_r.
  apply byte_of_Z_of_byte.
Qed.

Lemma byte_xor_zero (a : byte) : byte_xor a x00 = a.
Proof.
  unfold byte_xor. change (Z_of_byte x00) with 0.
  rewrite Z.lxor_0_r. apply byte_of_Z_of_byte.
Qed.

(** ** Key derivation *)

Lemma rehash_loop_iter (count : Z) (n : nat) :
  forall (i : Z) (hash : list byte),
    Z.to_nat (count - 1 - i) = n ->
    rehash_loop count i hash = Nat.iter n digestSha1 hash.
Proof.
  induction n as [|n IH]; intros i hash Hn.
  - rewrite rehash_loop_equation_1.
    destruct (Z_lt_dec i (count - 1)) as [Hlt|Hge]; [lia|reflexivity].
  - rewrite rehash_loop_equation_1.
    destruct (Z_lt_dec i (count - 1)) as [Hlt|Hge]; [|lia].
    cbn [rehash_loop_unfold_clause_1].
    rewrite (IH (i + 1) (digestSha1 hash)) by lia.
    symmetry. apply Nat.iter_succ_r.
Qed.

(** The digests one run of the extension loop appends, from marker index
    [index] on. *)
Lemma extend_loop_step (keyLen : Z) (hash hashder : list byte) (index : Z) :
  extend_loop keyLen hash hashder index =
  if Z_lt_dec (Z.of_nat (length hashder)) keyLen
  then extend_loop keyLen hash
         (hashder ++ digestSha1 (byte_of_Z (index + 48) :: hash)) (index + 1)
  else hashder.
Proof.
  rewrite extend_loop_equation_1.
  destruct (Z_lt_dec (Z.of_nat (length hashder)) keyLen); reflexivity.
Qed.

Lemma extend_loop_markers (keyLen : Z) (hash : list byte) (n : nat) :
  forall (hashder : list byte) (m : nat),
    (Z.to_nat (keyLen - Z.of_nat (length hashder)) <= n)%nat ->
    exists k : nat,
      extend_loop keyLen hash hashder (Z.of_nat m) =
        hashder ++ concat (map (fun marker =>
                                  digestSha1 (byte_of_Z (Z.of_nat marker + 48) :: hash))
                               (seq m k))
      /\ keyLen <= Z.of_nat (length hashder) + 20 * Z.of_nat k
      /\ (forall k', (k' < k)%nat ->
                     Z.of_nat (length hashder) + 20 * Z.of_nat k' < keyLen).
Proof.
  induction n as [|n IH]; intros hashder m Hn;
    rewrite extend_loop_step;
    destruct (Z_lt_dec (Z.of_nat (length hashder)) keyLen) as [Hlt|Hge];
    try lia.
  - exists 0%nat. cbn [seq map concat]. rewrite app_nil_r.
    split; [reflexivity|]. split; [lia|]. intros k' Hk'. lia.
  - set (extra := digestSha1 (byte_of_Z (Z.of_nat m + 48) :: hash)).
    assert (Hlen : length (hashder ++ extra) = (length hashder + 20)%nat).
    { rewrite length_app. unfold extra. rewrite digestSha1_length. reflexivity. }
    destruct (IH (hashder ++ extra) (S m)) as (k & Heq & Hge & Hleast).
    { rewrite Hlen. lia. }
    exists (S k). split; [|split].
    + replace (Z.of_nat m + 1) with (Z.of_nat (S m)) by lia.
      rewrite Heq. cbn [seq map concat]. fold extra.
      rewrite <- app_assoc. reflexivity.
    + rewrite Hlen in Hge. lia.
    + intros [|k'] Hk'; [lia|].
      specialize (Hleast k' ltac:(lia)). rewrite Hlen in Hleast. lia.
  - exists 0%nat. cbn [seq map concat]. rewrite app_nil_r.
    split; [reflexivity|]. split; [lia|]. intros k' Hk'. lia.
Qed.

Lemma length_concat_digests (hash : list byte) (m k : nat) :
  length (concat (map (fun marker =>
                         digestSha1 (byte_of_Z (Z.of_nat marker + 48) :: hash))
                      (seq m k))) = (20 * k)%nat.
Proof.
  revert m. induction k as [|k IH]; intros m; [reflexivity|].
  cbn [seq map concat]. rewrite length_app, digestSha1_length, IH. lia.
Qed.

Lemma Uint8Array_slice0_firstn (arr : list byte) (n : Z) :
  0 <= n <= Z.of_nat (length arr) ->
  Uint8Array_slice0 arr n = firstn (Z.to_nat n) arr.
Proof.
  intros Hn. unfold Uint8Array_slice0.
  destruct (n <? 0) eqn:Hneg; [lia|].
  rewrite Z.min_l by lia. reflexivity.
Qed.

Lemma length_accumulated (hN : list byte) (k : nat) :
  length (Derive.accumulated hN k) = (20 + 20 * k)%nat.
Proof.
  unfold Derive.accumulated, Derive.seed. rewrite length_app.
  change SHA1.digest with digestSha1.
  rewrite digestSha1_length, length_concat_digests. reflexivity.
Qed.

Lemma getKeyPbkdf1_accumulated
  (password : string) (salt : list byte) (keyLen countParam : Z) :
  0 <= keyLen ->
  2 <= countParam ->
  exists k : nat,
    keyLen <= Z.of_nat (length (Derive.accumulated
                                  (Derive.hashN password salt countParam) k))
    /\ (forall k', (k' < k)%nat ->
          Z.of_nat (length (Derive.accumulated
                              (Derive.hashN password salt countParam) k')) < keyLen)
    /\ getKeyPbkdf1 password salt keyLen countParam =
       firstn (Z.to_nat keyLen)
              (Derive.accumulated (Derive.hashN password salt countParam) k).
Proof.
  intros HkeyLen Hcount.
  set (hN := Derive.hashN password salt countParam).
  unfold getKeyPbkdf1.
  rewrite (rehash_loop_iter (countParam - 1) (Z.to_nat (countParam - 1 - 1)))
    by (f_equal; lia).
  change (Nat.iter (Z.to_nat (countParam - 1 - 1)) digestSha1
            (digestSha1 (TextEncoder_encode password ++ salt))) with hN.
  destruct (extend_loop_markers keyLen hN
              (Z.to_nat (keyLen - Z.of_nat (length (digestSha1 hN))))
              (digestSha1 hN) 1 ltac:(lia)) as (k & Heq & Hge & Hleast).
  change (Z.of_nat 1) with 1 in Heq.
  rewrite digestSha1_length in Hge, Hleast.
  exists k. split; [|split].
  - rewrite length_accumulated. lia.
  - intros k' Hk'. rewrite length_accumulated. specialize (Hleast k' Hk'). lia.
  - rewrite Heq.
    change (digestSha1 hN ++
            concat (map (fun marker =>
                           digestSha1 (byte_of_Z (Z.of_nat marker + 48) :: hN))
                        (seq 1 k))) with (Derive.accumulated hN k).
    apply Uint8Array_slice0_firstn. rewrite length_accumulated. lia.
Qed.

Lemma getKeyPbkdf1_length
  (password : string) (salt : list byte) (keyLen countParam : Z) :
  0 <= keyLen ->
  2 <= countParam ->
  Z.of_nat (length (getKeyPbkdf1 password salt keyLen countParam)) = keyLen.
Proof.
  intros HkeyLen Hcount.
  destruct (getKeyPbkdf1_accumulated password salt keyLen countParam HkeyLen Hcount)
    as (k & Hge & _ & Heq).
  rewrite Heq, length_firstn. lia.
Qed.

(** C1. For a key length that is a length and an iteration count of at least
    two, [getKeyPbkdf1] returns exactly [keyLen] bytes, and they are the first
    [keyLen] bytes of the specification's accumulation: the seed, followed by
    the digests for the markers 1 to [k], where [k] is the first count at
    which the accumulated length reaches [keyLen].  The result is a function
    of the four arguments alone. *)
Theorem getKeyPbkdf1_derive
  (password : string) (salt : list byte) (keyLen countParam : Z) :
  0 <= keyLen ->
  2 <= countParam ->
  let hN := Derive.hashN password salt countParam in
  (exists k : nat,
      keyLen <= Z.of_nat (length (Derive.accumulated hN k))
      /\ (forall k', (k' < k)%nat ->
                     Z.of_nat (length (Derive.accumulated hN k')) < keyLen)
      /\ getKeyPbkdf1 password salt keyLen countParam =
         firstn (Z.to_nat keyLen) (Derive.accumulated hN k))
  /\ Z.of_nat (length (getKeyPbkdf1 password salt keyLen countParam)) = keyLen
  /\ (forall password' salt' keyLen' countParam',
         password' = password -> salt' = salt ->
         keyLen' = keyLen -> countParam' = countParam ->
         getKeyPbkdf1 password' salt' keyLen' countParam' =
         getKeyPbkdf1 password salt keyLen countParam).
Proof.
  intros HkeyLen Hcount hN. split; [|split].
  - apply getKeyPbkdf1_accumulated; assumption.
  - apply getKeyPbkdf1_length; assumption.
  - intros ? ? ? ? -> -> -> ->. reflexivity.
Qed.

Lemma getKeyPbkdf1_derive_witness :
  0 <= 32 /\ 2 <= 100 /\
  Z.of_nat (length (getKeyPbkdf1 "System.Byte[]" (TextEncoder_encode "abc") 32 100)) = 32.
Proof.
  split; [lia|]. split; [lia|].
  exact (proj1 (proj2 (getKeyPbkdf1_derive "System.Byte[]" (TextEncoder_encode "abc")
                          32 100 ltac:(lia) ltac:(lia)))).
Defined.

(** ** Counter-mode decryption *)

Lemma AES_encrypt_block_length (key blk : list byte) :
  length (AES.encrypt_block key blk) = 16%nat.
Proof.
  unfold AES.encrypt_block, bytes_of_Zs. rewrite length_map.
  unfold AES.cipher. cbv zeta. unfold AES.add_round_key at 1.
  rewrite length_map. apply length_seq.
Qed.

Lemma xor_bytes_zero (l : list byte) :
  xor_bytes l (repeat x00 (length l)) = l.
Proof.
  unfold xor_bytes. induction l as [|b l IH]; [reflexivity|].
  cbn [length repeat combine map fst snd]. rewrite byte_xor_zero. f_equal. exact IH.
Qed.

(** With a zero IV, the first block of the CBC encryption of one block is
    the encryption of that block alone. *)
Lemma encrypt_AES_CBC_first_block (key : CryptoKey) (blk : list byte) :
  length blk = 16%nat ->
  Uint8Array_subarray0 (encrypt_AES_CBC (Uint8Array_new 16) key blk) 16 =
  AES.encrypt_block (key_bytes key) blk.
Proof.
  intros Hlen. unfold Uint8Array_subarray0, encrypt_AES_CBC, pkcs7_pad.
  rewrite Hlen. change (16 - 16 mod 16)%nat with 16%nat.
  rewrite length_app, Hlen, repeat_length. change (16 + 16)%nat with 32%nat.
  set (padding := repeat (byte_of_Z (Z.of_nat 16)) 16).
  assert (Hstep : forall fuel prev data,
             data <> [] ->
             cbc_blocks (S fuel) key prev data =
             AES.encrypt_block (key_bytes key) (xor_bytes (firstn 16 data) prev)
             ++ cbc_blocks fuel key
                  (AES.encrypt_block (key_bytes key) (xor_bytes (firstn 16 data) prev))
                  (skipn 16 data)).
  { intros fuel prev [|d data] Hd; [congruence|reflexivity]. }
  rewrite Hstep by (destruct blk; [discriminate Hlen|discriminate]).
  assert (Hfirst : firstn 16 (blk ++ padding) = blk).
  { rewrite firstn_app, Hlen. change (16 - 16)%nat with 0%nat.
    cbn [firstn]. rewrite app_nil_r. apply firstn_all2. lia. }
  rewrite Hfirst. unfold Uint8Array_new.
  pose proof (xor_bytes_zero blk) as Hxor. rewrite Hlen in Hxor. rewrite Hxor.
  rewrite firstn_app, AES_encrypt_block_length. change (16 - 16)%nat with 0%nat.
  cbn [firstn]. rewrite app_nil_r.
  apply firstn_all2. rewrite AES_encrypt_block_length. lia.
Qed.

Lemma counter_block_bytes (counter : Z) :
  counter_block counter =
  map (fun k => byte_of_Z (Z.shiftr (counter mod 2 ^ 64) (8 * Z.of_nat k))) (seq 0 8)
  ++ repeat x00 8.
Proof. reflexivity. Qed.

Lemma counter_block_length (counter : Z) : length (counter_block counter) = 16%nat.
Proof. reflexivity. Qed.

Lemma le_value_shifts (n : nat) :
  forall v : Z,
    0 <= v ->
    le_value (map (fun k => byte_of_Z (Z.shiftr v (8 * Z.of_nat k))) (seq 0 n)) =
    v mod 256 ^ Z.of_nat n.
Proof.
  induction n as [|n IH]; intros v Hv.
  - cbn [seq map le_value fold_right]. change (256 ^ Z.of_nat 0) with 1.
    rewrite Z.mod_1_r. reflexivity.
  - cbn [seq map]. rewrite <- seq_shift, map_map.
    unfold le_value. cbn [fold_right]. fold (le_value
      (map (fun k => byte_of_Z (Z.shiftr v (8 * Z.of_nat (S k)))) (seq 0 n))).
    rewrite (map_ext _ (fun k => byte_of_Z (Z.shiftr (v / 256) (8 * Z.of_nat k)))).
    + rewrite IH by (apply Z.div_pos; lia).
      rewrite Z_of_byte_of_Z. change (8 * Z.of_nat 0) with 0. rewrite Z.shiftr_0_r.
      replace (256 ^ Z.of_nat (S n)) with (256 * 256 ^ Z.of_nat n)
        by (rewrite Nat2Z.inj_succ, Z.pow_succ_r by lia; reflexivity).
      symmetry. apply Z.rem_mul_r; [lia|]. apply Z.pow_pos_nonneg; lia.
    + intros k. f_equal.
      rewrite !Z.shiftr_div_pow2 by lia.
      replace (8 * Z.of_nat (S k)) with (8 + 8 * Z.of_nat k) by lia.
      rewrite Z.pow_add_r by lia. change (2 ^ 8) with 256.
      rewrite Z.div_div by (try lia; apply Z.pow_pos_nonneg; lia). reflexivity.
Qed.

Lemma counter_block_value (counter : Z) :
  le_value (firstn 8 (counter_block counter)) = counter mod 2 ^ 64
  /\ skipn 8 (counter_block counter) = repeat x00 8.
Proof.
  rewrite counter_block_bytes. split.
  - rewrite firstn_app, length_map, length_seq. change (8 - 8)%nat with 0%nat.
    cbn [firstn]. rewrite app_nil_r, firstn_all2 by (rewrite length_map, length_seq; lia).
    rewrite le_value_shifts by (apply Z.mod_pos_bound; lia).
    change (256 ^ Z.of_nat 8) with (2 ^ 64).
    apply Z.mod_small. apply Z.mod_pos_bound. lia.
  - reflexivity.
Qed.

Lemma keystream_block_encrypt (cryptoKey : CryptoKey) (counter : Z) :
  keystream_block cryptoKey counter =
  AES.encrypt_block (key_bytes cryptoKey) (counter_block counter).
Proof.
  unfold keystream_block, BLOCK_SIZE.
  apply encrypt_AES_CBC_first_block, counter_block_length.
Qed.

Lemma byte_at_insert (l : list byte) (i j : nat) (x : byte) :
  (i < length l)%nat ->
  byte_at (<[i := x]> l) j = if (i =? j)%nat then x else byte_at l j.
Proof.
  intros Hi. unfold byte_at. rewrite !nth_lookup.
  destruct (Nat.eqb_spec i j) as [->|Hne].
  - rewrite list_lookup_insert_eq by exact Hi. reflexivity.
  - rewrite list_lookup_insert_ne by exact Hne. reflexivity.
Qed.

Lemma xor_chunk_length (data keystream : list byte) (offset chunkLen : nat)
  (output : list byte) :
  length (xor_chunk data keystream offset chunkLen output) = length output.
Proof.
  unfold xor_chunk. generalize (seq 0 chunkLen) as idx. intros idx.
  revert output. induction idx as [|i idx IH]; intros output; [reflexivity|].
  cbn [fold_left]. rewrite IH. apply length_insert.
Qed.

Lemma xor_chunk_byte_at (data keystream : list byte) (offset : nat)
  (output : list byte) (chunkLen : nat) :
  (offset + chunkLen <= length output)%nat ->
  forall j : nat,
    byte_at (xor_chunk data keystream offset chunkLen output) j =
    if (offset <=? j)%nat && (j <? offset + chunkLen)%nat
    then byte_xor (byte_at data j) (byte_at keystream (j - offset))
    else byte_at output j.
Proof.
  induction chunkLen as [|n IH]; intros Hlen j.
  - cbn [xor_chunk seq fold_left].
    destruct (Nat.leb_spec offset j), (Nat.ltb_spec j (offset + 0)); cbn [andb];
      try reflexivity; lia.
  - unfold xor_chunk. rewrite seq_S, fold_left_app. cbn [fold_left Nat.add].
    fold (xor_chunk data keystream offset n output).
    rewrite byte_at_insert by (rewrite xor_chunk_length; lia).
    rewrite IH by lia.
    destruct (Nat.eqb_spec (offset + n) j) as [<-|Hne].
    + replace (offset + n - offset)%nat with n by lia.
      destruct (Nat.leb_spec offset (offset + n)),
               (Nat.ltb_spec (offset + n) (offset + S n)); cbn [andb];
        try reflexivity; lia.
    + destruct (Nat.leb_spec offset j), (Nat.ltb_spec j (offset + n)),
               (Nat.ltb_spec j (offset + S n)); cbn [andb];
        try reflexivity; lia.
Qed.

Lemma ctr_loop_step (cryptoKey : CryptoKey) (data : list byte) (offset : nat)
  (counter : Z) (output : list byte) :
  ctr_loop cryptoKey data offset counter output =
  if lt_dec offset (length data)
  then ctr_loop cryptoKey data (offset + BLOCK_SIZE) (counter + 1)
         (xor_chunk data (keystream_block cryptoKey counter) offset
            (Nat.min BLOCK_SIZE (length data - offset)) output)
  else output.
Proof.
  rewrite ctr_loop_equation_1.
  destruct (lt_dec offset (length data)); reflexivity.
Qed.

Lemma div16_step (a : nat) :
  (16 <= a)%nat ->
  (a / 16 = S ((a - 16) / 16))%nat /\ (a mod 16 = (a - 16) mod 16)%nat.
Proof.
  intros Ha. replace a with ((a - 16) + 1 * 16)%nat at 1 3 by lia.
  rewrite Nat.div_add, Nat.Div0.mod_add by lia. lia.
Qed.

(** The loop invariant: positions below [offset] are left as they were, and
    position [j] from [offset] on receives the input byte xored with byte
    [(j - offset) mod 16] of the keystream block of counter
    [counter + (j - offset) / 16]. *)
Lemma ctr_loop_bytes (cryptoKey : CryptoKey) (data : list byte) (m : nat) :
  forall (offset : nat) (counter : Z) (output : list byte),
    (length data - offset <= m)%nat ->
    length output = length data ->
    length (ctr_loop cryptoKey data offset counter output) = length data
    /\ forall j : nat,
        (j < length data)%nat ->
        byte_at (ctr_loop cryptoKey data offset counter output) j =
        if (j <? offset)%nat then byte_at output j
        else byte_xor (byte_at data j)
               (byte_at (keystream_block cryptoKey
                           (counter + Z.of_nat ((j - offset) / 16)))
                        ((j - offset) mod 16)).
Proof.
  induction m as [|m IH]; intros offset counter output Hm Hout;
    rewrite ctr_loop_step;
    destruct (lt_dec offset (length data)) as [Hlt|Hge]; try lia.
  - split; [exact Hout|]. intros j Hj.
    destruct (Nat.ltb_spec j offset); [reflexivity|lia].
  - set (keystream := keystream_block cryptoKey counter).
    set (chunkLen := Nat.min BLOCK_SIZE (length data - offset)).
    set (output' := xor_chunk data keystream offset chunkLen output).
    assert (Hout' : length output' = length data).
    { unfold output'. rewrite xor_chunk_length. exact Hout. }
    destruct (IH (offset + BLOCK_SIZE)%nat (counter + 1) output'
                 ltac:(unfold BLOCK_SIZE; lia) Hout') as [Hlen Hbytes].
    split; [exact Hlen|]. intros j Hj. rewrite (Hbytes j Hj).
    unfold BLOCK_SIZE in *.
    destruct (Nat.ltb_spec j (offset + 16)) as [Hin|Hout16].
    + unfold output'. rewrite xor_chunk_byte_at by (unfold chunkLen; lia).
      destruct (Nat.ltb_spec j offset) as [Hbelow|Habove].
      * destruct (Nat.leb_spec offset j); [lia|reflexivity].
      * destruct (Nat.leb_spec offset j); [|lia].
        destruct (Nat.ltb_spec j (offset + chunkLen)); [|unfold chunkLen in *; lia].
        cbn [andb].
        rewrite (Nat.div_small (j - offset) 16), (Nat.mod_small (j - offset) 16) by lia.
        rewrite Z.add_0_r. reflexivity.
    + destruct (Nat.ltb_spec j offset) as [Hbelow|Habove]; [lia|].
      destruct (div16_step (j - offset) ltac:(lia)) as [Hdiv Hmod].
      replace (j - (offset + 16))%nat with (j - offset - 16)%nat by lia.
      rewrite Hdiv, Hmod. do 3 f_equal. lia.
  - split; [exact Hout|]. intros j Hj.
    destruct (Nat.ltb_spec j offset); [reflexivity|lia].
Qed.

Lemma decryptAesCtrPbkdf1_bytes
  (data : list byte) (password : string) (salt : list byte)
  (keyLen countParam : Z) (cryptoKey : CryptoKey) :
  importKey_raw_AES (getKeyPbkdf1 password salt keyLen countParam) = Some cryptoKey ->
  exists out : list byte,
    decryptAesCtrPbkdf1 data password salt keyLen countParam = Some out
    /\ length out = length data
    /\ forall j : nat,
        (j < length data)%nat ->
        byte_at out j =
        byte_xor (byte_at data j)
          (byte_at (AES.encrypt_block (key_bytes cryptoKey)
                      (counter_block (Z.of_nat (j / 16) + 1)))
                   (j mod 16)).
Proof.
  intros Hkey. unfold decryptAesCtrPbkdf1. rewrite Hkey.
  eexists. split; [reflexivity|].
  destruct (ctr_loop_bytes cryptoKey data (length data) 0 1
              (Uint8Array_new (length data)) ltac:(lia)
              ltac:(apply repeat_length)) as [Hlen Hbytes].
  split; [exact Hlen|]. intros j Hj. rewrite (Hbytes j Hj).
  cbn [Nat.ltb Nat.leb]. rewrite Nat.sub_0_r, keystream_block_encrypt.
  rewrite (Z.add_comm 1). reflexivity.
Qed.

Lemma importKey_raw_AES_32 (keyData : list byte) :
  length keyData = 32%nat ->
  importKey_raw_AES keyData = Some {| key_bytes := keyData |}.
Proof. intros H. unfold importKey_raw_AES. rewrite H. reflexivity. Qed.

(** C2. With the defaults, the key import succeeds and the plaintext is as
    long as the ciphertext; byte [j] of block [i] is the ciphertext byte xored
    with byte [j] of the single-block encryption, under the key derived with
    length 32 and count 100, of the counter block for [i + 1]: sixteen bytes,
    the first eight holding [i + 1] as a 64-bit little-endian number, the
    last eight zero.  Only the positions the ciphertext has are written, so
    a short final block uses only as many keystream bytes. *)
Theorem decryptAesCtrPbkdf1_keystream
  (ciphertext : list byte) (password : string) (salt : list byte) :
  exists (cryptoKey : CryptoKey) (plaintext : list byte),
    key_bytes cryptoKey = getKeyPbkdf1 password salt 32 100
    /\ decryptAesCtrPbkdf1_default ciphertext password salt = Some plaintext
    /\ length plaintext = length ciphertext
    /\ forall i j : nat,
        (j < 16)%nat ->
        (16 * i + j < length ciphertext)%nat ->
        let counterBlock := counter_block (Z.of_nat i + 1) in
        length counterBlock = 16%nat
        /\ le_value (firstn 8 counterBlock) = (Z.of_nat i + 1) mod 2 ^ 64
        /\ (Z.of_nat (length ciphertext) < 2 ^ 64 ->
            le_value (firstn 8 counterBlock) = Z.of_nat i + 1)
        /\ skipn 8 counterBlock = repeat x00 8
        /\ byte_at plaintext (16 * i + j) =
           byte_xor (byte_at ciphertext (16 * i + j))
                    (byte_at (AES.encrypt_block (key_bytes cryptoKey) counterBlock) j).
Proof.
  pose proof (getKeyPbkdf1_length password salt 32 100 ltac:(lia) ltac:(lia)) as Hlen.
  assert (Hkey : importKey_raw_AES (getKeyPbkdf1 password salt 32 100) =
                 Some {| key_bytes := getKeyPbkdf1 password salt 32 100 |}).
  { apply importKey_raw_AES_32. lia. }
  destruct (decryptAesCtrPbkdf1_bytes ciphertext password salt 32 100 _ Hkey)
    as (plaintext & Hdec & Hplen & Hbytes).
  exists {| key_bytes := getKeyPbkdf1 password salt 32 100 |}, plaintext.
  split; [reflexivity|]. split; [exact Hdec|].
  split; [exact Hplen|]. intros i j Hj Hij counterBlock. subst counterBlock.
  destruct (counter_block_value (Z.of_nat i + 1)) as [Hval Hzero].
  split; [apply counter_block_length|]. split; [exact Hval|].
  split; [|split; [exact Hzero|]].
  - intros Hsmall. rewrite Hval. apply Z.mod_small. lia.
  - rewrite (Hbytes _ Hij).
    replace ((16 * i + j) / 16)%nat with i
      by (rewrite Nat.mul_comm, Nat.div_add_l, (Nat.div_small j 16) by lia; lia).
    replace ((16 * i + j) mod 16)%nat with j
      by (rewrite Nat.add_comm, Nat.mul_comm, Nat.Div0.mod_add, Nat.mod_small by lia; lia).
    reflexivity.
Qed.

Lemma decryptAesCtrPbkdf1_twice
  (data : list byte) (password : string) (salt : list byte)
  (keyLen countParam : Z) (cryptoKey : CryptoKey) :
  importKey_raw_AES (getKeyPbkdf1 password salt keyLen countParam) = Some cryptoKey ->
  exists out : list byte,
    decryptAesCtrPbkdf1 data password salt keyLen countParam = Some out
    /\ decryptAesCtrPbkdf1 out password salt keyLen countParam = Some data.
Proof.
  intros Hkey.
  destruct (decryptAesCtrPbkdf1_bytes data password salt keyLen countParam _ Hkey)
    as (out & Hdec & Hlen & Hbytes).
  destruct (decryptAesCtrPbkdf1_bytes out password salt keyLen countParam _ Hkey)
    as (back & Hdec' & Hlen' & Hbytes').
  exists out. split; [exact Hdec|]. rewrite Hdec'. f_equal.
  apply (nth_ext _ _ x00 x00); [congruence|].
  intros j Hj. fold (byte_at back j) (byte_at data j).
  rewrite (Hbytes' j ltac:(lia)), (Hbytes j ltac:(lia)).
  apply byte_xor_involutive.
Qed.

(** C9, as it holds.  For a key length of 16, 24 or 32 bytes and an
    iteration count of at least two, decrypting succeeds and decrypting the
    result again, with the same password, salt, key length and count, gives
    back the data. *)
Theorem decryptAesCtrPbkdf1_involutive
  (data : list byte) (password : string) (salt : list byte)
  (keyLen countParam : Z) :
  keyLen = 16 \/ keyLen = 24 \/ keyLen = 32 ->
  2 <= countParam ->
  exists out : list byte,
    decryptAesCtrPbkdf1 data password salt keyLen countParam = Some out
    /\ decryptAesCtrPbkdf1 out password salt keyLen countParam = Some data.
Proof.
  intros HkeyLen Hcount.
  pose proof (getKeyPbkdf1_length password salt keyLen countParam
                ltac:(lia) Hcount) as Hlen.
  apply decryptAesCtrPbkdf1_twice
    with (cryptoKey := {| key_bytes := getKeyPbkdf1 password salt keyLen countParam |}).
  unfold importKey_raw_AES.
  destruct HkeyLen as [->| [->| ->]];
    [replace (length (getKeyPbkdf1 password salt 16 countParam)) with 16%nat by lia
    |replace (length (getKeyPbkdf1 password salt 24 countParam)) with 24%nat by lia
    |replace (length (getKeyPbkdf1 password salt 32 countParam)) with 32%nat by lia];
    reflexivity.
Qed.

Lemma decryptAesCtrPbkdf1_involutive_witness :
  (32 = 16 \/ 32 = 24 \/ 32 = 32) /\ 2 <= 100 /\
  exists out : list byte,
    decryptAesCtrPbkdf1 (TextEncoder_encode "UnityFS") "System.Byte[]"
                        (TextEncoder_encode "abc") 32 100 = Some out
    /\ decryptAesCtrPbkdf1 out "System.Byte[]" (TextEncoder_encode "abc") 32 100 =
       Some (TextEncoder_encode "UnityFS").
Proof.
  split; [right; right; reflexivity|]. split; [lia|].
  apply (decryptAesCtrPbkdf1_involutive (TextEncoder_encode "UnityFS")
           "System.Byte[]" (TextEncoder_encode "abc") 32 100);
    [right; right; reflexivity|lia].
Defined.

(** C9, as stated, fails: with a key length of 20 bytes and a count of two
    the key import rejects, so nothing is returned to decrypt again. *)
Lemma decryptAesCtrPbkdf1_keyLen_20 :
  2 <= 2 /\
  ~ exists out : list byte,
      decryptAesCtrPbkdf1 (TextEncoder_encode "UnityFS") "System.Byte[]"
                          (TextEncoder_encode "abc") 20 2 = Some out
      /\ decryptAesCtrPbkdf1 out "System.Byte[]" (TextEncoder_encode "abc") 20 2 =
         Some (TextEncoder_encode "UnityFS").
Proof.
  split; [lia|]. intros (out & Hdec & _).
  vm_compute in Hdec. discriminate Hdec.
Qed.

(** ** What a computation leaves alone *)

Definition quiet_event (e : Event) : bool :=
  match e with
  | EvProgress _ _ _ _ | EvParse _ | EvExportDecode _ => true
  | EvDecode _ | EvClear => false
  end.

(** [extends st st']: the image cache is untouched, bundles were only added,
    and the trace grew by progress reports and parser calls. *)
Record extends (st st' : State) : Prop := {
  ext_imageMap : imageMap st' = imageMap st;
  ext_promises : promises st' = promises st;
  ext_urls : urls st' = urls st;
  ext_revoked : revoked st' = revoked st;
  ext_bundleMap :
    forall k b, bundleMap st !! k = Some b -> bundleMap st' !! k = Some b;
  ext_trace :
    exists new, trace st' = new ++ trace st /\ forallb quiet_event new = true
}.

Lemma extends_refl (st : State) : extends st st.
Proof.
  split; try reflexivity; [auto|]. exists []. split; reflexivity.
Qed.

Lemma extends_trans (st1 st2 st3 : State) :
  extends st1 st2 -> extends st2 st3 -> extends st1 st3.
Proof.
  intros [Hi1 Hp1 Hu1 Hr1 Hb1 (n1 & Ht1 & Hq1)] [Hi2 Hp2 Hu2 Hr2 Hb2 (n2 & Ht2 & Hq2)].
  split; try congruence; [auto|].
  exists (n2 ++ n1). split.
  - rewrite Ht2, Ht1, app_assoc. reflexivity.
  - rewrite forallb_app, Hq1, Hq2. reflexivity.
Qed.

Lemma extends_emit (e : Event) (st : State) :
  quiet_event e = true -> extends st (emit e st).
Proof.
  intros He. split; try reflexivity; [auto|].
  exists [e]. split; [reflexivity|]. cbn. rewrite He. reflexivity.
Qed.

Lemma extends_insert_bundle (md5 : string) (bundle : Bundle.t) (st : State) :
  bundleMap st !! md5 = None ->
  extends st (set_bundleMap (fun m => <[md5 := bundle]> m) st).
Proof.
  intros Hnone. split; try reflexivity.
  - intros k b Hk. cbn. rewrite lookup_insert_ne; [exact Hk|]. congruence.
  - exists []. split; reflexivity.
Qed.

(** A computation that never changes the state more than [extends] allows. *)
Definition framed {A} (m : M A) : Prop := forall st, extends st (snd (m st)).

Lemma framed_ret {A} (a : A) : framed (ret a).
Proof. intros st. apply extends_refl. Qed.

Lemma framed_throw {A} (e : string) : framed (@throw A e).
Proof. intros st. apply extends_refl. Qed.

Lemma framed_gets {A} (f : State -> A) : framed (gets f).
Proof. intros st. apply extends_refl. Qed.

Lemma framed_bind {A B} (m : M A) (k : A -> M B) :
  framed m -> (forall a, framed (k a)) -> framed (bind m k).
Proof.
  intros Hm Hk st. unfold bind. specialize (Hm st).
  destruct (m st) as [[e|a] st1]; cbn in *; [exact Hm|].
  eapply extends_trans; [exact Hm|]. apply Hk.
Qed.

Lemma framed_tryCatch {A} (m : M A) (h : string -> M A) :
  framed m -> (forall e, framed (h e)) -> framed (tryCatch m h).
Proof.
  intros Hm Hh st. unfold tryCatch. specialize (Hm st).
  destruct (m st) as [[e|a] st1]; cbn in *; [|exact Hm].
  eapply extends_trans; [exact Hm|]. apply Hh.
Qed.

Lemma framed_Promise_all {A B} (f : A -> M B) (l : list A) :
  (forall a, framed (f a)) -> framed (Promise_all f l).
Proof.
  intros Hf. induction l as [|a l IH]; cbn [Promise_all].
  - apply framed_ret.
  - apply framed_bind; [apply Hf|]. intros b.
    apply framed_bind; [exact IH|]. intros bs. apply framed_ret.
Qed.

Lemma framed_emit (e : Event) : quiet_event e = true -> framed (modify (emit e)).
Proof. intros He st. apply extends_emit, He. Qed.

(** ** Loading one file *)

Section LoadingProperties.

Variable calcMd5 : list byte -> string.
Variable loadAssetBundle :
  list byte -> BundleLoadOptions.t -> string + Bundle.t.
Variable String_toLowerCase : string -> string.
Variable spreadError : nat -> option string.

Local Abbreviation assetInfoOf' := (assetInfoOf String_toLowerCase).
Local Abbreviation project' := (project String_toLowerCase).
Local Abbreviation loadFile' := (loadFile calcMd5 loadAssetBundle String_toLowerCase).
Local Abbreviation loadFile_lookup' := (loadFile_lookup calcMd5).
Local Abbreviation loadFile_resume' :=
  (loadFile_resume calcMd5 loadAssetBundle String_toLowerCase).
Local Abbreviation loadFiles' :=
  (loadFiles calcMd5 loadAssetBundle String_toLowerCase spreadError).
Local Abbreviation attempt' := (attempt calcMd5 loadAssetBundle String_toLowerCase).
Local Abbreviation outcomes' :=
  (outcomes calcMd5 loadAssetBundle String_toLowerCase spreadError).
Local Abbreviation step' :=
  (step calcMd5 loadAssetBundle String_toLowerCase spreadError).
Local Abbreviation run' :=
  (run calcMd5 loadAssetBundle String_toLowerCase spreadError).
Local Abbreviation pushed_of' := (pushed_of spreadError).
Local Abbreviation tally' := (tally spreadError).
Local Abbreviation error_of' := (error_of spreadError).
Local Abbreviation errors_of' := (errors_of spreadError).
Local Abbreviation overflowed' := (overflowed spreadError).

Lemma assetInfoOf_state
  (fileId fileName : string) (bundle : Bundle.t) (obj : AssetObject.t)
  (st : State) :
  snd (assetInfoOf' fileId fileName bundle obj st) = st.
Proof.
  unfold assetInfoOf, bind, gets, ret, throw.
  destruct (AssetObject.dump obj); reflexivity.
Qed.

Lemma Promise_all_state {A B} (f : A -> M B) (l : list A) (st : State) :
  (forall a st, snd (f a st) = st) ->
  snd (Promise_all f l st) = st.
Proof.
  intros Hf. induction l as [|a l IH]; [reflexivity|].
  cbn [Promise_all]. unfold bind at 1.
  specialize (Hf a st). destruct (f a st) as [[e|b] st1]; cbn in Hf; subst st1;
    [reflexivity|].
  unfold bind, ret. destruct (Promise_all f l st) as [[e|bs] st2]; cbn in IH |- *;
    exact IH.
Qed.

Lemma Promise_all_project
  (fileId fileName : string) (bundle : Bundle.t) (st : State) :
  Promise_all (assetInfoOf' fileId fileName bundle)
    (List.filter (fun obj => showAssetType (AssetObject.type obj))
                 (Bundle.objects bundle)) st =
  (project' st fileId fileName bundle, st).
Proof.
  unfold project.
  rewrite <- (Promise_all_state (assetInfoOf' fileId fileName bundle)
                (List.filter (fun obj => showAssetType (AssetObject.type obj))
                             (Bundle.objects bundle)) st) at 3
    by (intros; apply assetInfoOf_state).
  apply surjective_pairing.
Qed.

(** What [loadFile] does, by whether the bundle is cached and whether the
    parser throws. *)
Lemma loadFile_cases (file : File.t) (options : BundleLoadOptions.t) (st : State) :
  let buffer := File.bytes file in
  let md5 := calcMd5 buffer in
  loadFile' file options st =
  match bundleMap st !! md5 with
  | Some bundle => (project' st md5 (File.name file) bundle, st)
  | None =>
      match loadAssetBundle buffer options with
      | inl err => (inl err, emit (EvParse buffer) st)
      | inr bundle =>
          let st' := set_bundleMap (fun m => <[md5 := bundle]> m)
                                   (emit (EvParse buffer) st) in
          (project' st' md5 (File.name file) bundle, st')
      end
  end.
Proof.
  intros buffer md5. unfold loadFile. fold buffer. fold md5.
  unfold bind at 1. unfold gets at 1.
  destruct (bundleMap st !! md5) as [bundle|] eqn:Hcached.
  - unfold bind at 1. unfold ret at 1.
    unfold bind at 1. unfold bind at 1. unfold gets at 1. rewrite Hcached.
    unfold ret at 1. apply Promise_all_project.
  - unfold bind at 1. unfold call_loadAssetBundle.
    unfold bind at 1. unfold modify at 1.
    destruct (loadAssetBundle buffer options) as [err|bundle]; [reflexivity|].
    unfold ret at 1.
    unfold bind at 1. unfold bind at 1. unfold gets at 1.
    cbn [bundleMap emit]. rewrite Hcached.
    unfold modify at 1. apply Promise_all_project.
Qed.

Definition dump_ok (obj : AssetObject.t) : Prop :=
  match AssetObject.dump obj with
  | inr _ => True
  | inl _ => False
  end.

Lemma Promise_all_assetInfoOf_cons
  (fileId fileName : string) (bundle : Bundle.t)
  (obj : AssetObject.t) (objs : list AssetObject.t) (st : State) :
  fst (Promise_all (assetInfoOf' fileId fileName bundle) (obj :: objs) st) =
  match fst (assetInfoOf' fileId fileName bundle obj st) with
  | inl err => inl err
  | inr info =>
      match fst (Promise_all (assetInfoOf' fileId fileName bundle) objs st) with
      | inl err => inl err
      | inr infos => inr (info :: infos)
      end
  end.
Proof.
  cbn [Promise_all]. unfold bind at 1.
  pose proof (assetInfoOf_state fileId fileName bundle obj st) as Hst.
  destruct (assetInfoOf' fileId fileName bundle obj st) as [[err|info] st1];
    cbn in Hst |- *; subst st1; [reflexivity|].
  unfold bind, ret.
  destruct (Promise_all (assetInfoOf' fileId fileName bundle) objs st)
    as [[err|infos] st2]; reflexivity.
Qed.

Lemma assetInfoOf_inr
  (fileId fileName : string) (bundle : Bundle.t) (obj : AssetObject.t)
  (st : State) (info : AssetInfo.t) :
  fst (assetInfoOf' fileId fileName bundle obj st) = inr info ->
  dump_ok obj
  /\ AssetInfo.fileId info = fileId
  /\ AssetInfo.fileName info = fileName
  /\ AssetInfo.key info = getAssetKey fileId (AssetObject.pathId obj)
  /\ AssetInfo.pathId info = AssetObject.pathId obj.
Proof.
  unfold assetInfoOf, dump_ok, bind, gets, ret, throw.
  destruct (AssetObject.dump obj) as [err|d]; cbn; [discriminate|].
  intros [= <-]. cbn. auto.
Qed.

Lemma assetInfoOf_dump_ok
  (fileId fileName : string) (bundle : Bundle.t) (obj : AssetObject.t)
  (st : State) :
  dump_ok obj ->
  exists info, fst (assetInfoOf' fileId fileName bundle obj st) = inr info.
Proof.
  unfold assetInfoOf, dump_ok, bind, gets, ret, throw.
  destruct (AssetObject.dump obj) as [err|d]; cbn; [tauto|].
  intros _. eexists. reflexivity.
Qed.

(** What the infos of a successful projection are made of. *)
Lemma Promise_all_assetInfoOf_inr
  (fileId fileName : string) (bundle : Bundle.t) (st : State)
  (objs : list AssetObject.t) :
  forall infos : list AssetInfo.t,
    fst (Promise_all (assetInfoOf' fileId fileName bundle) objs st) = inr infos ->
    Forall dump_ok objs
    /\ map AssetInfo.fileId infos = map (fun _ => fileId) objs
    /\ map AssetInfo.fileName infos = map (fun _ => fileName) objs
    /\ map AssetInfo.key infos =
       map (fun obj => getAssetKey fileId (AssetObject.pathId obj)) objs
    /\ map AssetInfo.pathId infos = map AssetObject.pathId objs.
Proof.
  induction objs as [|obj objs IH]; intros infos Hinfos.
  - cbn in Hinfos. injection Hinfos as <-. cbn. auto.
  - rewrite Promise_all_assetInfoOf_cons in Hinfos.
    destruct (fst (assetInfoOf' fileId fileName bundle obj st))
      as [err|info] eqn:Hinfo; [discriminate|].
    destruct (fst (Promise_all (assetInfoOf' fileId fileName bundle) objs st))
      as [err|infos'] eqn:Hrest; [discriminate|].
    injection Hinfos as <-.
    destruct (assetInfoOf_inr _ _ _ _ _ _ Hinfo) as (Hd & Hf & Hn & Hk & Hp).
    destruct (IH infos' eq_refl) as (Hds & Hfs & Hns & Hks & Hps).
    cbn [map]. rewrite Hf, Hn, Hk, Hp, Hfs, Hns, Hks, Hps. auto.
Qed.

Lemma Promise_all_assetInfoOf_dump_ok
  (fileId fileName : string) (bundle : Bundle.t) (st : State)
  (objs : list AssetObject.t) :
  Forall dump_ok objs ->
  exists infos,
    fst (Promise_all (assetInfoOf' fileId fileName bundle) objs st) = inr infos.
Proof.
  induction 1 as [|obj objs Hobj _ IH].
  - eexists. reflexivity.
  - rewrite Promise_all_assetInfoOf_cons.
    destruct (assetInfoOf_dump_ok fileId fileName bundle obj st Hobj) as [info ->].
    destruct IH as [infos ->]. eexists. reflexivity.
Qed.

Lemma forallb_quiet_parse (buffer : list byte) :
  quiet_event (EvParse buffer) = true.
Proof. reflexivity. Qed.

Lemma loadFile_extends (file : File.t) (options : BundleLoadOptions.t) :
  framed (loadFile' file options).
Proof.
  intros st. pose proof (loadFile_cases file options st) as Hcases.
  cbv zeta in Hcases. rewrite Hcases.
  destruct (bundleMap st !! calcMd5 (File.bytes file)) as [bundle|] eqn:Hcached.
  - apply extends_refl.
  - destruct (loadAssetBundle (File.bytes file) options) as [err|bundle]; cbn [snd].
    + apply extends_emit. reflexivity.
    + eapply extends_trans; [apply (extends_emit (EvParse (File.bytes file)));
                             reflexivity|].
      apply extends_insert_bundle. exact Hcached.
Qed.

(** After a load that returned, the bundle of the content is cached, the
    infos are its projection, and the parser was called at most once
    more. *)
Lemma loadFile_inr
  (file : File.t) (options : BundleLoadOptions.t) (st st1 : State)
  (infos : list AssetInfo.t) :
  loadFile' file options st = (inr infos, st1) ->
  exists bundle,
    bundleMap st1 !! calcMd5 (File.bytes file) = Some bundle
    /\ project' st1 (calcMd5 (File.bytes file)) (File.name file) bundle = inr infos
    /\ (parses (File.bytes file) st1 <= parses (File.bytes file) st + 1)%nat.
Proof.
  pose proof (loadFile_cases file options st) as Hcases.
  cbv zeta in Hcases. rewrite Hcases. clear Hcases.
  destruct (bundleMap st !! calcMd5 (File.bytes file)) as [bundle|] eqn:Hcached.
  - intros [= Hproj <-]. exists bundle. split; [exact Hcached|].
    split; [exact Hproj|lia].
  - destruct (loadAssetBundle (File.bytes file) options) as [err|bundle];
      [discriminate|].
    intros [= Hproj <-]. exists bundle. split; [|split].
    + cbn. apply lookup_insert_eq.
    + exact Hproj.
    + unfold parses. cbn [trace set_bundleMap emit List.filter is_parse].
      destruct (bool_decide (File.bytes file = File.bytes file)); cbn [length]; lia.
Qed.

(** C3, as it holds.  After a load of [file1] that returned, a load of a
    file with the same bytes, under any name and options and in any state
    that still has the cache entry of the first, leaves the state as it is
    (the cached bundle is kept and the parser is not called), is the
    projection of the cached bundle, and gives infos with the file ids and
    keys of the first load, the file id being the content hash.  Over both
    loads the parser ran at most once on these bytes. *)
Theorem loadFile_dedup
  (file1 file2 : File.t) (options1 options2 : BundleLoadOptions.t)
  (st st1 st2 : State) (infos1 : list AssetInfo.t) :
  File.bytes file1 = File.bytes file2 ->
  loadFile' file1 options1 st = (inr infos1, st1) ->
  bundleMap st2 !! calcMd5 (File.bytes file1) =
    bundleMap st1 !! calcMd5 (File.bytes file1) ->
  exists (bundle : Bundle.t) (infos2 : list AssetInfo.t),
    bundleMap st1 !! calcMd5 (File.bytes file1) = Some bundle
    /\ loadFile' file2 options2 st2 = (inr infos2, st2)
    /\ project' st2 (calcMd5 (File.bytes file1)) (File.name file2) bundle = inr infos2
    /\ map AssetInfo.fileId infos2 = map AssetInfo.fileId infos1
    /\ Forall (fun info => AssetInfo.fileId info = calcMd5 (File.bytes file1)) infos2
    /\ map AssetInfo.key infos2 = map AssetInfo.key infos1
    /\ (parses (File.bytes file1) st1 <= parses (File.bytes file1) st + 1)%nat
    /\ parses (File.bytes file1) (snd (loadFile' file2 options2 st2))
       = parses (File.bytes file1) st2.
Proof.
  intros Hbytes Hload1 Hkept.
  destruct (loadFile_inr _ _ _ _ _ Hload1) as (bundle & Hcached & Hproj1 & Hparses).
  unfold project in Hproj1.
  destruct (Promise_all_assetInfoOf_inr _ _ _ _ _ _ Hproj1)
    as (Hdumps & Hids1 & _ & Hkeys1 & _).
  destruct (Promise_all_assetInfoOf_dump_ok (calcMd5 (File.bytes file1))
              (File.name file2) bundle st2 _ Hdumps) as [infos2 Hproj2].
  destruct (Promise_all_assetInfoOf_inr _ _ _ _ _ _ Hproj2)
    as (_ & Hids2 & _ & Hkeys2 & _).
  assert (Hload2 : loadFile' file2 options2 st2 = (inr infos2, st2)).
  { pose proof (loadFile_cases file2 options2 st2) as Hcases.
    cbv zeta in Hcases. rewrite Hcases. rewrite <- Hbytes, Hkept, Hcached.
    unfold project. rewrite Hproj2. reflexivity. }
  exists bundle, infos2.
  split; [exact Hcached|]. split; [exact Hload2|]. split; [exact Hproj2|].
  split; [congruence|]. split; [|split; [congruence|split; [exact Hparses|]]].
  - apply List.Forall_forall. intros info Hin.
    apply (in_map AssetInfo.fileId) in Hin. rewrite Hids2 in Hin.
    apply in_map_iff in Hin. destruct Hin as (obj & Heq & _). congruence.
  - rewrite Hload2. reflexivity.
Qed.

(** ** Loading many files *)

Local Abbreviation loadFiles_try' :=
  (loadFiles_try calcMd5 loadAssetBundle String_toLowerCase spreadError).
Local Abbreviation loadFiles_loop' :=
  (loadFiles_loop calcMd5 loadAssetBundle String_toLowerCase spreadError).

Lemma decryptFile_state (file : File.t) (options : BundleLoadOptions.t)
  (st : State) :
  snd (decryptFile file options st) = st.
Proof.
  unfold decryptFile.
  destruct (_ && _); [|reflexivity].
  destruct (decryptAesCtrPbkdf1 _ _ _ _ _); reflexivity.
Qed.

Lemma decryptFile_any_state (file : File.t) (options : BundleLoadOptions.t)
  (st st' : State) :
  fst (decryptFile file options st) = fst (decryptFile file options st').
Proof.
  unfold decryptFile.
  destruct (_ && _); [|reflexivity].
  destruct (decryptAesCtrPbkdf1 _ _ _ _ _); reflexivity.
Qed.

(** A turn of the loop, [try] and [catch] together, is the bookkeeping
    of the file's outcome. *)
Lemma loadFiles_try_tally
  (n : nat) (options : BundleLoadOptions.t) (i : nat) (file : File.t)
  (acc : LoadFilesResult.t) (st : State) :
  snd (loadFiles_try' n options i file acc st) =
  snd (attempt' n options i file (length (LoadFilesResult.infos acc)) st)
  /\ match fst (loadFiles_try' n options i file acc st) with
     | inl thrown => loadFiles_catch file thrown
     | inr acc' => acc'
     end =
     tally' acc (file, fst (attempt' n options i file
                              (length (LoadFilesResult.infos acc)) st)).
Proof.
  unfold loadFiles_try, tally.
  destruct (attempt' n options i file (length (LoadFilesResult.infos acc)) st)
    as [[err|[|info infos]] st1]; cbn [fst snd]; [auto|auto|].
  destruct (spreadError (length (info :: infos))); auto.
Qed.

Lemma tally_infos_length
  (acc : LoadFilesResult.t) (o : File.t * (string + list AssetInfo.t)) :
  length (LoadFilesResult.infos (tally' acc o)) =
  (length (LoadFilesResult.infos acc) + length (pushed_of' (snd o)))%nat.
Proof.
  unfold tally, pushed_of. destruct (snd o) as [err|[|info infos]].
  - cbn. lia.
  - destruct (spreadError (length [])); cbn; lia.
  - destruct (spreadError (length (info :: infos)));
      cbn [LoadFilesResult.infos]; rewrite ?length_app; cbn [length]; lia.
Qed.

Lemma loadFiles_loop_outcomes (n : nat) (options : BundleLoadOptions.t)
  (files : list File.t) :
  forall (i : nat) (acc : LoadFilesResult.t) (st : State),
    loadFiles_loop' n options i files acc st =
    (inr (fold_left tally'
            (fst (outcomes' n options i files
                    (length (LoadFilesResult.infos acc)) st)) acc),
     snd (outcomes' n options i files (length (LoadFilesResult.infos acc)) st)).
Proof.
  induction files as [|file rest IH]; intros i acc st; [reflexivity|].
  cbn [loadFiles_loop outcomes].
  destruct (loadFiles_try_tally n options i file acc st) as [Hst Htally].
  destruct (attempt' n options i file (length (LoadFilesResult.infos acc)) st)
    as [outcome st1].
  cbn [fst snd] in Hst, Htally.
  destruct (loadFiles_try' n options i file acc st) as [[thrown|acc'] st1'];
    cbn [fst snd] in Hst, Htally; subst st1'; rewrite Htally, IH,
      tally_infos_length; cbn [snd];
    destruct (outcomes' n options (S i) rest
                (length (LoadFilesResult.infos acc)
                 + length (pushed_of' outcome)) st1) as [others st2];
    reflexivity.
Qed.

Lemma outcomes_files (n : nat) (options : BundleLoadOptions.t)
  (files : list File.t) :
  forall (i total : nat) (st : State),
    map fst (fst (outcomes' n options i files total st)) = files.
Proof.
  induction files as [|file rest IH]; intros i total st; [reflexivity|].
  cbn [outcomes].
  destruct (attempt' n options i file total st) as [outcome st1].
  specialize (IH (S i) (total + length (pushed_of' outcome))%nat st1).
  destruct (outcomes' n options (S i) rest
              (total + length (pushed_of' outcome)) st1) as [others st2].
  cbn in IH |- *. rewrite IH. reflexivity.
Qed.

Lemma fold_tally (os : list (File.t * (string + list AssetInfo.t))) :
  forall acc : LoadFilesResult.t,
    LoadFilesResult.errors (fold_left tally' os acc) =
      LoadFilesResult.errors acc ++ errors_of' os
    /\ LoadFilesResult.infos (fold_left tally' os acc) =
       LoadFilesResult.infos acc ++ concat (map (fun o => pushed_of' (snd o)) os)
    /\ LoadFilesResult.successNum (fold_left tally' os acc) =
       (LoadFilesResult.successNum acc + length (List.filter has_infos os))%nat.
Proof.
  induction os as [|o os IH]; intros acc.
  - cbn. rewrite !app_nil_r. auto.
  - cbn [fold_left]. destruct (IH (tally' acc o)) as (He & Hi & Hs).
    rewrite He, Hi, Hs. clear IH He Hi Hs.
    unfold tally, errors_of, error_of, has_infos, pushed_of.
    cbn [flat_map map concat List.filter].
    destruct (snd o) as [err|[|info infos]];
      [| |destruct (spreadError (length (info :: infos)))];
      cbn [length LoadFilesResult.errors LoadFilesResult.infos
           LoadFilesResult.successNum];
      try (destruct (spreadError 0));
      rewrite <- ?app_assoc; cbn [app]; rewrite ?app_nil_r;
      (split; [reflexivity|]); (split; [reflexivity|]); lia.
Qed.

Lemma attempt_effect
  (n : nat) (options : BundleLoadOptions.t) (i : nat) (file : File.t)
  (total : nat) (st : State) :
  extends st (snd (attempt' n options i file total st))
  /\ exists seg,
      segment_of n i file seg
      /\ trace (snd (attempt' n options i file total st)) = seg ++ trace st.
Proof.
  unfold attempt, bind, onProgress, modify. cbv beta.
  set (st0 := emit (EvProgress (File.name file) i n total) st).
  assert (H0 : extends st st0) by (apply extends_emit; reflexivity).
  pose proof (decryptFile_state file options st0) as Hdec.
  destruct (decryptFile file options st0) as [[err|file'] st1];
    cbn [snd] in Hdec |- *; subst st1.
  - split; [exact H0|]. exists [EvProgress (File.name file) i n total].
    split; [|reflexivity]. exists total, []. split; [reflexivity|auto].
  - split; [eapply extends_trans; [exact H0|apply loadFile_extends]|].
    pose proof (loadFile_cases file' options st0) as Hcases.
    cbv zeta in Hcases. rewrite Hcases. clear Hcases.
    destruct (bundleMap st0 !! calcMd5 (File.bytes file')) as [bundle|].
    + exists [EvProgress (File.name file) i n total].
      split; [|reflexivity]. exists total, []. split; [reflexivity|auto].
    + exists [EvParse (File.bytes file'); EvProgress (File.name file) i n total].
      split.
      * exists total, [EvParse (File.bytes file')]. split; [reflexivity|].
        right. eexists. reflexivity.
      * destruct (loadAssetBundle (File.bytes file') options); reflexivity.
Qed.

(** The trace of the loop is one segment per file, in the order of the
    files. *)
Lemma outcomes_trace (n : nat) (options : BundleLoadOptions.t)
  (files : list File.t) :
  forall (i total : nat) (st : State),
    extends st (snd (outcomes' n options i files total st))
    /\ exists segs : list (list Event),
        length segs = length files
        /\ trace (snd (outcomes' n options i files total st)) =
           concat (rev segs) ++ trace st
        /\ forall (k : nat) (file : File.t) (seg : list Event),
            files !! k = Some file -> segs !! k = Some seg ->
            segment_of n (i + k) file seg.
Proof.
  induction files as [|file rest IH]; intros i total st.
  - split; [apply extends_refl|]. exists []. split; [reflexivity|].
    split; [reflexivity|]. intros k f seg Hk. discriminate Hk.
  - cbn [outcomes].
    destruct (attempt_effect n options i file total st) as (Hext & seg0 & Hseg0 & Htr0).
    destruct (attempt' n options i file total st) as [outcome st1].
    cbn [snd] in Hext, Htr0.
    destruct (IH (S i) (total + length (pushed_of' outcome))%nat st1)
      as (Hext' & segs & Hlen & Htr & Hsegs).
    destruct (outcomes' n options (S i) rest
                (total + length (pushed_of' outcome)) st1) as [others st2].
    cbn [snd] in *. split; [eapply extends_trans; eassumption|].
    exists (seg0 :: segs). split; [cbn; lia|]. split.
    + rewrite Htr, Htr0. cbn [rev]. rewrite concat_app. cbn [concat].
      rewrite app_nil_r, app_assoc. reflexivity.
    + intros [|k] f seg Hf Hs; cbn in Hf, Hs.
      * injection Hf as <-. injection Hs as <-. rewrite Nat.add_0_r. exact Hseg0.
      * replace (i + S k)%nat with (S i + k)%nat by lia. eapply Hsegs; eassumption.
Qed.

Lemma attempt_inr
  (n : nat) (options : BundleLoadOptions.t) (i : nat) (file : File.t)
  (total : nat) (st st1 : State) (infos : list AssetInfo.t) :
  attempt' n options i file total st = (inr infos, st1) ->
  exists (file' : File.t) (bundle : Bundle.t),
    fst (decryptFile file options st) = inr file'
    /\ bundleMap st1 !! calcMd5 (File.bytes file') = Some bundle
    /\ length infos =
       length (List.filter (fun obj => showAssetType (AssetObject.type obj))
                           (Bundle.objects bundle)).
Proof.
  unfold attempt, bind, onProgress, modify. cbv beta.
  set (st0 := emit (EvProgress (File.name file) i n total) st).
  rewrite (decryptFile_any_state file options st st0).
  pose proof (decryptFile_state file options st0) as Hdec.
  destruct (decryptFile file options st0) as [[err|file'] st0'];
    cbn [snd fst] in Hdec |- *; subst st0'; [discriminate|].
  intros Hload. destruct (loadFile_inr _ _ _ _ _ Hload) as (bundle & Hb & Hproj & _).
  exists file', bundle. split; [reflexivity|]. split; [exact Hb|].
  unfold project in Hproj.
  destruct (Promise_all_assetInfoOf_inr _ _ _ _ _ _ Hproj) as (_ & Hids & _).
  apply (f_equal (@length _)) in Hids. rewrite !length_map in Hids. exact Hids.
Qed.

Lemma outcomes_inr (n : nat) (options : BundleLoadOptions.t)
  (files : list File.t) :
  forall (i total : nat) (st : State) (file : File.t) (infos : list AssetInfo.t),
    In (file, inr infos) (fst (outcomes' n options i files total st)) ->
    exists (file' : File.t) (bundle : Bundle.t),
      fst (decryptFile file options st) = inr file'
      /\ bundleMap (snd (outcomes' n options i files total st))
           !! calcMd5 (File.bytes file') = Some bundle
      /\ length infos =
         length (List.filter (fun obj => showAssetType (AssetObject.type obj))
                             (Bundle.objects bundle)).
Proof.
  induction files as [|f rest IH]; intros i total st file infos Hin;
    [destruct Hin|].
  cbn [outcomes] in Hin |- *.
  destruct (attempt' n options i f total st) as [outcome st1] eqn:Hatt.
  pose proof (outcomes_trace n options rest (S i)
                (total + length (pushed_of' outcome))%nat st1) as [Hext _].
  specialize (IH (S i) (total + length (pushed_of' outcome))%nat st1 file infos).
  destruct (outcomes' n options (S i) rest
              (total + length (pushed_of' outcome)) st1) as [others st2].
  cbn [fst snd] in *. destruct Hin as [Heq|Hin].
  - injection Heq as -> ->.
    destruct (attempt_inr _ _ _ _ _ _ _ _ Hatt) as (file' & bundle & Hd & Hb & Hl).
    exists file', bundle. split; [exact Hd|]. split; [|exact Hl].
    apply (ext_bundleMap _ _ Hext), Hb.
  - destruct (IH Hin) as (file' & bundle & Hd & Hb & Hl).
    exists file', bundle. split; [|auto].
    rewrite (decryptFile_any_state file options st st1). exact Hd.
Qed.

Lemma loadFiles_outcomes (files : list File.t) (options : BundleLoadOptions.t)
  (st : State) :
  loadFiles' files options st =
  (inr {| LoadFilesResult.errors :=
            errors_of' (fst (outcomes' (length files) options 0 files 0 st));
          LoadFilesResult.infos :=
            concat (map (fun o => pushed_of' (snd o))
                        (fst (outcomes' (length files) options 0 files 0 st)));
          LoadFilesResult.successNum :=
            length (List.filter has_infos
                      (fst (outcomes' (length files) options 0 files 0 st))) |},
   snd (outcomes' (length files) options 0 files 0 st)).
Proof.
  unfold loadFiles. rewrite loadFiles_loop_outcomes.
  cbn [LoadFilesResult.infos length]. f_equal. f_equal.
  set (os := fst (outcomes' (length files) options 0 files 0 st)).
  destruct (fold_tally os {| LoadFilesResult.errors := [];
                             LoadFilesResult.infos := [];
                             LoadFilesResult.successNum := 0 |})
    as (He & Hi & Hs).
  destruct (fold_left tally' os _) as [errs infos num]. cbn in He, Hi, Hs.
  subst. reflexivity.
Qed.

Lemma in_errors_of (os : list (File.t * (string + list AssetInfo.t)))
  (entry : FileLoadingError.t) :
  In entry (errors_of' os) <->
  exists (file : File.t) (outcome : string + list AssetInfo.t),
    In (file, outcome) os
    /\ FileLoadingError.name entry = File.name file
    /\ match outcome with
       | inl err => FileLoadingError.error entry = err
       | inr infos =>
           infos <> []
           /\ spreadError (length infos) = Some (FileLoadingError.error entry)
       end.
Proof.
  unfold errors_of. rewrite in_flat_map. split.
  - intros ([file outcome] & Hin & Hentry). exists file, outcome.
    split; [exact Hin|]. unfold error_of in Hentry. cbn [fst snd] in Hentry.
    destruct outcome as [err|[|info infos]].
    + destruct Hentry as [<-|[]]. auto.
    + destruct Hentry.
    + destruct (spreadError (length (info :: infos))) as [err|] eqn:Hs;
        [|destruct Hentry].
      destruct Hentry as [<-|[]]. cbn. split; [reflexivity|].
      split; [discriminate|reflexivity].
  - intros (file & outcome & Hin & Hname & Houtcome).
    exists (file, outcome). split; [exact Hin|].
    unfold error_of. cbn [fst snd]. destruct entry as [name error].
    cbn in Hname, Houtcome. subst name.
    destruct outcome as [err|[|info infos]].
    + subst err. left. reflexivity.
    + destruct Houtcome as [Hne _]. contradiction.
    + destruct Houtcome as [_ Hs]. rewrite Hs. left. reflexivity.
Qed.

(** C7. [loadFiles] always returns, never throws.  Every file is attempted,
    in the order given and each in the state its predecessor left: the
    trace grows by one segment per file, its progress report followed by
    at most one parser call.  Whatever throws in the turn of a file is
    recorded in [errors] with the name of the file and the error, and the
    files after it are attempted all the same: so for an attempt that
    throws, and so for infos the engine cannot spread into [push], which
    are dropped after the file has been counted.  [errors] has no other
    entries; [infos] holds, in file order, the infos that were pushed, and
    [successNum] counts the files that returned at least one info. *)
Theorem loadFiles_aggregates
  (files : list File.t) (options : BundleLoadOptions.t) (st : State) :
  let os := fst (outcomes' (length files) options 0 files 0 st) in
  exists (result : LoadFilesResult.t) (st' : State) (segs : list (list Event)),
    loadFiles' files options st = (inr result, st')
    /\ st' = snd (outcomes' (length files) options 0 files 0 st)
    /\ map fst os = files
    /\ LoadFilesResult.errors result = errors_of' os
    /\ (forall file err,
           In (file, inl err) os ->
           In {| FileLoadingError.name := File.name file;
                 FileLoadingError.error := err |}
              (LoadFilesResult.errors result))
    /\ (forall file infos err,
           In (file, inr infos) os ->
           infos <> [] ->
           spreadError (length infos) = Some err ->
           In {| FileLoadingError.name := File.name file;
                 FileLoadingError.error := err |}
              (LoadFilesResult.errors result))
    /\ (forall entry,
           In entry (LoadFilesResult.errors result) ->
           exists (file : File.t) (outcome : string + list AssetInfo.t),
             In (file, outcome) os
             /\ FileLoadingError.name entry = File.name file
             /\ match outcome with
                | inl err => FileLoadingError.error entry = err
                | inr infos =>
                    infos <> []
                    /\ spreadError (length infos)
                       = Some (FileLoadingError.error entry)
                end)
    /\ LoadFilesResult.infos result
       = concat (map (fun o => pushed_of' (snd o)) os)
    /\ LoadFilesResult.successNum result = length (List.filter has_infos os)
    /\ length segs = length files
    /\ trace st' = concat (rev segs) ++ trace st
    /\ (forall (k : nat) (file : File.t) (seg : list Event),
           files !! k = Some file -> segs !! k = Some seg ->
           segment_of (length files) k file seg).
Proof.
  intros os.
  destruct (outcomes_trace (length files) options files 0 0 st)
    as (_ & segs & Hlen & Htr & Hsegs).
  eexists _, _, segs. split; [apply loadFiles_outcomes|].
  split; [reflexivity|]. split; [apply outcomes_files|].
  split; [reflexivity|]. cbn [LoadFilesResult.errors].
  split; [|split; [|split]].
  - intros file err Hin. apply in_errors_of.
    exists file, (inl err). cbn. auto.
  - intros file infos err Hin Hne Hs. apply in_errors_of.
    exists file, (inr infos). cbn. auto.
  - intros entry Hin. apply in_errors_of, Hin.
  - split; [reflexivity|]. split; [reflexivity|].
    split; [exact Hlen|]. split; [exact Htr|]. exact Hsegs.
Qed.

Lemma outcomes_app (n : nat) (options : BundleLoadOptions.t)
  (before after : list File.t) :
  forall (i total : nat) (st : State),
    outcomes' n options i (before ++ after) total st =
    (fst (outcomes' n options i before total st)
     ++ fst (outcomes' n options (i + length before) after
               (total + length (concat (map (fun o => pushed_of' (snd o))
                                            (fst (outcomes' n options i before
                                                    total st)))))
               (snd (outcomes' n options i before total st))),
     snd (outcomes' n options (i + length before) after
            (total + length (concat (map (fun o => pushed_of' (snd o))
                                         (fst (outcomes' n options i before
                                                 total st)))))
            (snd (outcomes' n options i before total st)))).
Proof.
  induction before as [|file before IH]; intros i total st.
  - cbn. rewrite !Nat.add_0_r.
    destruct (outcomes' n options i after total st). reflexivity.
  - cbn [app outcomes length].
    destruct (attempt' n options i file total st) as [outcome st1].
    rewrite IH.
    destruct (outcomes' n options (S i) before
                (total + length (pushed_of' outcome)) st1) as [os1 st2].
    cbn [fst snd map concat]. rewrite length_app.
    replace (i + S (length before))%nat with (S i + length before)%nat by lia.
    rewrite Nat.add_assoc. reflexivity.
Qed.

(** A file whose content parses, or is cached, as a bundle with no
    displayable object is attempted without a throw and gives no info. *)
Lemma attempt_nothing
  (n : nat) (options : BundleLoadOptions.t) (i : nat) (file file' : File.t)
  (total : nat) (st : State) (bundle : Bundle.t) :
  fst (decryptFile file options st) = inr file' ->
  bundleMap st !! calcMd5 (File.bytes file') = Some bundle
  \/ (bundleMap st !! calcMd5 (File.bytes file') = None
      /\ loadAssetBundle (File.bytes file') options = inr bundle) ->
  List.filter (fun obj => showAssetType (AssetObject.type obj))
              (Bundle.objects bundle) = [] ->
  fst (attempt' n options i file total st) = inr [].
Proof.
  intros Hdec Hbundle Hnone.
  unfold attempt, bind, onProgress, modify. cbv beta.
  set (st0 := emit (EvProgress (File.name file) i n total) st).
  rewrite (decryptFile_any_state file options st st0) in Hdec.
  pose proof (decryptFile_state file options st0) as Hst.
  destruct (decryptFile file options st0) as [[err|f] st0'];
    cbn [fst snd] in Hdec, Hst; [discriminate Hdec|].
  injection Hdec as ->. subst st0'.
  pose proof (loadFile_cases file' options st0) as Hcases.
  cbv zeta in Hcases. rewrite Hcases.
  change (bundleMap st0) with (bundleMap st).
  destruct Hbundle as [->|[-> ->]]; cbn [fst]; unfold project;
    rewrite Hnone; reflexivity.
Qed.

(** C10. [successNum] is the number of files whose attempt returned at
    least one info.  A file whose attempt returned has as many infos as
    its bundle has objects of the four displayable types.  A file whose
    content is cached or parses without error as a bundle with no such
    object is attempted without a throw and returns no info: it is not
    counted in [successNum], has no entry in [errors] and adds nothing to
    [infos], which are those of the files before and after it. *)
Theorem loadFiles_successNum
  (files : list File.t) (options : BundleLoadOptions.t) (st : State) :
  let os := fst (outcomes' (length files) options 0 files 0 st) in
  exists (result : LoadFilesResult.t) (st' : State),
    loadFiles' files options st = (inr result, st')
    /\ map fst os = files
    /\ LoadFilesResult.successNum result = length (List.filter has_infos os)
    /\ LoadFilesResult.errors result = errors_of' os
    /\ LoadFilesResult.infos result
       = concat (map (fun o => pushed_of' (snd o)) os)
    /\ (forall (file : File.t) (infos : list AssetInfo.t),
           In (file, inr infos) os ->
           exists (file' : File.t) (bundle : Bundle.t),
             fst (decryptFile file options st) = inr file'
             /\ bundleMap st' !! calcMd5 (File.bytes file') = Some bundle
             /\ length infos =
                length (List.filter
                          (fun obj => showAssetType (AssetObject.type obj))
                          (Bundle.objects bundle))
             /\ (has_infos (file, inr infos) = true <-> infos <> []))
    /\ (forall (before after : list File.t) (file file' : File.t)
               (bundle : Bundle.t),
           files = before ++ file :: after ->
           let stk := snd (outcomes' (length files) options 0 before 0 st) in
           fst (decryptFile file options stk) = inr file' ->
           bundleMap stk !! calcMd5 (File.bytes file') = Some bundle
           \/ (bundleMap stk !! calcMd5 (File.bytes file') = None
               /\ loadAssetBundle (File.bytes file') options = inr bundle) ->
           List.filter (fun obj => showAssetType (AssetObject.type obj))
                       (Bundle.objects bundle) = [] ->
           exists os1 os2 : list (File.t * (string + list AssetInfo.t)),
             os = os1 ++ (file, inr []) :: os2
             /\ map fst os1 = before
             /\ map fst os2 = after
             /\ LoadFilesResult.successNum result =
                (length (List.filter has_infos os1)
                 + length (List.filter has_infos os2))%nat
             /\ LoadFilesResult.errors result = errors_of' os1 ++ errors_of' os2
             /\ LoadFilesResult.infos result =
                concat (map (fun o => pushed_of' (snd o)) os1)
                ++ concat (map (fun o => pushed_of' (snd o)) os2)).
Proof.
  intros os. eexists _, _. split; [apply loadFiles_outcomes|].
  split; [apply outcomes_files|]. do 3 (split; [reflexivity|]).
  cbn [LoadFilesResult.successNum LoadFilesResult.errors LoadFilesResult.infos].
  split.
  - intros file infos Hin.
    destruct (outcomes_inr _ _ _ _ _ _ _ _ Hin) as (file' & bundle & Hd & Hb & Hl).
    exists file', bundle. split; [exact Hd|]. split; [exact Hb|].
    split; [exact Hl|]. unfold has_infos. cbn [snd].
    destruct infos; split; congruence.
  - intros before after file file' bundle Hfiles.
    set (stk := snd (outcomes' (length files) options 0 before 0 st)).
    intros Hdec Hbundle Hnone.
    assert (Hos : outcomes' (length files) options 0 files 0 st =
                  outcomes' (length files) options 0 (before ++ file :: after)
                            0 st) by (rewrite <- Hfiles; reflexivity).
    subst os. rewrite Hos.
    rewrite (outcomes_app (length files) options before (file :: after) 0 0 st).
    cbn [fst snd]. fold stk.
    set (os1 := fst (outcomes' (length files) options 0 before 0 st)).
    set (total := (0 + length (concat (map (fun o => pushed_of' (snd o)) os1)))%nat).
    cbn [outcomes].
    pose proof (attempt_nothing (length files) options (0 + length before) file
                  file' total stk bundle Hdec Hbundle Hnone) as Hatt.
    destruct (attempt' (length files) options (0 + length before) file total stk)
      as [outcome st1].
    cbn [fst] in Hatt. subst outcome.
    pose proof (outcomes_files (length files) options after
                  (S (0 + length before))
                  (total + length (pushed_of' (inr [])))%nat st1) as Hafter.
    destruct (outcomes' (length files) options (S (0 + length before)) after
                (total + length (pushed_of' (inr []))) st1) as [os2 st2].
    cbn [fst snd] in Hafter |- *.
    exists os1, os2. split; [reflexivity|].
    split; [apply outcomes_files|]. split; [exact Hafter|].
    unfold errors_of. rewrite List.filter_app, length_app, flat_map_app, map_app,
      concat_app.
    cbn [List.filter has_infos snd flat_map error_of map concat app].
    unfold pushed_of at 2. destruct (spreadError (length [])); auto.
Qed.

(** ** The image cache *)

(** What a call other than [clear] can do to the caches: nothing beyond
    [extends], or publish one new pending promise under a key that had
    none. *)
Inductive call_effect (st st' : State) : Prop :=
| effect_quiet :
    extends st st' -> call_effect st st'
| effect_publish (key : string) (job : DecodeJob) :
    imageMap st !! key = None ->
    imageMap st' = <[key := length (promises st)]> (imageMap st) ->
    promises st' =
      promises st ++ [{| Promise.state := Pending job;
                         Promise.revokeWhenSettled := false |}] ->
    trace st' = EvDecode key :: trace st ->
    bundleMap st' = bundleMap st ->
    call_effect st st'.

Lemma loadImage_effect (fileId : string) (pathId : Z) (st : State) :
  call_effect st (snd (loadImage fileId pathId st)).
Proof.
  unfold loadImage.
  destruct (imageMap st !! getAssetKey fileId pathId) as [p|] eqn:Hkey;
    [apply effect_quiet, extends_refl|].
  destruct (getAssetObj st fileId pathId) as [obj|];
    [|apply effect_quiet, extends_refl].
  destruct (_ && _); [apply effect_quiet, extends_refl|].
  eapply effect_publish; [exact Hkey|reflexivity..].
Qed.

Lemma getImageUrl_state (fileId : string) (pathId : Z) (st : State) :
  snd (getImageUrl fileId pathId st) = snd (loadImage fileId pathId st).
Proof.
  unfold getImageUrl. destruct (loadImage fileId pathId st). reflexivity.
Qed.

Lemma exportAsset_effect (fileId : string) (pathId : Z) (st : State) :
  call_effect st (snd (exportAsset fileId pathId st)).
Proof.
  unfold exportAsset.
  destruct (getAssetObj st fileId pathId) as [obj|];
    [|apply effect_quiet, extends_refl].
  destruct (negb _); [apply effect_quiet, extends_refl|].
  pose proof (loadImage_effect fileId pathId st) as Himg.
  destruct (AssetObject.type obj); try (apply effect_quiet, extends_refl);
    destruct (loadImage fileId pathId st); exact Himg.
Qed.

Lemma loadFiles_extends (files : list File.t) (options : BundleLoadOptions.t)
  (st : State) :
  extends st (snd (loadFiles' files options st)).
Proof.
  rewrite loadFiles_outcomes. cbn [snd]. apply outcomes_trace.
Qed.

Lemma prepare_image_extends
  (key : string) (obj : AssetObject.t) (acc : Prepared.t) (st : State) :
  extends st (snd (prepare_image key obj acc st)).
Proof.
  unfold prepare_image.
  destruct (match imageMap st !! key with
            | Some image =>
                match settled_value st image with
                | Some (Some img) => Some (ImageResult.blob img)
                | _ => None
                end
            | None => None
            end); [apply extends_refl|].
  destruct (AssetObject.getImageBitmap obj); apply extends_emit; reflexivity.
Qed.

Lemma exportAssets_prepare_extends (params : list ExportParam.t) (st : State) :
  extends st (snd (exportAssets_prepare params st)).
Proof.
  unfold exportAssets_prepare.
  generalize (List.filter (fun data => isImageAssetObj (ExportEntry.obj data))
                (map snd (exportAssets_objMap st params))) as entries.
  generalize ({| Prepared.imgData := []; Prepared.imgBitmaps := [] |}) as acc.
  assert (Hgen : forall entries acc st',
             extends st st' ->
             extends st
               (snd (fold_left
                       (fun '(acc, st) data =>
                          match ExportEntry.obj data with
                          | Some obj => prepare_image (ExportEntry.key data) obj acc st
                          | None => (acc, st)
                          end) entries (acc, st')))).
  { induction entries as [|data entries IH]; intros acc st' Hext; [exact Hext|].
    cbn [fold_left]. destruct (ExportEntry.obj data) as [obj|]; [|apply IH, Hext].
    pose proof (prepare_image_extends (ExportEntry.key data) obj acc st') as Hstep.
    destruct (prepare_image (ExportEntry.key data) obj acc st') as [acc' st''].
    apply IH. eapply extends_trans; eassumption. }
  intros acc entries. apply Hgen, extends_refl.
Qed.

Definition is_settled_of (p : PromiseId) (r : Request) : bool :=
  match r with
  | Settled q _ => (q =? p)%nat
  | _ => false
  end.

Definition is_settled (r : Request) : bool :=
  match r with
  | Settled _ _ => true
  | _ => false
  end.

(** [loadFile] is its two stretches, one after the other. *)
Lemma loadFile_stretches (file : File.t) (options : BundleLoadOptions.t)
  (st : State) :
  loadFile' file options st =
  (cached <- loadFile_lookup' file options ;;
   loadFile_resume' file options cached) st.
Proof.
  unfold loadFile, loadFile_lookup, loadFile_resume, call_loadAssetBundle.
  unfold bind, gets, modify, ret, throw. cbv beta.
  destruct (bundleMap st !! calcMd5 (File.bytes file)) as [bundle|] eqn:Hcached.
  - rewrite ?Hcached. reflexivity.
  - cbn [bundleMap emit]. rewrite ?Hcached.
    destruct (loadAssetBundle (File.bytes file) options); reflexivity.
Qed.

Lemma loadFile_lookup_state (file : File.t) (options : BundleLoadOptions.t)
  (st : State) :
  snd (loadFile_lookup' file options st) =
  match bundleMap st !! calcMd5 (File.bytes file) with
  | Some _ => st
  | None => emit (EvParse (File.bytes file)) st
  end.
Proof.
  unfold loadFile_lookup, bind, gets, modify, ret. cbv beta.
  destruct (bundleMap st !! calcMd5 (File.bytes file)); reflexivity.
Qed.

Lemma loadFile_resume_state (file : File.t) (options : BundleLoadOptions.t)
  (st : State) :
  snd (loadFile_resume' file options None st) =
  match loadAssetBundle (File.bytes file) options with
  | inl _ => st
  | inr bundle =>
      match bundleMap st !! calcMd5 (File.bytes file) with
      | Some _ => st
      | None =>
          set_bundleMap (fun m => <[calcMd5 (File.bytes file) := bundle]> m) st
      end
  end.
Proof.
  unfold loadFile_resume, bind, gets, modify, ret, throw. cbv beta.
  destruct (loadAssetBundle (File.bytes file) options) as [err|bundle];
    [reflexivity|].
  destruct (bundleMap st !! calcMd5 (File.bytes file)); cbv beta iota;
    apply Promise_all_state; intros a s; apply assetInfoOf_state.
Qed.

(** A stretch of a load in flight leaves the image cache alone and only
    adds to the bundle cache. *)
Lemma stretch_extends (r : Request) (st : State) :
  match r with
  | LoadReport _ _ _ _ | LoadLookup _ _ | LoadParsed _ _ => True
  | _ => False
  end ->
  extends st (step' st r).
Proof.
  destruct r as [| | | | | |name i n total|file options|file options];
    cbn [step]; intros H; try destruct H.
  - apply extends_emit. reflexivity.
  - rewrite loadFile_lookup_state.
    destruct (bundleMap st !! calcMd5 (File.bytes file));
      [apply extends_refl|apply extends_emit; reflexivity].
  - rewrite loadFile_resume_state.
    destruct (loadAssetBundle (File.bytes file) options) as [err|bundle];
      [apply extends_refl|].
    destruct (bundleMap st !! calcMd5 (File.bytes file)) eqn:Hcached;
      [apply extends_refl|apply extends_insert_bundle, Hcached].
Qed.

Lemma step_call_effect (r : Request) (st : State) :
  is_clear r = false -> is_settled r = false ->
  call_effect st (step' st r).
Proof.
  destruct r as [files options|fileId pathId|fileId pathId|params|p c|
                 |name i n total|file options|file options];
    cbn [is_clear is_settled]; intros Hc Hs; try discriminate;
    try (apply effect_quiet, stretch_extends; exact I); cbn [step].
  - apply effect_quiet, loadFiles_extends.
  - rewrite getImageUrl_state. apply loadImage_effect.
  - apply exportAsset_effect.
  - apply effect_quiet, exportAssets_prepare_extends.
Qed.

(** What [settle] does: only promise [p] changes, and only from pending
    to fulfilled. *)
Lemma settle_effect (p : PromiseId) (converted : option (list byte)) (st : State) :
  imageMap (settle p converted st) = imageMap st
  /\ bundleMap (settle p converted st) = bundleMap st
  /\ trace (settle p converted st) = trace st
  /\ length (promises (settle p converted st)) = length (promises st)
  /\ (forall q, q <> p ->
                promises (settle p converted st) !! q = promises st !! q)
  /\ (forall v, settled_value st p = Some v ->
                settled_value (settle p converted st) p = Some v)
  /\ (forall pr job,
         promises st !! p = Some pr -> Promise.state pr = Pending job ->
         settled_value (settle p converted st) p =
         Some (match getAssetObjPNG_finish job converted with
               | None => None
               | Some buffer =>
                   Some {| ImageResult.url := "blob:" +:+ pretty (urls st);
                           ImageResult.blob := buffer |}
               end)).
Proof.
  unfold settled_value.
  destruct (promises st !! p) as [pr|] eqn:Hp.
  2:{ unfold settle. rewrite Hp. rewrite Hp.
      repeat split; auto; intros; discriminate. }
  pose proof (lookup_lt_Some _ _ _ Hp) as Hlt.
  destruct (Promise.state pr) as [job|v0] eqn:Hstate.
  2:{ unfold settle. rewrite Hp, Hstate. rewrite Hp, Hstate.
      repeat split; auto. intros pr' job' [= <-] Hj. congruence. }
  set (v := match getAssetObjPNG_finish job converted with
            | None => None
            | Some buffer =>
                Some {| ImageResult.url := "blob:" +:+ pretty (urls st);
                        ImageResult.blob := buffer |}
            end).
  assert (Hsettle :
            imageMap (settle p converted st) = imageMap st
            /\ bundleMap (settle p converted st) = bundleMap st
            /\ trace (settle p converted st) = trace st
            /\ promises (settle p converted st) =
               <[p := {| Promise.state := Fulfilled v;
                         Promise.revokeWhenSettled := Promise.revokeWhenSettled pr |}]>
                 (promises st)).
  { unfold settle, v. rewrite Hp, Hstate.
    destruct (getAssetObjPNG_finish job converted) as [buffer|];
      [destruct (Promise.revokeWhenSettled pr)|]; repeat split; reflexivity. }
  destruct Hsettle as (Hmap & Hb & Htr & Hps).
  rewrite Hps, length_insert.
  split; [exact Hmap|]. split; [exact Hb|]. split; [exact Htr|].
  split; [reflexivity|]. split; [|split].
  - intros q Hq. apply list_lookup_insert_ne. congruence.
  - intros v' Hv'. discriminate Hv'.
  - intros pr' job' [= <-] Hj. rewrite list_lookup_insert_eq by exact Hlt.
    cbn [Promise.state]. subst v. assert (job = job') by congruence. subst. reflexivity.
Qed.

Lemma since_clear_quiet (new tr : list Event) :
  forallb quiet_event new = true ->
  since_clear (new ++ tr) = new ++ since_clear tr.
Proof.
  induction new as [|e new IH]; intros Hq; [reflexivity|].
  cbn in Hq. apply andb_prop in Hq as [He Hq].
  destruct e; try discriminate He; cbn; rewrite IH by exact Hq; reflexivity.
Qed.

Lemma filter_decode_quiet (key : string) (new : list Event) :
  forallb quiet_event new = true ->
  List.filter (is_decode key) new = [].
Proof.
  induction new as [|e new IH]; intros Hq; [reflexivity|].
  cbn in Hq. apply andb_prop in Hq as [He Hq].
  destruct e; try discriminate He; cbn; apply IH, Hq.
Qed.

Lemma decodes_extends (key : string) (st st' : State) :
  extends st st' -> decodes key st' = decodes key st.
Proof.
  intros [_ _ _ _ _ (new & Htr & Hq)]. unfold decodes.
  rewrite Htr, since_clear_quiet by exact Hq.
  rewrite List.filter_app, filter_decode_quiet by exact Hq. reflexivity.
Qed.

(** The invariant of the image cache: since the last clear, the decode of
    a key has been started once if the key is published and not at all
    otherwise, and a published promise is an allocated one. *)
Record cache_inv (st : State) : Prop := {
  inv_decodes :
    forall key, decodes key st = match imageMap st !! key with
                                 | Some _ => 1%nat
                                 | None => 0%nat
                                 end;
  inv_allocated :
    forall key p, imageMap st !! key = Some p -> (p < length (promises st))%nat
}.

Lemma cache_inv_initial : cache_inv initial.
Proof.
  split.
  - intros key. reflexivity.
  - intros key p H. cbn in H. rewrite lookup_empty in H. discriminate H.
Qed.

Lemma cache_inv_call (st st' : State) :
  call_effect st st' -> cache_inv st -> cache_inv st'.
Proof.
  intros Heff [Hdec Halloc]. destruct Heff as [Hext|key job Hnone Hmap Hps Htr Hb].
  - split.
    + intros key. rewrite (decodes_extends key st st' Hext), (ext_imageMap _ _ Hext).
      apply Hdec.
    + intros key p. rewrite (ext_imageMap _ _ Hext), (ext_promises _ _ Hext).
      apply Halloc.
  - split.
    + intros k. unfold decodes. rewrite Htr, Hmap.
      cbn [since_clear List.filter is_decode].
      pose proof (Hdec k) as Hk. unfold decodes in Hk.
      destruct (String.eqb_spec key k) as [->|Hne].
      * rewrite lookup_insert_eq. cbn [length]. rewrite Hk, Hnone. reflexivity.
      * rewrite lookup_insert_ne by exact Hne. exact Hk.
    + intros k p. rewrite Hmap, Hps, length_app. cbn [length].
      destruct (decide (key = k)) as [->|Hne].
      * rewrite lookup_insert_eq. intros [= <-]. lia.
      * rewrite lookup_insert_ne by exact Hne. intros Hk.
        specialize (Halloc k p Hk). lia.
Qed.

Lemma cache_inv_step (r : Request) (st : State) :
  cache_inv st -> cache_inv (step' st r).
Proof.
  intros Hinv. destruct (is_clear r) eqn:Hc; [|destruct (is_settled r) eqn:Hs].
  - destruct r; try discriminate Hc. cbn [step]. split.
    + intros key. reflexivity.
    + intros key p H. cbn in H. rewrite lookup_empty in H. discriminate H.
  - destruct r as [| | | |p c| | | |]; try discriminate Hs. cbn [step].
    destruct (settle_effect p c st) as (Hmap & _ & Htr & Hlen & _).
    destruct Hinv as [Hdec Halloc]. split.
    + intros key. unfold decodes. rewrite Htr, Hmap. apply Hdec.
    + intros key q. rewrite Hmap, Hlen. apply Halloc.
  - eapply cache_inv_call; [apply step_call_effect; assumption|exact Hinv].
Qed.

Lemma cache_inv_run (rs : list Request) :
  forall st, cache_inv st -> cache_inv (run' st rs).
Proof.
  induction rs as [|r rs IH]; intros st Hinv; [exact Hinv|].
  cbn [run fold_left]. apply IH, cache_inv_step, Hinv.
Qed.

Lemma published_step (r : Request) (st : State) (key : string) (p : PromiseId) :
  is_clear r = false ->
  imageMap st !! key = Some p ->
  imageMap (step' st r) !! key = Some p.
Proof.
  intros Hc Hkey. destruct (is_settled r) eqn:Hs.
  - destruct r as [| | | |q c| | | |]; try discriminate Hs. cbn [step].
    destruct (settle_effect q c st) as (Hmap & _). rewrite Hmap. exact Hkey.
  - destruct (step_call_effect r st Hc Hs) as [Hext|k job Hnone Hmap _ _ _].
    + rewrite (ext_imageMap _ _ Hext). exact Hkey.
    + rewrite Hmap, lookup_insert_ne; [exact Hkey|congruence].
Qed.

Lemma published_run (rs : list Request) (key : string) (p : PromiseId) :
  forall st,
    forallb (fun r => negb (is_clear r)) rs = true ->
    imageMap st !! key = Some p ->
    imageMap (run' st rs) !! key = Some p.
Proof.
  induction rs as [|r rs IH]; intros st Hrs Hkey; [exact Hkey|].
  cbn in Hrs. apply andb_prop in Hrs as [Hr Hrs].
  cbn [run fold_left]. apply IH; [exact Hrs|].
  apply published_step; [|exact Hkey]. destruct (is_clear r); [discriminate|reflexivity].
Qed.

Lemma settled_step (r : Request) (st : State) (q : PromiseId)
  (v : option ImageResult.t) :
  is_clear r = false ->
  settled_value st q = Some v ->
  settled_value (step' st r) q = Some v.
Proof.
  intros Hc Hv. destruct (is_settled r) eqn:Hs.
  - destruct r as [| | | |p c| | | |]; try discriminate Hs. cbn [step].
    destruct (settle_effect p c st) as (_ & _ & _ & _ & Hother & Hsame & _).
    destruct (decide (q = p)) as [->|Hne]; [apply Hsame, Hv|].
    unfold settled_value in *. rewrite (Hother q Hne). exact Hv.
  - unfold settled_value in *.
    destruct (promises st !! q) as [pr|] eqn:Hq; [|discriminate Hv].
    destruct (step_call_effect r st Hc Hs) as [Hext|k job _ _ Hps _ _].
    + rewrite (ext_promises _ _ Hext), Hq. exact Hv.
    + rewrite Hps, lookup_app_l by (eapply lookup_lt_Some; exact Hq).
      rewrite Hq. exact Hv.
Qed.

Lemma settled_run (rs : list Request) (q : PromiseId) (v : option ImageResult.t) :
  forall st,
    forallb (fun r => negb (is_clear r)) rs = true ->
    settled_value st q = Some v ->
    settled_value (run' st rs) q = Some v.
Proof.
  induction rs as [|r rs IH]; intros st Hrs Hv; [exact Hv|].
  cbn in Hrs. apply andb_prop in Hrs as [Hr Hrs].
  cbn [run fold_left]. apply IH; [exact Hrs|].
  apply settled_step; [|exact Hv]. destruct (is_clear r); [discriminate|reflexivity].
Qed.

Definition pending_with (st : State) (p : PromiseId) (job : DecodeJob) : Prop :=
  exists pr, promises st !! p = Some pr /\ Promise.state pr = Pending job.

Lemma pending_step (r : Request) (st : State) (p : PromiseId) (job : DecodeJob) :
  is_clear r = false -> is_settled_of p r = false ->
  pending_with st p job -> pending_with (step' st r) p job.
Proof.
  intros Hc Hp (pr & Hpr & Hjob). destruct (is_settled r) eqn:Hs.
  - destruct r as [| | | |q c| | | |]; try discriminate Hs. cbn [step].
    cbn in Hp. apply Nat.eqb_neq in Hp.
    destruct (settle_effect q c st) as (_ & _ & _ & _ & Hother & _).
    exists pr. rewrite (Hother p) by congruence. auto.
  - destruct (step_call_effect r st Hc Hs) as [Hext|k job' _ _ Hps _ _].
    + exists pr. rewrite (ext_promises _ _ Hext). auto.
    + exists pr. rewrite Hps, lookup_app_l by (eapply lookup_lt_Some; exact Hpr).
      auto.
Qed.

Lemma pending_run (rs : list Request) (p : PromiseId) (job : DecodeJob) :
  forall st,
    forallb (fun r => negb (is_clear r) && negb (is_settled_of p r)) rs = true ->
    pending_with st p job -> pending_with (run' st rs) p job.
Proof.
  induction rs as [|r rs IH]; intros st Hrs Hpend; [exact Hpend|].
  cbn in Hrs. apply andb_prop in Hrs as [Hr Hrs]. apply andb_prop in Hr as [Hc Hp].
  cbn [run fold_left]. apply IH; [exact Hrs|].
  apply pending_step; [| |exact Hpend].
  - destruct (is_clear r); [discriminate|reflexivity].
  - destruct (is_settled_of p r); [discriminate|reflexivity].
Qed.

Lemma forallb_weaken {A} (f g : A -> bool) (l : list A) :
  (forall a, f a = true -> g a = true) ->
  forallb f l = true -> forallb g l = true.
Proof.
  intros Hfg. induction l as [|a l IH]; [reflexivity|].
  cbn. intros H. apply andb_prop in H as [Ha Hl].
  rewrite (Hfg a Ha), (IH Hl). reflexivity.
Qed.

(** A hit of [loadImage]: the published promise is handed back and nothing
    changes. *)
Lemma loadImage_hit (fileId : string) (pathId : Z) (st : State) (p : PromiseId) :
  imageMap st !! getAssetKey fileId pathId = Some p ->
  loadImage fileId pathId st = (Later p (fun v => v), st).
Proof. intros Hkey. unfold loadImage. rewrite Hkey. reflexivity. Qed.

(** A miss of [loadImage] that starts a decode. *)
Lemma loadImage_miss (fileId : string) (pathId : Z) (st : State)
  (p : PromiseId) (k : option ImageResult.t -> option ImageResult.t) :
  imageMap st !! getAssetKey fileId pathId = None ->
  fst (loadImage fileId pathId st) = Later p k ->
  exists obj,
    getAssetObj st fileId pathId = Some obj
    /\ isImageAssetObj (Some obj) = true
    /\ p = length (promises st)
    /\ loadImage fileId pathId st =
       (Later p (fun v => v),
        set_imageMap (fun m => <[getAssetKey fileId pathId := p]> m)
          (set_promises
             (fun ps => ps ++ [{| Promise.state := Pending (getAssetObjPNG_start obj);
                                  Promise.revokeWhenSettled := false |}])
             (emit (EvDecode (getAssetKey fileId pathId)) st))).
Proof.
  intros Hkey. unfold loadImage. rewrite Hkey.
  destruct (getAssetObj st fileId pathId) as [obj|]; [|discriminate].
  destruct (AssetType_eqb (AssetObject.type obj) Sprite) eqn:Hsprite,
           (AssetType_eqb (AssetObject.type obj) Texture2D) eqn:Htexture;
    cbn [negb andb orb fst]; try discriminate;
    intros [= <- _]; exists obj; unfold isImageAssetObj;
    rewrite Hsprite, Htexture; auto.
Qed.

(** C4, as it holds.  From any history of the worker, take a call of
    [loadImage] that hands back a promise, then any requests that do not
    clear the cache (exports among them), then a second call for the same
    key.  The key is published right after the first call, and when that
    call started the decode the promise is still unsettled then; the second
    call hands back the same promise and changes nothing; and [loadImage]
    has started the decode of the key exactly once since the last clear,
    after the first call as after the second.  For no key has [loadImage]
    started more than one decode since the last clear. *)
Theorem loadImage_single_decode
  (before between : list Request) (fileId : string) (pathId : Z) :
  forallb (fun r => negb (is_clear r)) between = true ->
  let key := getAssetKey fileId pathId in
  let st0 := run' initial before in
  let first := fst (loadImage fileId pathId st0) in
  let st1 := snd (loadImage fileId pathId st0) in
  let st2 := run' st1 between in
  let second := fst (loadImage fileId pathId st2) in
  let st3 := snd (loadImage fileId pathId st2) in
  (forall key', (decodes key' st3 <= 1)%nat)
  /\ forall (p : PromiseId) (k : option ImageResult.t -> option ImageResult.t),
      first = Later p k ->
      imageMap st1 !! key = Some p
      /\ (imageMap st0 !! key = None ->
          decodes key st0 = 0%nat /\ isFulfilled st1 p = false)
      /\ decodes key st1 = 1%nat
      /\ second = first
      /\ st3 = st2
      /\ imageMap st3 !! key = Some p
      /\ decodes key st3 = 1%nat.
Proof.
  intros Hbetween key st0 first st1 st2 second st3.
  assert (Hinv0 : cache_inv st0) by (apply cache_inv_run, cache_inv_initial).
  assert (Hinv1 : cache_inv st1).
  { eapply cache_inv_call; [apply loadImage_effect|exact Hinv0]. }
  assert (Hinv2 : cache_inv st2) by (apply cache_inv_run, Hinv1).
  assert (Hinv3 : cache_inv st3).
  { eapply cache_inv_call; [apply loadImage_effect|exact Hinv2]. }
  split.
  { intros key'. rewrite (inv_decodes _ Hinv3 key').
    destruct (imageMap st3 !! key'); lia. }
  intros p k Hfirst.
  assert (Hpub : imageMap st1 !! key = Some p
                 /\ first = Later p (fun v => v)
                 /\ (imageMap st0 !! key = None -> isFulfilled st1 p = false)).
  { destruct (imageMap st0 !! key) as [p0|] eqn:Hkey0.
    - pose proof (loadImage_hit fileId pathId st0 p0 Hkey0) as Hhit.
      subst first st1. rewrite Hhit in Hfirst |- *. cbn [fst snd] in *.
      injection Hfirst as <- _. split; [exact Hkey0|]. split; [reflexivity|].
      intros H. discriminate H.
    - destruct (loadImage_miss fileId pathId st0 p k Hkey0 Hfirst)
        as (obj & _ & _ & Hp & Hmiss).
      subst first st1. rewrite Hmiss. cbn [fst snd imageMap set_imageMap].
      split; [apply lookup_insert_eq|]. split; [reflexivity|].
      intros _. unfold isFulfilled, settled_value.
      cbn [promises set_imageMap set_promises emit].
      rewrite Hp, list_lookup_middle by reflexivity. reflexivity. }
  destruct Hpub as (Hkey1 & Hfirst' & Hpending).
  pose proof (published_run between key p st1 Hbetween Hkey1) as Hkey2.
  fold st2 in Hkey2.
  pose proof (loadImage_hit fileId pathId st2 p Hkey2) as Hhit.
  subst second st3. rewrite Hhit. cbn [fst snd].
  split; [exact Hkey1|]. split; [|split; [|split; [|split; [|split]]]].
  - intros Hnone. split; [|apply Hpending, Hnone].
    rewrite (inv_decodes _ Hinv0 key). fold key in Hnone. rewrite Hnone. reflexivity.
  - rewrite (inv_decodes _ Hinv1 key), Hkey1. reflexivity.
  - symmetry. exact Hfirst'.
  - reflexivity.
  - exact Hkey2.
  - rewrite (inv_decodes _ Hinv2 key), Hkey2. reflexivity.
Qed.

Lemma loadImage_start (fileId : string) (pathId : Z) (st : State)
  (obj : AssetObject.t) :
  imageMap st !! getAssetKey fileId pathId = None ->
  getAssetObj st fileId pathId = Some obj ->
  isImageAssetObj (Some obj) = true ->
  loadImage fileId pathId st =
  (Later (length (promises st)) (fun v => v),
   set_imageMap (fun m => <[getAssetKey fileId pathId := length (promises st)]> m)
     (set_promises
        (fun ps => ps ++ [{| Promise.state := Pending (getAssetObjPNG_start obj);
                             Promise.revokeWhenSettled := false |}])
        (emit (EvDecode (getAssetKey fileId pathId)) st))).
Proof.
  intros Hkey Hobj Himg. unfold loadImage. rewrite Hkey, Hobj.
  unfold isImageAssetObj in Himg.
  destruct (AssetType_eqb (AssetObject.type obj) Sprite),
           (AssetType_eqb (AssetObject.type obj) Texture2D);
    cbn in Himg |- *; try discriminate Himg; reflexivity.
Qed.

(** C6. Take an image object whose key is not published, a first
    [getImageUrl] for it, any requests that neither clear the cache nor
    settle this decode, then the end of the decode where the object had no
    bitmap or the converter reported no buffer, then any requests that do
    not clear the cache, and a second [getImageUrl].  The entry is
    published and unsettled after the first call; the end of the decode
    fulfils it with the undefined sentinel; the first call then resolves
    to no URL, which the store records as [null]; the second call resolves
    to the same, changes nothing and starts no decode: the decode of the
    key has been started once. *)
Theorem decode_failure_cached
  (before during between : list Request) (fileId : string) (pathId : Z)
  (obj : AssetObject.t) (converted : option (list byte)) :
  let key := getAssetKey fileId pathId in
  let st0 := run' initial before in
  let p := length (promises st0) in
  imageMap st0 !! key = None ->
  getAssetObj st0 fileId pathId = Some obj ->
  isImageAssetObj (Some obj) = true ->
  AssetObject.getImageBitmap obj = None \/ converted = None ->
  forallb (fun r => negb (is_clear r) && negb (is_settled_of p r)) during = true ->
  forallb (fun r => negb (is_clear r)) between = true ->
  let first := fst (getImageUrl fileId pathId st0) in
  let st1 := snd (getImageUrl fileId pathId st0) in
  let st2 := settle p converted (run' st1 during) in
  let st3 := run' st2 between in
  let again := fst (getImageUrl fileId pathId st3) in
  let st4 := snd (getImageUrl fileId pathId st3) in
  imageMap st1 !! key = Some p
  /\ isFulfilled st1 p = false
  /\ settled_value st2 p = Some None
  /\ await st2 first = Some None
  /\ store_loadImage_data <$> await st2 first = Some DataNull
  /\ await st4 again = Some None
  /\ store_loadImage_data <$> await st4 again = Some DataNull
  /\ st4 = st3
  /\ decodes key st4 = 1%nat.
Proof.
  intros key st0 p Hkey Hobj Himg Hfail Hduring Hbetween first st1 st2 st3 again st4.
  pose proof (loadImage_start fileId pathId st0 obj Hkey Hobj Himg) as Hstart.
  assert (Hfirst : first = Later p (fun v => ImageResult.url <$> v)).
  { subst first. unfold getImageUrl. rewrite Hstart. reflexivity. }
  assert (Hst1 : st1 = snd (loadImage fileId pathId st0)).
  { subst st1. apply getImageUrl_state. }
  assert (Hinv1 : cache_inv st1).
  { rewrite Hst1. eapply cache_inv_call; [apply loadImage_effect|].
    apply cache_inv_run, cache_inv_initial. }
  rewrite Hstart in Hst1. cbn [snd] in Hst1.
  assert (Hkey1 : imageMap st1 !! key = Some p).
  { rewrite Hst1. cbn. apply lookup_insert_eq. }
  assert (Hpend1 : pending_with st1 p (getAssetObjPNG_start obj)).
  { eexists. rewrite Hst1. cbn [promises set_imageMap set_promises emit].
    split; [apply list_lookup_middle; reflexivity|reflexivity]. }
  pose proof (pending_run during p _ st1 Hduring Hpend1) as (pr & Hpr & Hjob).
  assert (Hnoclear : forallb (fun r => negb (is_clear r)) during = true).
  { eapply forallb_weaken; [|exact Hduring].
    intros r Hr. apply andb_prop in Hr as [Hr _]. exact Hr. }
  pose proof (published_run during key p st1 Hnoclear Hkey1) as Hkey1'.
  destruct (settle_effect p converted (run' st1 during))
    as (Hmap & _ & _ & _ & _ & _ & Hsettled).
  specialize (Hsettled pr _ Hpr Hjob).
  assert (Hnone : getAssetObjPNG_finish (getAssetObjPNG_start obj) converted = None).
  { unfold getAssetObjPNG_start, getAssetObjPNG_finish.
    destruct Hfail as [-> | ->]; [reflexivity|].
    destruct (AssetObject.getImageBitmap obj); reflexivity. }
  rewrite Hnone in Hsettled. fold st2 in Hsettled, Hmap.
  assert (Hkey2 : imageMap st2 !! key = Some p) by (rewrite Hmap; exact Hkey1').
  assert (Hinv2 : cache_inv st2).
  { change st2 with (step' (run' st1 during) (Settled p converted)).
    apply cache_inv_step, cache_inv_run, Hinv1. }
  pose proof (settled_run between p None st2 Hbetween Hsettled) as Hsettled3.
  pose proof (published_run between key p st2 Hbetween Hkey2) as Hkey3.
  fold st3 in Hsettled3, Hkey3.
  assert (Hinv3 : cache_inv st3) by (apply cache_inv_run, Hinv2).
  pose proof (loadImage_hit fileId pathId st3 p Hkey3) as Hhit.
  assert (Hagain : again = Later p (fun v => ImageResult.url <$> v)).
  { subst again. unfold getImageUrl. rewrite Hhit. reflexivity. }
  assert (Hst4 : st4 = st3).
  { subst st4. rewrite getImageUrl_state, Hhit. reflexivity. }
  split; [exact Hkey1|]. split.
  { destruct Hpend1 as (pr1 & Hpr1 & Hjob1). unfold isFulfilled, settled_value.
    rewrite Hpr1, Hjob1. reflexivity. }
  split; [exact Hsettled|].
  rewrite Hfirst, Hagain, Hst4. cbn [await]. rewrite Hsettled, Hsettled3.
  repeat split.
  rewrite (inv_decodes _ Hinv3 key), Hkey3. reflexivity.
Qed.

(** C5, as it holds.  [exportAsset] resolves to nothing when the object is
    missing or is neither a TextAsset nor a Sprite nor a Texture2D, so for
    a SpriteAtlas.  For a TextAsset it resolves at once to the bytes of
    the object as they are, named [.txt].  For a Sprite or Texture2D it
    resolves with the promise published for the key: to the encoded image
    named [.png] when that settles to an image, to nothing when it settles
    to the undefined sentinel. *)
Theorem exportAsset_result (fileId : string) (pathId : Z) (st : State) :
  let result := fst (exportAsset fileId pathId st) in
  let st1 := snd (exportAsset fileId pathId st) in
  match getAssetObj st fileId pathId with
  | None => result = Now None /\ st1 = st
  | Some obj =>
      let fileName := getLegalFileName (AssetObject.name obj) in
      match AssetObject.type obj with
      | TextAsset =>
          result = Now (Some {| ExportedFile.name := fileName +:+ ".txt";
                                ExportedFile.type := "text/plain";
                                ExportedFile.data := AssetObject.data obj |})
          /\ st1 = st
      | Sprite | Texture2D =>
          exists p : PromiseId,
            imageMap st1 !! getAssetKey fileId pathId = Some p
            /\ forall (st' : State) (v : option ImageResult.t),
                settled_value st' p = Some v ->
                await st' result =
                Some (match v with
                      | Some image =>
                          Some {| ExportedFile.name := fileName +:+ ".png";
                                  ExportedFile.type := "image/png";
                                  ExportedFile.data := ImageResult.blob image |}
                      | None => None
                      end)
      | SpriteAtlas | OtherType _ _ => result = Now None /\ st1 = st
      end
  end.
Proof.
  intros result st1. subst result st1. unfold exportAsset.
  destruct (getAssetObj st fileId pathId) as [obj|] eqn:Hobj; [|auto].
  assert (Himage :
            isImageAssetObj (Some obj) = true ->
            exists p,
              fst (loadImage fileId pathId st) = Later p (fun v => v)
              /\ imageMap (snd (loadImage fileId pathId st))
                   !! getAssetKey fileId pathId = Some p).
  { intros Himg.
    destruct (imageMap st !! getAssetKey fileId pathId) as [p|] eqn:Hkey.
    - exists p. rewrite (loadImage_hit _ _ _ _ Hkey). auto.
    - exists (length (promises st)).
      rewrite (loadImage_start _ _ _ _ Hkey Hobj Himg). cbn.
      split; [reflexivity|apply lookup_insert_eq]. }
  unfold isImageAssetObj in Himage.
  destruct (AssetObject.type obj) eqn:Htype; cbn [canExportAssetType existsb
    AssetType_eqb negb orb] in *; auto.
  - destruct (Himage eq_refl) as (p & Hr & Hp).
    destruct (loadImage fileId pathId st) as [img st']. cbn [fst snd] in *.
    subst img. exists p. split; [exact Hp|].
    intros st'' v Hv. cbn [Async_map await]. rewrite Hv. reflexivity.
  - destruct (Himage eq_refl) as (p & Hr & Hp).
    destruct (loadImage fileId pathId st) as [img st']. cbn [fst snd] in *.
    subst img. exists p. split; [exact Hp|].
    intros st'' v Hv. cbn [Async_map await]. rewrite Hv. reflexivity.
Qed.

(** ** Naming inside the archive *)

Lemma Map_get_set {V} (m : list (string * V)) (k k' : string) (v : V) :
  Map_get (Map_set m k v) k' =
  if String.eqb k k' then Some v else Map_get m k'.
Proof.
  induction m as [|[k0 v0] m IH]; cbn [Map_set Map_get].
  - destruct (String.eqb k k'); reflexivity.
  - destruct (String.eqb_spec k0 k) as [->|Hne]; cbn [Map_get].
    + destruct (String.eqb k k'); reflexivity.
    + rewrite IH. destruct (String.eqb_spec k0 k') as [->|Hne'];
        [|reflexivity].
      destruct (String.eqb_spec k k') as [->|_]; [congruence|reflexivity].
Qed.

Lemma objMap_last (st : State) (after : list ExportParam.t) (p : ExportParam.t) :
  Forall (fun q => ExportEntry.key (exportEntry st q)
                   <> ExportEntry.key (exportEntry st p)) after ->
  forall m : list (string * ExportEntry.t),
    Map_get m (ExportEntry.key (exportEntry st p)) = Some (exportEntry st p) ->
    Map_get (fold_left (fun m q => Map_set m (ExportEntry.key (exportEntry st q))
                                           (exportEntry st q)) after m)
            (ExportEntry.key (exportEntry st p)) = Some (exportEntry st p).
Proof.
  induction 1 as [|q after Hq _ IH]; intros m Hm; [exact Hm|].
  cbn [fold_left]. apply IH. rewrite Map_get_set.
  destruct (String.eqb_spec (ExportEntry.key (exportEntry st q))
                            (ExportEntry.key (exportEntry st p)));
    [contradiction|exact Hm].
Qed.

(** C8, as it holds.  For a selection that is the last one with its key
    and whose object is loaded, the path of its entry depends on its own
    fields and the policy alone.  With [<name>] the object's name without
    the characters a file name may not have: no grouping gives
    [<name>.<ext>], grouping by type [<Type>/<name>.<ext>], by source file
    [<fileName>/<name>.<ext>], and by container path the container path as
    it is when it is not empty and [<name>.<ext>] when it is. *)
Theorem getObjPath_policy
  (st : State) (before after : list ExportParam.t) (p : ExportParam.t)
  (obj : AssetObject.t) (groupMethod : ExportGroupMethod) (ext : string) :
  Forall (fun q => getAssetKey (ExportParam.fileId q) (ExportParam.pathId q)
                   <> getAssetKey (ExportParam.fileId p) (ExportParam.pathId p))
         after ->
  getAssetObj st (ExportParam.fileId p) (ExportParam.pathId p) = Some obj ->
  let name := getLegalFileName (AssetObject.name obj) in
  getObjPath (exportAssets_objMap st (before ++ p :: after)) groupMethod
             (getAssetKey (ExportParam.fileId p) (ExportParam.pathId p)) ext =
  match groupMethod with
  | NONE => name +:+ "." +:+ ext
  | TYPE_NAME =>
      template (AssetType_name (AssetObject.type obj))
        +:+ "/" +:+ name +:+ "." +:+ ext
  | SOURCE_FILE_NAME => ExportParam.fileName p +:+ "/" +:+ name +:+ "." +:+ ext
  | CONTAINER_PATH =>
      match ExportParam.container p with
      | EmptyString => name +:+ "." +:+ ext
      | String _ _ => ExportParam.container p
      end
  end.
Proof.
  intros Hafter Hobj name. unfold getObjPath, exportAssets_objMap.
  rewrite fold_left_app. cbn [fold_left].
  change (getAssetKey (ExportParam.fileId p) (ExportParam.pathId p))
    with (ExportEntry.key (exportEntry st p)).
  rewrite (objMap_last st after p Hafter)
    by (rewrite Map_get_set, String.eqb_refl; reflexivity).
  cbn [exportEntry ExportEntry.obj ExportEntry.fileName ExportEntry.container].
  rewrite Hobj. fold name.
  destruct groupMethod; try reflexivity.
  destruct (ExportParam.container p); reflexivity.
Qed.

End LoadingProperties.

(** ** The theorems at work on the test doubles *)

Section Examples.

Import Fixture.

Local Abbreviation loadFile' := (loadFile hash parser lower).
Local Abbreviation run' := (run hash parser lower spread).

Lemma loadFile_dedup_witness :
  let first := loadFile' (file "a.bundle" assets) options initial in
  let second := loadFile' (file "b.bundle" assets) options (snd first) in
  File.bytes (file "a.bundle" assets) = File.bytes (file "b.bundle" assets)
  /\ snd second = snd first
  /\ parses assets (snd second) = 1%nat
  /\ map AssetInfo.fileId (infos_of (fst second)) = [fileId; fileId; fileId; fileId]
  /\ map AssetInfo.fileName (infos_of (fst second)) =
     ["b.bundle"; "b.bundle"; "b.bundle"; "b.bundle"].
Proof.
  intros first second. split; [reflexivity|].
  destruct (loadFile_dedup hash parser lower
              (file "a.bundle" assets) (file "b.bundle" assets) options options
              initial (snd first) (snd first) (infos_of (fst first))
              eq_refl ltac:(vm_compute; reflexivity) eq_refl)
    as (bundle & infos2 & _ & Hload & _).
  subst second. rewrite Hload. cbn [snd].
  split; [reflexivity|]. split; [vm_compute; reflexivity|].
  rewrite <- Hload. vm_compute. split; reflexivity.
Defined.

(** C3, as stated, fails: a content the parser throws on is parsed again
    by the second load, and so is a good content when the cache was
    cleared between the two loads. *)
Lemma loadFile_parses_again :
  File.bytes (file "a.bundle" garbage) = File.bytes (file "b.bundle" garbage)
  /\ parses garbage
       (snd (loadFile' (file "b.bundle" garbage) options
               (snd (loadFile' (file "a.bundle" garbage) options initial))))
     = 2%nat
  /\ parses assets
       (run' initial [CallLoadFiles [file "a.bundle" assets] options;
                      CallClear;
                      CallLoadFiles [file "b.bundle" assets] options])
     = 2%nat.
Proof. split; [reflexivity|]. split; vm_compute; reflexivity. Qed.

Lemma loadImage_single_decode_witness :
  let between := [Settled 0 (Some png); CallGetImageUrl fileId 1;
                  CallExportAsset fileId 1] in
  forallb (fun r => negb (is_clear r)) between = true
  /\ forall key',
      (decodes key'
         (snd (loadImage fileId 1
                 (run' (snd (loadImage fileId 1 loaded)) between))) <= 1)%nat.
Proof.
  intros between. split; [reflexivity|].
  exact (proj1 (loadImage_single_decode hash parser lower spread
                  [CallLoadFiles [file "a.bundle" assets] options]
                  between fileId 1 eq_refl)).
Defined.

(** C4, as stated, fails: while the decode [loadImage] started for a key
    is still unsettled, [exportAssets] asks the same object for its bitmap
    again and hands it to the converter, so the key has two decodes under
    way and the decode has run twice without a clear. *)
Lemma exportAssets_decodes_again :
  let key := getAssetKey fileId 1 in
  let st1 := run' loaded [CallGetImageUrl fileId 1] in
  let st2 := run' st1 [CallExportAssets [select 1 EmptyString]] in
  imageMap st2 !! key = Some 0%nat
  /\ isFulfilled st2 0 = false
  /\ Prepared.imgBitmaps (fst (exportAssets_prepare [select 1 EmptyString] st1))
     = [(key, pixel)]
  /\ decodes key st2 = 1%nat
  /\ export_decodes key st2 = 1%nat
  /\ (decodes key st2 + export_decodes key st2)%nat <> 1%nat.
Proof. vm_compute. repeat split; try reflexivity. discriminate. Qed.

(** C5, as stated, fails twice: a Sprite without a bitmap exports to
    nothing, and the bytes exported for a TextAsset are the object's own,
    here with the byte order mark that decoding and encoding again would
    drop. *)
Lemma exportAsset_not_populated :
  AssetObject.type ghost = Sprite
  /\ getAssetObj loaded fileId 2 = Some ghost
  /\ await (settle 0 None (snd (exportAsset fileId 2 loaded)))
           (fst (exportAsset fileId 2 loaded)) = Some None
  /\ AssetObject.type notes = TextAsset
  /\ getAssetObj loaded fileId 3 = Some notes
  /\ await loaded (fst (exportAsset fileId 3 loaded))
     = Some (Some {| ExportedFile.name := "notes.txt";
                     ExportedFile.type := "text/plain";
                     ExportedFile.data := bytes_of_Zs [0xEF; 0xBB; 0xBF; 0x41] |})
  /\ TextEncoder_encode (TextDecoder_decode (AssetObject.data notes))
     = bytes_of_Zs [0x41].
Proof. vm_compute. repeat split; reflexivity. Qed.

Lemma decode_failure_cached_witness :
  let during := [CallGetImageUrl fileId 1; Settled 1 (Some png)] in
  let between := [CallGetImageUrl fileId 2; CallExportAsset fileId 1] in
  let st1 := snd (getImageUrl fileId 2 loaded) in
  let st2 := settle 0 None (run' st1 during) in
  let st3 := run' st2 between in
  (imageMap loaded !! getAssetKey fileId 2 = None
   /\ getAssetObj loaded fileId 2 = Some ghost
   /\ isImageAssetObj (Some ghost) = true
   /\ forallb (fun r => negb (is_clear r) && negb (is_settled_of 0 r)) during = true
   /\ forallb (fun r => negb (is_clear r)) between = true)
  /\ settled_value st2 0 = Some None
  /\ store_loadImage_data <$> await st3 (fst (getImageUrl fileId 2 st3))
     = Some DataNull
  /\ decodes (getAssetKey fileId 2) (snd (getImageUrl fileId 2 st3)) = 1%nat.
Proof.
  intros during between st1 st2 st3.
  split; [vm_compute; repeat split; reflexivity|].
  destruct (decode_failure_cached hash parser lower spread
              [CallLoadFiles [file "a.bundle" assets] options]
              during between fileId 2 ghost None
              ltac:(vm_compute; reflexivity) ltac:(vm_compute; reflexivity)
              eq_refl (or_intror eq_refl)
              ltac:(vm_compute; reflexivity) eq_refl)
    as (_ & _ & Hsettled & _ & _ & _ & Hnull & Hsame & Hdecodes).
  split; [exact Hsettled|]. split; [|exact Hdecodes].
  rewrite Hsame in Hnull. exact Hnull.
Defined.

Lemma getObjPath_policy_witness :
  Forall (fun q => getAssetKey (ExportParam.fileId q) (ExportParam.pathId q)
                   <> getAssetKey fileId 1)
         [select 3 EmptyString]
  /\ getAssetObj loaded fileId 1 = Some icon
  /\ getObjPath (exportAssets_objMap loaded
                   [select 1 EmptyString; select 1 "assets/icons/large.png";
                    select 3 EmptyString])
                CONTAINER_PATH (getAssetKey fileId 1) "png"
     = "assets/icons/large.png"
  /\ getObjPath (exportAssets_objMap loaded
                   [select 3 "assets/notes.txt"; select 1 EmptyString;
                    select 3 EmptyString])
                CONTAINER_PATH (getAssetKey fileId 1) "png"
     = "iconlarge.png".
Proof.
  assert (Hafter : Forall (fun q => getAssetKey (ExportParam.fileId q)
                                                (ExportParam.pathId q)
                                    <> getAssetKey fileId 1)
                          [select 3 EmptyString]).
  { constructor; [|constructor]. vm_compute. discriminate. }
  assert (Hobj : getAssetObj loaded fileId 1 = Some icon)
    by (vm_compute; reflexivity).
  split; [exact Hafter|]. split; [exact Hobj|]. split.
  - pose proof (getObjPath_policy loaded [select 1 EmptyString]
                  [select 3 EmptyString] (select 1 "assets/icons/large.png")
                  icon CONTAINER_PATH "png" Hafter Hobj) as Hpath.
    vm_compute in Hpath. vm_compute. exact Hpath.
  - pose proof (getObjPath_policy loaded [select 3 "assets/notes.txt"]
                  [select 3 EmptyString] (select 1 EmptyString)
                  icon CONTAINER_PATH "png" Hafter Hobj) as Hpath.
    vm_compute in Hpath. vm_compute. exact Hpath.
Defined.

(** C8, as stated with the object's name for [<name>], fails: the flat
    path of the sprite named [icon/large] has no slash. *)
Lemma getObjPath_drops_characters :
  getAssetObj loaded fileId 1 = Some icon
  /\ AssetObject.name icon = "icon/large"
  /\ getObjPath (exportAssets_objMap loaded [select 1 EmptyString]) NONE
                (getAssetKey fileId 1) "png" = "iconlarge.png"
  /\ getObjPath (exportAssets_objMap loaded [select 1 EmptyString]) NONE
                (getAssetKey fileId 1) "png"
     <> AssetObject.name icon +:+ "." +:+ "png".
Proof. vm_compute. repeat split; try reflexivity. discriminate. Qed.

End Examples.

(** * Further properties of the worker *)

(** ** Key derivation and decryption *)

Lemma accumulated_app (hN : list byte) (j j' : nat) :
  (j <= j')%nat ->
  exists rest, Derive.accumulated hN j' = Derive.accumulated hN j ++ rest.
Proof.
  intros Hle. unfold Derive.accumulated.
  replace j' with (j + (j' - j))%nat by lia.
  rewrite seq_app, map_app, concat_app, app_assoc. eexists. reflexivity.
Qed.

Lemma firstn_prefix {A} (n : nat) (l rest : list A) :
  (n <= length l)%nat -> firstn n (l ++ rest) = firstn n l.
Proof.
  intros Hn. rewrite firstn_app.
  replace (n - length l)%nat with 0%nat by lia.
  cbn [firstn]. apply app_nil_r.
Qed.

(** X1.  Keys of different lengths derived from the same password, salt
    and count agree on their common part: the shorter key is the beginning
    of the longer one. *)
Theorem getKeyPbkdf1_prefix
  (password : string) (salt : list byte) (keyLen keyLen' countParam : Z) :
  0 <= keyLen <= keyLen' ->
  2 <= countParam ->
  getKeyPbkdf1 password salt keyLen countParam =
  firstn (Z.to_nat keyLen) (getKeyPbkdf1 password salt keyLen' countParam).
Proof.
  intros Hlen Hcount.
  destruct (getKeyPbkdf1_accumulated password salt keyLen countParam
              ltac:(lia) Hcount) as (j & Hge & Hleast & ->).
  destruct (getKeyPbkdf1_accumulated password salt keyLen' countParam
              ltac:(lia) Hcount) as (j' & Hge' & _ & ->).
  rewrite List.firstn_firstn.
  replace (Nat.min (Z.to_nat keyLen) (Z.to_nat keyLen')) with (Z.to_nat keyLen)
    by lia.
  destruct (le_lt_dec j j') as [Hjj|Hjj].
  - destruct (accumulated_app (Derive.hashN password salt countParam) j j' Hjj)
      as (rest & ->).
    symmetry. apply firstn_prefix. lia.
  - specialize (Hleast j' Hjj). lia.
Qed.

Lemma getKeyPbkdf1_prefix_witness :
  0 <= 16 <= 32 /\ 2 <= 100 /\
  getKeyPbkdf1 "System.Byte[]" (TextEncoder_encode "abc") 16 100 =
  firstn 16 (getKeyPbkdf1 "System.Byte[]" (TextEncoder_encode "abc") 32 100).
Proof.
  split; [lia|]. split; [lia|].
  apply (getKeyPbkdf1_prefix "System.Byte[]" (TextEncoder_encode "abc") 16 32 100);
    lia.
Defined.

(** X2.  The count is not checked: the loop that hashes again runs
    [countParam - 2] times, so every count of two or less, zero and the
    negative ones included, derives the key of count two. *)
Theorem getKeyPbkdf1_count_floor
  (password : string) (salt : list byte) (keyLen countParam : Z) :
  countParam <= 2 ->
  getKeyPbkdf1 password salt keyLen countParam =
  getKeyPbkdf1 password salt keyLen 2.
Proof.
  intros Hcount. unfold getKeyPbkdf1.
  rewrite (rehash_loop_iter (countParam - 1) 0) by lia.
  rewrite (rehash_loop_iter (2 - 1) 0) by lia.
  reflexivity.
Qed.

Lemma getKeyPbkdf1_count_floor_witness :
  -3 <= 2 /\
  getKeyPbkdf1 "System.Byte[]" (TextEncoder_encode "abc") 32 (-3) =
  getKeyPbkdf1 "System.Byte[]" (TextEncoder_encode "abc") 32 2.
Proof.
  split; [lia|].
  apply (getKeyPbkdf1_count_floor "System.Byte[]" (TextEncoder_encode "abc") 32 (-3)).
  lia.
Defined.

Lemma getKeyPbkdf1_short
  (password : string) (salt : list byte) (keyLen countParam : Z) :
  keyLen <= 20 ->
  getKeyPbkdf1 password salt keyLen countParam =
  Uint8Array_slice0
    (digestSha1 (rehash_loop (countParam - 1) 0
                   (digestSha1 (TextEncoder_encode password ++ salt))))
    keyLen.
Proof.
  intros Hlen. unfold getKeyPbkdf1. rewrite extend_loop_step.
  destruct (Z_lt_dec _ keyLen) as [Hlt|_]; [|reflexivity].
  rewrite digestSha1_length in Hlt. lia.
Qed.

(** X3.  A negative key length does not fail: [slice] counts it from the
    end of the twenty-byte seed, so a length between -20 and -1 derives the
    key of length [20 + keyLen], and anything below derives the empty key. *)
Theorem getKeyPbkdf1_negative_keyLen
  (password : string) (salt : list byte) (keyLen countParam : Z) :
  keyLen < 0 ->
  getKeyPbkdf1 password salt keyLen countParam =
  getKeyPbkdf1 password salt (Z.max (20 + keyLen) 0) countParam.
Proof.
  intros Hneg.
  rewrite (getKeyPbkdf1_short password salt keyLen) by lia.
  rewrite (getKeyPbkdf1_short password salt (Z.max (20 + keyLen) 0)) by lia.
  unfold Uint8Array_slice0. rewrite digestSha1_length.
  destruct (keyLen <? 0) eqn:E1; [|lia].
  destruct (Z.max (20 + keyLen) 0 <? 0) eqn:E2; [lia|].
  f_equal. lia.
Qed.

Lemma getKeyPbkdf1_negative_keyLen_witness :
  -4 < 0 /\
  getKeyPbkdf1 "System.Byte[]" (TextEncoder_encode "abc") (-4) 100 =
  getKeyPbkdf1 "System.Byte[]" (TextEncoder_encode "abc") 16 100.
Proof.
  split; [lia|].
  apply (getKeyPbkdf1_negative_keyLen "System.Byte[]" (TextEncoder_encode "abc")
           (-4) 100).
  lia.
Defined.

(** X4.  The only failure of the decryption is the rejection of the key:
    for a key length that is a length and a count of at least two, the call
    rejects exactly when the key length is none of 16, 24 and 32, whatever
    the data, the empty data included. *)
Theorem decryptAesCtrPbkdf1_rejects
  (data : list byte) (password : string) (salt : list byte)
  (keyLen countParam : Z) :
  0 <= keyLen ->
  2 <= countParam ->
  decryptAesCtrPbkdf1 data password salt keyLen countParam = None
  <-> keyLen <> 16 /\ keyLen <> 24 /\ keyLen <> 32.
Proof.
  intros Hlen Hcount.
  pose proof (getKeyPbkdf1_length password salt keyLen countParam Hlen Hcount)
    as Hkey.
  unfold decryptAesCtrPbkdf1, importKey_raw_AES.
  destruct (length (getKeyPbkdf1 password salt keyLen countParam) =? 16)%nat eqn:E16;
    [apply Nat.eqb_eq in E16; cbn [orb]; split; [discriminate|lia]|].
  destruct (length (getKeyPbkdf1 password salt keyLen countParam) =? 24)%nat eqn:E24;
    [apply Nat.eqb_eq in E24; cbn [orb]; split; [discriminate|lia]|].
  destruct (length (getKeyPbkdf1 password salt keyLen countParam) =? 32)%nat eqn:E32;
    [apply Nat.eqb_eq in E32; cbn [orb]; split; [discriminate|lia]|].
  apply Nat.eqb_neq in E16, E24, E32. cbn [orb].
  split; [intros _; lia|reflexivity].
Qed.

Lemma decryptAesCtrPbkdf1_rejects_witness :
  0 <= 20 /\ 2 <= 100 /\
  decryptAesCtrPbkdf1 [] "System.Byte[]" (TextEncoder_encode "abc") 20 100 = None.
Proof.
  split; [lia|]. split; [lia|].
  apply (decryptAesCtrPbkdf1_rejects [] "System.Byte[]" (TextEncoder_encode "abc")
           20 100); lia.
Defined.

Lemma byte_at_firstn (n j : nat) (l : list byte) :
  (j < n)%nat -> byte_at (firstn n l) j = byte_at l j.
Proof.
  unfold byte_at. revert j l.
  induction n as [|n IH]; intros j l Hj; [lia|].
  destruct l as [|x l]; [reflexivity|].
  destruct j as [|j]; [reflexivity|].
  cbn [firstn nth]. apply IH. lia.
Qed.

(** X5.  The decryption works position by position, so it can be applied
    to the beginning of a file: decrypting the first [n] bytes gives the
    first [n] bytes of the decryption of the whole, and rejects when that
    does. *)
Theorem decryptAesCtrPbkdf1_prefix
  (data : list byte) (password : string) (salt : list byte)
  (keyLen countParam : Z) (n : nat) :
  decryptAesCtrPbkdf1 (firstn n data) password salt keyLen countParam =
  firstn n <$> decryptAesCtrPbkdf1 data password salt keyLen countParam.
Proof.
  destruct (importKey_raw_AES (getKeyPbkdf1 password salt keyLen countParam))
    as [cryptoKey|] eqn:Hkey.
  - destruct (decryptAesCtrPbkdf1_bytes data password salt keyLen countParam _ Hkey)
      as (out & -> & Hlen & Hbytes).
    destruct (decryptAesCtrPbkdf1_bytes (firstn n data) password salt keyLen
                countParam _ Hkey) as (out' & -> & Hlen' & Hbytes').
    cbn [fmap option_fmap option_map]. f_equal.
    rewrite length_firstn in Hlen', Hbytes'.
    apply (nth_ext _ _ x00 x00); [rewrite length_firstn; lia|].
    intros j Hj. fold (byte_at out' j) (byte_at (firstn n out) j).
    rewrite (Hbytes' j ltac:(lia)), !byte_at_firstn by lia.
    symmetry. apply Hbytes. lia.
  - unfold decryptAesCtrPbkdf1. rewrite Hkey. reflexivity.
Qed.

(** ** Names and keys *)

Fixpoint String_has (c : ascii) (s : string) : bool :=
  match s with
  | EmptyString => false
  | String c' s' => Ascii.eqb c' c || String_has c s'
  end.

Definition legal_char (c : ascii) : bool :=
  negb (existsb (Ascii.eqb c) illegal_chars).

Lemma String_filter_keeps (keep : ascii -> bool) (s : string) (c : ascii) :
  String_has c (String_filter keep s) = String_has c s && keep c.
Proof.
  induction s as [|c' s IH]; [reflexivity|].
  cbn [String_filter]. destruct (keep c') eqn:Hkeep; cbn [String_has].
  - rewrite IH. destruct (Ascii.eqb c' c) eqn:E; [|reflexivity].
    apply Ascii.eqb_eq in E. subst c'. rewrite Hkeep. reflexivity.
  - rewrite IH. destruct (Ascii.eqb c' c) eqn:E; [|reflexivity].
    apply Ascii.eqb_eq in E. subst c'. rewrite Hkeep.
    rewrite andb_false_r. reflexivity.
Qed.

Lemma String_filter_fixed (keep : ascii -> bool) (s : string) :
  String_filter keep s = s <->
  forall c, String_has c s = true -> keep c = true.
Proof.
  split.
  - intros Hfix c Hc. rewrite <- Hfix, String_filter_keeps in Hc.
    apply andb_prop in Hc. apply Hc.
  - induction s as [|c' s IH]; intros Hall; [reflexivity|].
    cbn [String_filter]. rewrite (Hall c').
    + f_equal. apply IH. intros c Hc. apply Hall.
      cbn [String_has]. rewrite Hc. apply orb_true_r.
    + cbn [String_has]. rewrite Ascii.eqb_refl. reflexivity.
Qed.

Lemma String_filter_app (keep : ascii -> bool) (s t : string) :
  String_filter keep (s +:+ t) = String_filter keep s +:+ String_filter keep t.
Proof.
  induction s as [|c s IH]; [reflexivity|].
  simpl. destruct (keep c); simpl; rewrite IH; reflexivity.
Qed.

(** X6.  The name [getLegalFileName] returns holds none of the nine
    characters of its class; it is the name itself exactly when the name
    holds none of them, so cleaning a cleaned name changes nothing; and the
    clean form of a concatenation is the concatenation of the clean
    forms. *)
Theorem getLegalFileName_legal (name : string) :
  (forall c, In c illegal_chars ->
             String_has c (getLegalFileName name) = false)
  /\ (getLegalFileName name = name <->
      forall c, In c illegal_chars -> String_has c name = false)
  /\ getLegalFileName (getLegalFileName name) = getLegalFileName name
  /\ forall name', getLegalFileName (name +:+ name') =
                   getLegalFileName name +:+ getLegalFileName name'.
Proof.
  assert (Hlegal : forall c, legal_char c = false <-> In c illegal_chars).
  { intros c. unfold legal_char. rewrite negb_false_iff, existsb_exists.
    split.
    - intros (x & Hin & Heq). apply Ascii.eqb_eq in Heq. subst x. exact Hin.
    - intros Hin. exists c. split; [exact Hin|apply Ascii.eqb_refl]. }
  assert (Hnone : forall c, In c illegal_chars ->
                            String_has c (getLegalFileName name) = false).
  { intros c Hin. unfold getLegalFileName.
    rewrite (String_filter_keeps _ name c).
    apply Hlegal in Hin. unfold legal_char in Hin. rewrite Hin.
    apply andb_false_r. }
  assert (Hfix : forall s, getLegalFileName s = s <->
                           forall c, In c illegal_chars -> String_has c s = false).
  { intros s. unfold getLegalFileName. rewrite String_filter_fixed. split.
    - intros Hall c Hin. destruct (String_has c s) eqn:Hc; [|reflexivity].
      apply Hall in Hc. apply Hlegal in Hin. unfold legal_char in Hin. congruence.
    - intros Hall c Hc.
      destruct (negb (existsb (Ascii.eqb c) illegal_chars)) eqn:Hl; [reflexivity|].
      apply Hlegal in Hl. rewrite (Hall c Hl) in Hc. discriminate Hc. }
  split; [exact Hnone|]. split; [apply Hfix|].
  split; [apply Hfix, Hnone|].
  intros name'. apply String_filter_app.
Qed.

(** The decimal form of a number holds digits and at most a sign. *)
Lemma pretty_N_go_has (c : ascii) (x : N) :
  forall s,
    (forall d, (d < 10)%N -> pretty_N_char d <> c) ->
    String_has c s = false -> String_has c (pretty_N_go x s) = false.
Proof.
  induction (N.lt_wf_0 x) as [x _ IH]. intros s Hdigit Hs.
  destruct (decide (0 < x)%N) as [Hpos|Hzero].
  - rewrite pretty_N_go_step by exact Hpos.
    apply IH; [apply N.div_lt; [exact Hpos|reflexivity]|exact Hdigit|].
    cbn [String_has]. rewrite Hs, orb_false_r.
    apply Ascii.eqb_neq, Hdigit, N.mod_lt. discriminate.
  - replace x with 0%N by lia. rewrite pretty_N_go_0. exact Hs.
Qed.

Lemma pretty_Z_no_underscore (z : Z) : String_has "_" (pretty z) = false.
Proof.
  assert (Hdigit : forall d, (d < 10)%N -> pretty_N_char d <> "_"%char).
  { intros d _. unfold pretty_N_char. repeat case_match; discriminate. }
  assert (HN : forall n : N, String_has "_" (pretty n) = false).
  { intros n. unfold pretty, pretty_N. case_decide; [reflexivity|].
    apply pretty_N_go_has; [exact Hdigit|reflexivity]. }
  destruct z as [|p|p]; [reflexivity|apply HN|exact (HN (N.pos p))].
Qed.

Lemma String_has_app (c : ascii) (s t : string) :
  String_has c (s +:+ t) = String_has c s || String_has c t.
Proof.
  induction s as [|c' s IH]; [reflexivity|].
  simpl. rewrite IH. apply orb_assoc.
Qed.

Lemma split_at_last (c : ascii) (d1 d2 : string) :
  String_has c d1 = false -> String_has c d2 = false ->
  forall f1 f2 : string,
    f1 +:+ String c d1 = f2 +:+ String c d2 -> f1 = f2 /\ d1 = d2.
Proof.
  intros H1 H2. induction f1 as [|a f1 IH]; intros [|b f2] Heq;
    simpl in Heq.
  - injection Heq as ->. split; reflexivity.
  - injection Heq as <- ->.
    rewrite String_has_app in H1. cbn [String_has] in H1.
    rewrite Ascii.eqb_refl, orb_true_r in H1. discriminate H1.
  - injection Heq as -> <-.
    rewrite String_has_app in H2. cbn [String_has] in H2.
    rewrite Ascii.eqb_refl, orb_true_r in H2. discriminate H2.
  - injection Heq as -> Heq. destruct (IH f2 Heq) as [-> ->].
    split; reflexivity.
Qed.

Lemma getAssetKey_eq (fileId fileId' : string) (pathId pathId' : Z) :
  getAssetKey fileId pathId = getAssetKey fileId' pathId' ->
  fileId = fileId' /\ pathId = pathId'.
Proof.
  unfold getAssetKey. intros Heq.
  destruct (split_at_last "_" (pretty pathId) (pretty pathId')
              (pretty_Z_no_underscore pathId) (pretty_Z_no_underscore pathId')
              fileId fileId' Heq) as [Hf Hp].
  split; [exact Hf|]. apply (inj pretty), Hp.
Qed.

(** X7.  Asset keys are free of collisions: two keys are equal exactly
    when they were built from the same file id and the same path id,
    whatever the file ids hold, underscores included. *)
Theorem getAssetKey_inj (fileId fileId' : string) (pathId pathId' : Z) :
  getAssetKey fileId pathId = getAssetKey fileId' pathId'
  <-> fileId = fileId' /\ pathId = pathId'.
Proof.
  split; [apply getAssetKey_eq|]. intros [-> ->]. reflexivity.
Qed.

(** ** The manual decryption of [loadFiles] *)

Lemma String_length_app (s t : string) :
  String.length (s +:+ t) = (String.length s + String.length t)%nat.
Proof. induction s as [|c s IH]; simpl; [reflexivity|rewrite IH; reflexivity]. Qed.

Lemma substring_app_suffix (s t : string) :
  substring (String.length s) (String.length t) (s +:+ t) = t.
Proof.
  induction s as [|c s IH]; simpl; [|exact IH].
  induction t as [|c t IHt]; simpl; [reflexivity|].
  destruct t; simpl in *; f_equal; exact IHt.
Qed.

Lemma substring_app_prefix (s t : string) :
  substring 0 (String.length s) (s +:+ t) = s.
Proof.
  induction s as [|c s IH]; simpl; [destruct t; reflexivity|].
  f_equal. exact IH.
Qed.

Lemma String_endsWith_app (s suffix : string) :
  String_endsWith (s +:+ suffix) suffix = true.
Proof.
  unfold String_endsWith. rewrite String_length_app.
  replace (String.length s + String.length suffix - String.length suffix)%nat
    with (String.length s) by lia.
  rewrite substring_app_suffix, String.eqb_refl, andb_true_r.
  apply Nat.leb_le. lia.
Qed.

Lemma strip_ab_app (base : string) : strip_ab (base +:+ ".ab") = base.
Proof.
  unfold strip_ab. rewrite String_endsWith_app, String_length_app.
  replace (String.length base + String.length ".ab" - 3)%nat
    with (String.length base) by (simpl; lia).
  apply substring_app_prefix.
Qed.

Lemma decryptAesCtrPbkdf1_default_accepts
  (data : list byte) (password : string) (salt : list byte) :
  exists out : list byte,
    decryptAesCtrPbkdf1 data password salt 32 100 = Some out
    /\ length out = length data
    /\ decryptAesCtrPbkdf1 out password salt 32 100 = Some data.
Proof.
  pose proof (getKeyPbkdf1_length password salt 32 100 ltac:(lia) ltac:(lia))
    as Hlen.
  pose proof (importKey_raw_AES_32 (getKeyPbkdf1 password salt 32 100)
                ltac:(lia)) as Hkey.
  destruct (decryptAesCtrPbkdf1_bytes data password salt 32 100 _ Hkey)
    as (out & Hdec & Hout & _).
  destruct (decryptAesCtrPbkdf1_twice data password salt 32 100 _ Hkey)
    as (out' & Hdec' & Hback).
  assert (out' = out) by congruence. subst out'.
  exists out. split; [exact Hdec|]. split; [exact Hout|exact Hback].
Qed.

(** X8.  The manual decryption of [loadFiles] never throws.  It hands the
    file on untouched unless the environment index is 2 and the name ends
    in [.ab]; when it applies, the name and the type are kept, the content
    keeps its length, and applying it to its own result gives the file
    back. *)
Theorem decryptFile_involutive
  (file : File.t) (options : BundleLoadOptions.t) (st : State) :
  exists file' : File.t,
    decryptFile file options st = (inr file', st)
    /\ File.name file' = File.name file
    /\ File.type file' = File.type file
    /\ length (File.bytes file') = length (File.bytes file)
    /\ decryptFile file' options st = (inr file, st)
    /\ (BundleLoadOptions.envIndex options <> 2
        \/ String_endsWith (File.name file) ".ab" = false ->
        file' = file).
Proof.
  unfold decryptFile.
  destruct ((BundleLoadOptions.envIndex options =? 2)
            && String_endsWith (File.name file) ".ab") eqn:Hcond.
  - destruct (decryptAesCtrPbkdf1_default_accepts (File.bytes file)
                "System.Byte[]" (TextEncoder_encode (strip_ab (File.name file))))
      as (out & Hdec & Hlen & Hback).
    rewrite Hdec.
    exists {| File.name := File.name file; File.type := File.type file;
              File.bytes := out |}.
    cbn [File.name File.type File.bytes]. rewrite Hcond, Hback.
    split; [reflexivity|]. split; [reflexivity|]. split; [reflexivity|].
    split; [exact Hlen|]. split; [destruct file; reflexivity|].
    apply andb_prop in Hcond. destruct Hcond as [Henv Hab].
    apply Z.eqb_eq in Henv. intros [Hne|Hne]; [contradiction|congruence].
  - exists file. rewrite Hcond.
    repeat (split; [reflexivity|]). intros _. reflexivity.
Qed.

(** For a file named [base.ab] in environment 2, what reaches the
    parser is the content decrypted with the defaults (key length 32, count
    100), the password [System.Byte[]] and the bytes of [base] as the salt:
    only the last [.ab] is cut off the name. *)
Lemma decryptFile_salt
  (base type : string) (bytes : list byte) (options : BundleLoadOptions.t)
  (st : State) :
  BundleLoadOptions.envIndex options = 2 ->
  exists decrypted : list byte,
    decryptAesCtrPbkdf1_default bytes "System.Byte[]" (TextEncoder_encode base)
      = Some decrypted
    /\ decryptFile {| File.name := base +:+ ".ab"; File.type := type;
                      File.bytes := bytes |} options st
       = (inr {| File.name := base +:+ ".ab"; File.type := type;
                 File.bytes := decrypted |}, st).
Proof.
  intros Henv.
  destruct (decryptAesCtrPbkdf1_default_accepts bytes "System.Byte[]"
              (TextEncoder_encode base)) as (out & Hdec & _).
  exists out. split; [exact Hdec|].
  unfold decryptFile. cbn [File.name File.type File.bytes].
  rewrite Henv, String_endsWith_app, strip_ab_app, Hdec. reflexivity.
Qed.

(** ** The manager over its requests *)

Definition is_progress (e : Event) : bool :=
  match e with
  | EvProgress _ _ _ _ => true
  | _ => false
  end.

Section ManagerProperties.

Variable calcMd5 : list byte -> string.
Variable loadAssetBundle :
  list byte -> BundleLoadOptions.t -> string + Bundle.t.
Variable String_toLowerCase : string -> string.
Variable spreadError : nat -> option string.

Local Abbreviation loadFile' := (loadFile calcMd5 loadAssetBundle String_toLowerCase).
Local Abbreviation loadFiles' :=
  (loadFiles calcMd5 loadAssetBundle String_toLowerCase spreadError).
Local Abbreviation attempt' := (attempt calcMd5 loadAssetBundle String_toLowerCase).
Local Abbreviation outcomes' :=
  (outcomes calcMd5 loadAssetBundle String_toLowerCase spreadError).
Local Abbreviation step' :=
  (step calcMd5 loadAssetBundle String_toLowerCase spreadError).
Local Abbreviation run' :=
  (run calcMd5 loadAssetBundle String_toLowerCase spreadError).
Local Abbreviation pushed_of' := (pushed_of spreadError).
Local Abbreviation errors_of' := (errors_of spreadError).
Local Abbreviation overflowed' := (overflowed spreadError).

Lemma outcomes_counts (os : list (File.t * (string + list AssetInfo.t))) :
  let counted := length (List.filter has_infos os) in
  let errors := length (errors_of' os) in
  let overflow := length (List.filter overflowed' os) in
  let infos := concat (map (fun o => pushed_of' (snd o)) os) in
  (counted + errors <= length os + overflow)%nat
  /\ (overflow <= counted)%nat
  /\ (overflow <= errors)%nat
  /\ (counted <= length infos + overflow)%nat
  /\ (infos = [] <-> counted = overflow)
  /\ sublist (map FileLoadingError.name (errors_of' os))
             (map (fun o => File.name (fst o)) os).
Proof.
  induction os as [|[file outcome] os IH]; cbv zeta in *.
  - cbn. repeat split; auto; constructor.
  - destruct IH as (IH1 & IH2 & IH3 & IH4 & IH5 & IH6).
    unfold errors_of in *. cbn [List.filter flat_map map concat fst snd].
    rewrite map_app, !length_app.
    set (counted := List.filter has_infos os) in *.
    set (errors := flat_map (error_of spreadError) os) in *.
    set (overflow := List.filter overflowed' os) in *.
    set (infos := concat (map (fun o => pushed_of' (snd o)) os)) in *.
    unfold error_of, has_infos, overflowed, pushed_of. cbn [fst snd].
    destruct outcome as [err|[|info rest]];
      [| |destruct (spreadError (length (info :: rest))) as [err|]];
      cbn [app length map].
    + split; [lia|]. split; [exact IH2|]. split; [lia|]. split; [lia|].
      split; [exact IH5|]. apply sublist_skip, IH6.
    + destruct (spreadError 0); cbn [app length];
        (split; [lia|]); (split; [exact IH2|]); (split; [exact IH3|]);
        (split; [exact IH4|]); (split; [exact IH5|]); apply sublist_cons, IH6.
    + split; [lia|]. split; [lia|]. split; [lia|]. split; [lia|].
      split; [|apply sublist_skip, IH6].
      rewrite IH5. split; intros H; lia.
    + split; [lia|]. split; [lia|]. split; [lia|]. split; [lia|].
      split; [|apply sublist_cons, IH6].
      split; [discriminate|]. intros H. lia.
Qed.

(** X9.  The three results of [loadFiles] are tied together.  Each file
    is counted as a success at most once and listed as an error at most
    once, and it is both exactly when its infos were too many for the
    engine to spread into [push]: then they are dropped.  Apart from those
    files, successes and errors together do not exceed the number of
    files and every success brought at least one info, so that there are
    no infos exactly when every success was such a file.  The errors name
    files of the request, in the order of the request. *)
Theorem loadFiles_counts
  (files : list File.t) (options : BundleLoadOptions.t) (st : State) :
  let os := fst (outcomes' (length files) options 0 files 0 st) in
  let overflow := length (List.filter overflowed' os) in
  exists (result : LoadFilesResult.t) (st' : State),
    loadFiles' files options st = (inr result, st')
    /\ (LoadFilesResult.successNum result <= length files)%nat
    /\ (length (LoadFilesResult.errors result) <= length files)%nat
    /\ (LoadFilesResult.successNum result
        + length (LoadFilesResult.errors result) <= length files + overflow)%nat
    /\ (overflow <= LoadFilesResult.successNum result)%nat
    /\ (overflow <= length (LoadFilesResult.errors result))%nat
    /\ (LoadFilesResult.successNum result
        <= length (LoadFilesResult.infos result) + overflow)%nat
    /\ (LoadFilesResult.infos result = []
        <-> LoadFilesResult.successNum result = overflow)
    /\ sublist (map FileLoadingError.name (LoadFilesResult.errors result))
               (map File.name files).
Proof.
  intros os overflow. rewrite loadFiles_outcomes. eexists. eexists.
  split; [reflexivity|].
  cbn [LoadFilesResult.successNum LoadFilesResult.errors LoadFilesResult.infos].
  pose proof (outcomes_files calcMd5 loadAssetBundle String_toLowerCase
                spreadError (length files) options files 0 0 st) as Hfiles.
  fold os in Hfiles |- *.
  destruct (outcomes_counts os) as (H1 & H2 & H3 & H4 & H5 & H6).
  cbv zeta in H1, H2, H3, H4, H5, H6. fold overflow in H1, H2, H3, H4, H5.
  pose proof (f_equal (@length _) Hfiles) as Hlen. rewrite length_map in Hlen.
  rewrite <- (List.map_map fst File.name), Hfiles in H6.
  pose proof (List.filter_length_le has_infos os) as Hc.
  split; [lia|]. split; [lia|]. split; [lia|]. split; [exact H2|].
  split; [exact H3|]. split; [exact H4|]. split; [exact H5|exact H6].
Qed.

(** The trace of one attempt: its progress report with the running total,
    and nothing but calls of the parser after it. *)
Lemma attempt_trace
  (n : nat) (options : BundleLoadOptions.t) (i : nat) (file : File.t)
  (total : nat) (st : State) :
  exists parse : list Event,
    trace (snd (attempt' n options i file total st)) =
      parse ++ EvProgress (File.name file) i n total :: trace st
    /\ List.filter is_progress parse = [].
Proof.
  unfold attempt, bind, onProgress, modify. cbv beta.
  set (st0 := emit (EvProgress (File.name file) i n total) st).
  pose proof (decryptFile_state file options st0) as Hdec.
  destruct (decryptFile file options st0) as [[err|file'] st1];
    cbn [snd] in Hdec |- *; subst st1.
  - exists []. split; reflexivity.
  - pose proof (loadFile_cases calcMd5 loadAssetBundle String_toLowerCase
                  file' options st0) as Hcases.
    cbv zeta in Hcases. rewrite Hcases. clear Hcases.
    destruct (bundleMap st0 !! calcMd5 (File.bytes file')) as [bundle|].
    + exists []. split; reflexivity.
    + exists [EvParse (File.bytes file')]. split; [|reflexivity].
      destruct (loadAssetBundle (File.bytes file') options); reflexivity.
Qed.

(** The reports of the loop, oldest first. *)
Fixpoint reports_of
  (n i total : nat) (os : list (File.t * (string + list AssetInfo.t)))
  : list Event :=
  match os with
  | [] => []
  | o :: os' =>
      EvProgress (File.name (fst o)) i n total
      :: reports_of n (S i) (total + length (pushed_of' (snd o))) os'
  end.

Lemma outcomes_reports (n : nat) (options : BundleLoadOptions.t)
  (files : list File.t) :
  forall (i total : nat) (st : State),
    exists new : list Event,
      trace (snd (outcomes' n options i files total st)) = new ++ trace st
      /\ rev (List.filter is_progress new) =
         reports_of n i total (fst (outcomes' n options i files total st)).
Proof.
  induction files as [|file rest IH]; intros i total st.
  - exists []. split; reflexivity.
  - cbn [outcomes].
    destruct (attempt_trace n options i file total st) as (parse & Htr0 & Hparse).
    destruct (attempt' n options i file total st) as [outcome st1].
    cbn [snd] in Htr0.
    destruct (IH (S i) (total + length (pushed_of' outcome))%nat st1)
      as (new & Htr & Hnew).
    destruct (outcomes' n options (S i) rest
                (total + length (pushed_of' outcome)) st1) as [others st2].
    cbn [fst snd] in *.
    exists (new ++ parse ++ [EvProgress (File.name file) i n total]). split.
    + rewrite Htr, Htr0, <- !app_assoc. reflexivity.
    + rewrite !List.filter_app, Hparse. cbn [List.filter is_progress app].
      rewrite rev_app_distr, Hnew. reflexivity.
Qed.

Lemma reports_of_lookup (n : nat)
  (os : list (File.t * (string + list AssetInfo.t))) :
  forall (i total k : nat) (o : File.t * (string + list AssetInfo.t)),
    os !! k = Some o ->
    reports_of n i total os !! k =
    Some (EvProgress (File.name (fst o)) (i + k) n
            (total + length (concat (map (fun o => pushed_of' (snd o))
                                         (take k os))))).
Proof.
  induction os as [|o' os IH]; intros i total k o Hk; [discriminate Hk|].
  destruct k as [|k]; cbn in Hk |- *.
  - injection Hk as ->. rewrite !Nat.add_0_r. reflexivity.
  - rewrite (IH (S i) _ k o Hk), length_app. f_equal. f_equal; lia.
Qed.

Lemma reports_of_length (n : nat)
  (os : list (File.t * (string + list AssetInfo.t))) :
  forall i total : nat, length (reports_of n i total os) = length os.
Proof.
  induction os as [|o os IH]; intros i total; [reflexivity|].
  cbn. rewrite IH. reflexivity.
Qed.

(** X10.  [loadFiles] reports progress once per file and in the order of
    the files, failed ones included.  The report of file [k] carries its
    name, the two operands of its progress [(k / n) * 100], which are the
    index [k] and the number [n] of files, and as the total the number of
    assets pushed for the files before it: a file that failed, that
    returned nothing, or that returned more than the engine could spread
    into [push] has brought none. *)
Theorem loadFiles_progress
  (files : list File.t) (options : BundleLoadOptions.t) (st : State) :
  let os := fst (outcomes' (length files) options 0 files 0 st) in
  exists new reports : list Event,
    trace (snd (loadFiles' files options st)) = new ++ trace st
    /\ reports = rev (List.filter is_progress new)
    /\ length reports = length files
    /\ forall (k : nat) (file : File.t),
        files !! k = Some file ->
        reports !! k =
        Some (EvProgress (File.name file) k (length files)
                (length (concat (map (fun o => pushed_of' (snd o)) (take k os))))).
Proof.
  intros os. rewrite loadFiles_outcomes. cbn [snd].
  destruct (outcomes_reports (length files) options files 0 0 st)
    as (new & Htr & Hnew).
  pose proof (outcomes_files calcMd5 loadAssetBundle String_toLowerCase
                spreadError (length files) options files 0 0 st) as Hfiles.
  fold os in Hnew, Hfiles.
  exists new, (rev (List.filter is_progress new)).
  split; [exact Htr|]. split; [reflexivity|]. rewrite Hnew. split.
  - rewrite reports_of_length, <- Hfiles, length_map. reflexivity.
  - intros k file Hk. rewrite <- Hfiles, list_lookup_fmap in Hk.
    destruct (os !! k) as [o|] eqn:Ho; [|discriminate Hk].
    injection Hk as <-. rewrite (reports_of_lookup _ _ 0 0 k o Ho).
    reflexivity.
Qed.

(** *** A load, stretch by stretch *)

Lemma decryptFile_fst (file : File.t) (options : BundleLoadOptions.t)
  (st st' : State) :
  fst (decryptFile file options st) = fst (decryptFile file options st').
Proof.
  unfold decryptFile.
  destruct (_ && _); [|reflexivity].
  destruct (decryptAesCtrPbkdf1 _ _ _ _ _); reflexivity.
Qed.

(** The stretches of one turn of the loop of [loadFiles], begun in [st]:
    the report, then, unless the decryption throws, the lookup of the
    cache and, on a miss, what follows the parser's answer. *)
Definition stretches_of
  (n : nat) (options : BundleLoadOptions.t) (i : nat) (file : File.t)
  (totalAssetNum : nat) (st : State) : list Request :=
  LoadReport (File.name file) i n totalAssetNum
  :: match fst (decryptFile file options st) with
     | inl _ => []
     | inr file' =>
         LoadLookup file' options
         :: match bundleMap st !! calcMd5 (File.bytes file') with
            | Some _ => []
            | None => [LoadParsed file' options]
            end
     end.

Fixpoint load_stretches
  (n : nat) (options : BundleLoadOptions.t) (i : nat) (files : list File.t)
  (totalAssetNum : nat) (st : State) : list Request :=
  match files with
  | [] => []
  | file :: rest =>
      let '(outcome, st1) := attempt' n options i file totalAssetNum st in
      stretches_of n options i file totalAssetNum st
      ++ load_stretches n options (S i) rest
           (totalAssetNum + length (pushed_of' outcome)) st1
  end.

Lemma attempt_stretches
  (n : nat) (options : BundleLoadOptions.t) (i : nat) (file : File.t)
  (total : nat) (st : State) :
  snd (attempt' n options i file total st) =
  run' st (stretches_of n options i file total st).
Proof.
  unfold attempt, stretches_of, run, bind. cbn [fold_left step].
  set (st0 := snd (onProgress (File.name file) i n total st)).
  assert (Hst0 : onProgress (File.name file) i n total st = (inr tt, st0))
    by reflexivity.
  rewrite Hst0. rewrite (decryptFile_fst file options st st0).
  pose proof (decryptFile_state file options st0) as Hdec.
  destruct (decryptFile file options st0) as [[err|file'] st1];
    cbn [fst snd] in Hdec |- *; subst st1; [reflexivity|].
  change (bundleMap st) with (bundleMap st0).
  pose proof (loadFile_cases calcMd5 loadAssetBundle String_toLowerCase
                file' options st0) as Hcases.
  cbv zeta in Hcases. rewrite Hcases. clear Hcases.
  cbn [fold_left step]. rewrite loadFile_lookup_state.
  destruct (bundleMap st0 !! calcMd5 (File.bytes file')) as [bundle|] eqn:Hc;
    [reflexivity|].
  cbn [fold_left step]. rewrite loadFile_resume_state.
  cbn [bundleMap emit]. rewrite Hc.
  destruct (loadAssetBundle (File.bytes file') options); reflexivity.
Qed.

Lemma outcomes_stretches (n : nat) (options : BundleLoadOptions.t)
  (files : list File.t) :
  forall (i total : nat) (st : State),
    snd (outcomes' n options i files total st) =
    run' st (load_stretches n options i files total st).
Proof.
  induction files as [|file rest IH]; intros i total st; [reflexivity|].
  cbn [outcomes load_stretches].
  pose proof (attempt_stretches n options i file total st) as Hone.
  destruct (attempt' n options i file total st) as [outcome st1].
  cbn [snd] in Hone.
  specialize (IH (S i) (total + length (pushed_of' outcome))%nat st1).
  destruct (outcomes' n options (S i) rest
              (total + length (pushed_of' outcome)) st1) as [others st2].
  cbn [snd] in IH |- *. unfold run in *.
  rewrite fold_left_app, <- Hone. exact IH.
Qed.

(** A call of [loadFiles] that nothing interrupts leaves the state its
    stretches leave, run one after the other. *)
Lemma loadFiles_stretches
  (files : list File.t) (options : BundleLoadOptions.t) (st : State) :
  step' st (CallLoadFiles files options) =
  run' st (load_stretches (length files) options 0 files 0 st).
Proof.
  cbn [step]. rewrite loadFiles_outcomes. cbn [snd].
  apply outcomes_stretches.
Qed.

(** *** What each request does to the state *)

(** The state [loadImage] leaves when it starts the decode of [obj]. *)
Definition published (key : string) (obj : AssetObject.t) (st : State) : State :=
  set_imageMap (fun m => <[key := length (promises st)]> m)
    (set_promises
       (fun ps => ps ++ [{| Promise.state := Pending (getAssetObjPNG_start obj);
                            Promise.revokeWhenSettled := false |}])
       (emit (EvDecode key) st)).

(** The state [settle] leaves when it fulfils the pending promise [pr]
    with [v]. *)
Definition settled_with
  (p : PromiseId) (pr : Promise.t) (v : option ImageResult.t) (st : State)
  : State :=
  {| bundleMap := bundleMap st; imageMap := imageMap st;
     promises :=
       <[p := {| Promise.state := Fulfilled v;
                 Promise.revokeWhenSettled := Promise.revokeWhenSettled pr |}]>
         (promises st);
     urls := match v with Some _ => S (urls st) | None => urls st end;
     revoked :=
       match v with
       | Some img =>
           if Promise.revokeWhenSettled pr
           then {[ImageResult.url img]} ∪ revoked st
           else revoked st
       | None => revoked st
       end;
     trace := trace st |}.

Definition settled_image (st : State) (job : DecodeJob)
  (converted : option (list byte)) : option ImageResult.t :=
  match getAssetObjPNG_finish job converted with
  | None => None
  | Some buffer =>
      Some {| ImageResult.url := "blob:" +:+ pretty (urls st);
              ImageResult.blob := buffer |}
  end.

Lemma settle_cases (p : PromiseId) (converted : option (list byte)) (st : State) :
  match promises st !! p with
  | Some pr =>
      match Promise.state pr with
      | Pending job =>
          settle p converted st =
          settled_with p pr (settled_image st job converted) st
      | Fulfilled _ => settle p converted st = st
      end
  | None => settle p converted st = st
  end.
Proof.
  unfold settle, settled_with, settled_image.
  destruct (promises st !! p) as [pr|]; [|reflexivity].
  destruct (Promise.state pr) as [job|v]; [|reflexivity].
  destruct (getAssetObjPNG_finish job converted) as [buffer|]; [|reflexivity].
  destruct (Promise.revokeWhenSettled pr); reflexivity.
Qed.

Lemma loadImage_shape (fileId : string) (pathId : Z) (st : State) :
  snd (loadImage fileId pathId st) = st
  \/ exists obj,
      imageMap st !! getAssetKey fileId pathId = None
      /\ getAssetObj st fileId pathId = Some obj
      /\ isImageAssetObj (Some obj) = true
      /\ snd (loadImage fileId pathId st) =
         published (getAssetKey fileId pathId) obj st.
Proof.
  destruct (imageMap st !! getAssetKey fileId pathId) as [p|] eqn:Hkey.
  - left. rewrite (loadImage_hit _ _ _ _ Hkey). reflexivity.
  - destruct (getAssetObj st fileId pathId) as [obj|] eqn:Hobj.
    + destruct (isImageAssetObj (Some obj)) eqn:Himg.
      * right. exists obj.
        rewrite (loadImage_start _ _ _ _ Hkey Hobj Himg). auto.
      * left. unfold loadImage. rewrite Hkey, Hobj.
        unfold isImageAssetObj in Himg.
        apply orb_false_elim in Himg as [-> ->]. reflexivity.
    + left. unfold loadImage. rewrite Hkey, Hobj. reflexivity.
Qed.

Lemma exportAsset_shape (fileId : string) (pathId : Z) (st : State) :
  snd (exportAsset fileId pathId st) = st
  \/ snd (exportAsset fileId pathId st) = snd (loadImage fileId pathId st).
Proof.
  unfold exportAsset.
  destruct (getAssetObj st fileId pathId) as [obj|]; [|left; reflexivity].
  destruct (negb _); [left; reflexivity|].
  destruct (AssetObject.type obj); try (left; reflexivity);
    right; destruct (loadImage fileId pathId st); reflexivity.
Qed.

Inductive step_shape (st st' : State) : Prop :=
| shape_quiet :
    extends st st' -> step_shape st st'
| shape_publish (fileId : string) (pathId : Z) (obj : AssetObject.t) :
    imageMap st !! getAssetKey fileId pathId = None ->
    getAssetObj st fileId pathId = Some obj ->
    isImageAssetObj (Some obj) = true ->
    st' = published (getAssetKey fileId pathId) obj st ->
    step_shape st st'
| shape_settle (p : PromiseId) (converted : option (list byte)) :
    st' = settle p converted st -> step_shape st st'
| shape_clear :
    st' = clear st -> step_shape st st'.

Lemma loadImage_step_shape (fileId : string) (pathId : Z) (st : State) :
  step_shape st (snd (loadImage fileId pathId st)).
Proof.
  destruct (loadImage_shape fileId pathId st) as [->|(obj & Hk & Ho & Hi & ->)].
  - apply shape_quiet, extends_refl.
  - eapply shape_publish; eauto.
Qed.

Lemma step_shape_of (r : Request) (st : State) : step_shape st (step' st r).
Proof.
  destruct r as [files options|fileId pathId|fileId pathId|params|p c|
                 |name i n total|file options|file options];
    cbn [step].
  - apply shape_quiet, loadFiles_extends.
  - rewrite getImageUrl_state. apply loadImage_step_shape.
  - destruct (exportAsset_shape fileId pathId st) as [->| ->].
    + apply shape_quiet, extends_refl.
    + apply loadImage_step_shape.
  - apply shape_quiet, exportAssets_prepare_extends.
  - eapply shape_settle. reflexivity.
  - apply shape_clear. reflexivity.
  - apply shape_quiet.
    apply (stretch_extends calcMd5 loadAssetBundle String_toLowerCase
             spreadError (LoadReport name i n total) st I).
  - apply shape_quiet.
    apply (stretch_extends calcMd5 loadAssetBundle String_toLowerCase
             spreadError (LoadLookup file options) st I).
  - apply shape_quiet.
    apply (stretch_extends calcMd5 loadAssetBundle String_toLowerCase
             spreadError (LoadParsed file options) st I).
Qed.

(** *** The callbacks of [clear] *)

Record release_rel (st st' : State) : Prop := {
  rel_imageMap : imageMap st' = imageMap st;
  rel_bundleMap : bundleMap st' = bundleMap st;
  rel_urls : urls st' = urls st;
  rel_trace : trace st' = trace st;
  rel_state :
    forall q, Promise.state <$> (promises st' !! q)
              = Promise.state <$> (promises st !! q);
  rel_flag :
    forall q pr,
      promises st !! q = Some pr -> Promise.revokeWhenSettled pr = true ->
      exists pr', promises st' !! q = Some pr'
                  /\ Promise.revokeWhenSettled pr' = true;
  rel_revoked : revoked st ⊆ revoked st';
  rel_revoked_of :
    forall u, u ∈ revoked st' ->
      u ∈ revoked st
      \/ exists q pr img,
          promises st !! q = Some pr
          /\ Promise.state pr = Fulfilled (Some img)
          /\ ImageResult.url img = u
}.

Lemma release_rel_refl (st : State) : release_rel st st.
Proof. split; eauto. Qed.

Lemma release_rel_trans (st1 st2 st3 : State) :
  release_rel st1 st2 -> release_rel st2 st3 -> release_rel st1 st3.
Proof.
  intros [Hi Hb Hu Ht Hs Hf Hr Ho] [Hi' Hb' Hu' Ht' Hs' Hf' Hr' Ho'].
  split; [congruence|congruence|congruence|congruence| | | |].
  - intros q. rewrite Hs'. apply Hs.
  - intros q pr Hq Hflag. destruct (Hf q pr Hq Hflag) as (pr' & Hq' & Hflag').
    eapply Hf'; eassumption.
  - set_solver.
  - intros u Hu3. destruct (Ho' u Hu3) as [Hu2|(q & pr & img & Hq & Hst & Hurl)].
    + apply Ho, Hu2.
    + right. specialize (Hs q). rewrite Hq in Hs. cbn in Hs.
      destruct (promises st1 !! q) as [pr1|] eqn:Hq1; [|discriminate Hs].
      exists q, pr1, img. cbn in Hs. split; [exact Hq1|].
      split; [congruence|exact Hurl].
Qed.

Lemma release_rel_release (p : PromiseId) (st : State) :
  release_rel st (release p st).
Proof.
  unfold release.
  destruct (promises st !! p) as [pr|] eqn:Hp; [|apply release_rel_refl].
  destruct (Promise.state pr) as [job|[img|]] eqn:Hstate;
    [| |apply release_rel_refl].
  - split; cbn [promises revoked set_promises];
      [reflexivity|reflexivity|reflexivity|reflexivity| | |set_solver|auto].
    + intros q. destruct (decide (q = p)) as [->|Hne].
      * rewrite list_lookup_insert_eq by (eapply lookup_lt_Some; exact Hp).
        rewrite Hp. cbn. rewrite Hstate. reflexivity.
      * rewrite list_lookup_insert_ne by congruence. reflexivity.
    + intros q pr' Hq Hflag. destruct (decide (q = p)) as [->|Hne].
      * rewrite list_lookup_insert_eq by (eapply lookup_lt_Some; exact Hp).
        eexists. split; reflexivity.
      * rewrite list_lookup_insert_ne by congruence. eauto.
  - split; cbn [promises revoked set_revoked];
      [reflexivity|reflexivity|reflexivity|reflexivity|reflexivity|eauto
      |set_solver|].
    intros u Hu. apply elem_of_union in Hu as [Hu|Hu]; [|left; exact Hu].
    apply elem_of_singleton in Hu. subst u. right.
    exists p, pr, img. auto.
Qed.

(** What a callback of [clear] has done for promise [p]: revoked the URL of
    its image, or marked it for revocation if it is still pending. *)
Definition handled (st : State) (p : PromiseId) : Prop :=
  forall pr,
    promises st !! p = Some pr ->
    match Promise.state pr with
    | Fulfilled (Some img) => ImageResult.url img ∈ revoked st
    | Fulfilled None => True
    | Pending _ => Promise.revokeWhenSettled pr = true
    end.

Lemma handled_release (p : PromiseId) (st : State) : handled (release p st) p.
Proof.
  unfold handled, release. intros pr'.
  destruct (promises st !! p) as [pr|] eqn:Hp; [|rewrite Hp; discriminate].
  destruct (Promise.state pr) as [job|[img|]] eqn:Hstate.
  - cbn [promises set_promises].
    rewrite list_lookup_insert_eq by (eapply lookup_lt_Some; exact Hp).
    intros [= <-]. reflexivity.
  - cbn [promises revoked set_revoked]. rewrite Hp. intros [= <-].
    rewrite Hstate. set_solver.
  - rewrite Hp. intros [= <-]. rewrite Hstate. exact I.
Qed.

Lemma handled_mono (st st' : State) (p : PromiseId) :
  release_rel st st' -> handled st p -> handled st' p.
Proof.
  intros Hrel Hh pr' Hp'.
  pose proof (rel_state _ _ Hrel p) as Hs. rewrite Hp' in Hs. cbn in Hs.
  destruct (promises st !! p) as [pr|] eqn:Hp; [|discriminate Hs].
  cbn in Hs. injection Hs as Hs. specialize (Hh pr Hp).
  rewrite Hs. destruct (Promise.state pr) as [job|[img|]]; [| |exact I].
  - destruct (rel_flag _ _ Hrel p pr Hp Hh) as (pr'' & Hp'' & Hflag).
    congruence.
  - apply (rel_revoked _ _ Hrel), Hh.
Qed.

Lemma clear_fold (st : State) :
  let acc := map_fold (fun _ p acc => release p acc) st (imageMap st) in
  release_rel st acc
  /\ forall key p, imageMap st !! key = Some p -> handled acc p.
Proof.
  cbv zeta.
  apply (map_fold_weak_ind
           (fun acc m => release_rel st acc
                         /\ forall key p, m !! key = Some p -> handled acc p)).
  - split; [apply release_rel_refl|]. intros key p H.
    rewrite lookup_empty in H. discriminate H.
  - intros key p m acc Hnone [Hrel Hall]. split.
    + eapply release_rel_trans; [exact Hrel|apply release_rel_release].
    + intros k q Hk. destruct (decide (key = k)) as [->|Hne].
      * rewrite lookup_insert_eq in Hk. injection Hk as <-.
        apply handled_release.
      * rewrite lookup_insert_ne in Hk by exact Hne.
        eapply handled_mono; [apply release_rel_release|].
        eapply Hall. exact Hk.
Qed.

Lemma clear_shape (st : State) :
  exists acc : State,
    release_rel st acc
    /\ (forall key p, imageMap st !! key = Some p -> handled acc p)
    /\ clear st =
       emit EvClear (set_imageMap (fun _ => ∅) (set_bundleMap (fun _ => ∅) acc)).
Proof.
  destruct (clear_fold st) as [Hrel Hall].
  eexists. split; [exact Hrel|]. split; [exact Hall|reflexivity].
Qed.

(** *** An invariant of the image cache and of the object URLs *)

Lemma String_app_inv_head (s a b : string) : s +:+ a = s +:+ b -> a = b.
Proof.
  induction s as [|c s IH]; simpl; intros H; [exact H|].
  injection H as H. apply IH, H.
Qed.

Lemma blob_url_inj (n m : nat) :
  "blob:" +:+ pretty n = "blob:" +:+ pretty m -> n = m.
Proof.
  intros H. apply String_app_inv_head in H. exact (inj pretty _ _ H).
Qed.

Lemma settled_value_image (st : State) (q : PromiseId) (img : ImageResult.t) :
  settled_value st q = Some (Some img) <->
  exists pr, promises st !! q = Some pr
             /\ Promise.state pr = Fulfilled (Some img).
Proof.
  unfold settled_value. split.
  - destruct (promises st !! q) as [pr|]; [|discriminate].
    destruct (Promise.state pr) as [job|v] eqn:Hs; [discriminate|].
    intros [= ->]. exists pr. auto.
  - intros (pr & -> & ->). reflexivity.
Qed.

Lemma getAssetObj_extends (st st' : State) (fileId : string) (pathId : Z)
  (obj : AssetObject.t) :
  extends st st' ->
  getAssetObj st fileId pathId = Some obj ->
  getAssetObj st' fileId pathId = Some obj.
Proof.
  intros Hext. unfold getAssetObj.
  destruct (bundleMap st !! fileId) as [bundle|] eqn:Hb; [|discriminate].
  rewrite (ext_bundleMap _ _ Hext _ _ Hb). auto.
Qed.

(** Every key of the image map is the key of an image object of a cached
    bundle and leads to a promise that is not marked for revocation; the
    URLs of the images and the revoked URLs were all handed out by the
    counter; and no URL of an image of the image map is revoked. *)
Record live_inv (st : State) : Prop := {
  live_object :
    forall key q,
      imageMap st !! key = Some q ->
      exists fileId pathId obj,
        key = getAssetKey fileId pathId
        /\ getAssetObj st fileId pathId = Some obj
        /\ isImageAssetObj (Some obj) = true;
  live_flag :
    forall key q,
      imageMap st !! key = Some q ->
      exists pr, promises st !! q = Some pr
                 /\ Promise.revokeWhenSettled pr = false;
  live_urls :
    forall q pr img,
      promises st !! q = Some pr ->
      Promise.state pr = Fulfilled (Some img) ->
      exists n, ImageResult.url img = "blob:" +:+ pretty n /\ (n < urls st)%nat;
  live_revoked :
    forall u, u ∈ revoked st ->
              exists n, u = "blob:" +:+ pretty n /\ (n < urls st)%nat;
  live_url :
    forall key q img,
      imageMap st !! key = Some q ->
      settled_value st q = Some (Some img) ->
      ImageResult.url img ∉ revoked st
}.

Lemma live_inv_initial : live_inv initial.
Proof.
  split; cbn.
  - intros key q H. rewrite lookup_empty in H. discriminate H.
  - intros key q H. rewrite lookup_empty in H. discriminate H.
  - intros q pr img H. discriminate H.
  - intros u H. set_solver.
  - intros key q img H. rewrite lookup_empty in H. discriminate H.
Qed.

Lemma live_inv_extends (st st' : State) :
  extends st st' -> live_inv st -> live_inv st'.
Proof.
  intros Hext [Ho Hf Hu Hr Hl].
  pose proof (ext_imageMap _ _ Hext) as Him.
  pose proof (ext_promises _ _ Hext) as Hps.
  pose proof (ext_urls _ _ Hext) as Hus.
  pose proof (ext_revoked _ _ Hext) as Hrs.
  split; unfold settled_value; rewrite ?Him, ?Hps, ?Hus, ?Hrs; auto.
  intros key q Hk. destruct (Ho key q Hk) as (f & p & obj & Hkey & Hobj & Himg).
  exists f, p, obj. split; [exact Hkey|]. split; [|exact Himg].
  eapply getAssetObj_extends; eassumption.
Qed.

Lemma live_inv_published
  (fileId : string) (pathId : Z) (obj : AssetObject.t) (st : State) :
  imageMap st !! getAssetKey fileId pathId = None ->
  getAssetObj st fileId pathId = Some obj ->
  isImageAssetObj (Some obj) = true ->
  live_inv st ->
  live_inv (published (getAssetKey fileId pathId) obj st).
Proof.
  intros Hnone Hobj Himg [Ho Hf Hu Hr Hl].
  set (key := getAssetKey fileId pathId) in *.
  set (st' := published key obj st).
  assert (Him : imageMap st' = <[key := length (promises st)]> (imageMap st))
    by reflexivity.
  assert (Hps : promises st' =
                promises st ++ [{| Promise.state := Pending (getAssetObjPNG_start obj);
                                   Promise.revokeWhenSettled := false |}])
    by reflexivity.
  assert (Hus : urls st' = urls st) by reflexivity.
  assert (Hrs : revoked st' = revoked st) by reflexivity.
  assert (Hget : forall f p, getAssetObj st' f p = getAssetObj st f p)
    by reflexivity.
  assert (Hold : forall q pr, promises st !! q = Some pr ->
                              promises st' !! q = Some pr).
  { intros q pr Hq. rewrite Hps, lookup_app_l by (eapply lookup_lt_Some; exact Hq).
    exact Hq. }
  split.
  - intros k q. rewrite Him. destruct (decide (key = k)) as [<-|Hne].
    + intros _. exists fileId, pathId, obj. rewrite Hget. auto.
    + rewrite lookup_insert_ne by exact Hne. intros Hk.
      destruct (Ho k q Hk) as (f & p & o & H1 & H2 & H3).
      exists f, p, o. rewrite Hget. auto.
  - intros k q. rewrite Him. destruct (decide (key = k)) as [<-|Hne].
    + rewrite lookup_insert_eq. intros [= <-]. eexists.
      split; [rewrite Hps; apply list_lookup_middle; reflexivity|reflexivity].
    + rewrite lookup_insert_ne by exact Hne. intros Hk.
      destruct (Hf k q Hk) as (pr & Hq & Hflag). exists pr. auto.
  - intros q pr img Hq Hst. rewrite Hus. rewrite Hps in Hq.
    apply lookup_app_Some in Hq as [Hq|[_ Hq]]; [eapply Hu; eassumption|].
    destruct (q - length (promises st))%nat; cbn in Hq; [|discriminate Hq].
    injection Hq as <-. discriminate Hst.
  - rewrite Hrs, Hus. exact Hr.
  - intros k q img. rewrite Him, Hrs.
    destruct (decide (key = k)) as [<-|Hne].
    + rewrite lookup_insert_eq. intros [= <-] Hv.
      apply settled_value_image in Hv as (pr & Hq & Hst).
      rewrite Hps, list_lookup_middle in Hq by reflexivity.
      injection Hq as <-. discriminate Hst.
    + rewrite lookup_insert_ne by exact Hne. intros Hk Hv.
      apply (Hl k q img Hk).
      destruct (Hf k q Hk) as (pr & Hq & _).
      unfold settled_value in *. rewrite (Hold q pr Hq) in Hv.
      rewrite Hq. exact Hv.
Qed.

Lemma live_inv_settle (p : PromiseId) (converted : option (list byte))
  (st : State) :
  live_inv st -> live_inv (settle p converted st).
Proof.
  intros Hinv. pose proof (settle_cases p converted st) as Hcases.
  destruct (promises st !! p) as [pr|] eqn:Hp; [|rewrite Hcases; exact Hinv].
  destruct (Promise.state pr) as [job|v0] eqn:Hstate;
    [|rewrite Hcases; exact Hinv].
  rewrite Hcases. clear Hcases.
  destruct Hinv as [Ho Hf Hu Hr Hl].
  pose proof (lookup_lt_Some _ _ _ Hp) as Hlt.
  set (v := settled_image st job converted).
  set (st' := settled_with p pr v st).
  assert (Him : imageMap st' = imageMap st) by reflexivity.
  assert (Hget : forall f q, getAssetObj st' f q = getAssetObj st f q)
    by reflexivity.
  assert (Hps : promises st' =
                <[p := {| Promise.state := Fulfilled v;
                          Promise.revokeWhenSettled :=
                            Promise.revokeWhenSettled pr |}]> (promises st))
    by reflexivity.
  assert (Hus : (urls st <= urls st')%nat)
    by (unfold st', settled_with; cbn [urls]; destruct v; lia).
  assert (Hv : forall img, v = Some img ->
                           ImageResult.url img = "blob:" +:+ pretty (urls st)
                           /\ urls st' = S (urls st)).
  { intros img Himg. unfold st', settled_with. cbn [urls]. rewrite Himg.
    split; [|reflexivity]. unfold v, settled_image in Himg.
    destruct (getAssetObjPNG_finish job converted); [|discriminate Himg].
    injection Himg as <-. reflexivity. }
  assert (Hrs : forall u, u ∈ revoked st' ->
                          u ∈ revoked st
                          \/ (Promise.revokeWhenSettled pr = true
                              /\ exists img, v = Some img
                                             /\ u = ImageResult.url img)).
  { intros u. unfold st', settled_with. cbn [revoked].
    destruct v as [img|]; [|auto].
    destruct (Promise.revokeWhenSettled pr); [|auto].
    intros Hin. apply elem_of_union in Hin as [Hin|Hin]; [|auto].
    apply elem_of_singleton in Hin. right. eauto. }
  split.
  - intros k q. rewrite Him. intros Hk.
    destruct (Ho k q Hk) as (f & pid & o & H1 & H2 & H3).
    exists f, pid, o. rewrite Hget. auto.
  - intros k q. rewrite Him, Hps. intros Hk.
    destruct (Hf k q Hk) as (pr' & Hq & Hflag).
    destruct (decide (q = p)) as [->|Hne].
    + rewrite list_lookup_insert_eq by exact Hlt. eexists. split; [reflexivity|].
      cbn. congruence.
    + rewrite list_lookup_insert_ne by congruence. eauto.
  - intros q pr' img. rewrite Hps. destruct (decide (q = p)) as [->|Hne].
    + rewrite list_lookup_insert_eq by exact Hlt. intros [= <-].
      cbn [Promise.state]. intros [= Himg]. destruct (Hv img Himg) as [Hurl Hnext].
      exists (urls st). split; [exact Hurl|lia].
    + rewrite list_lookup_insert_ne by congruence. intros Hq Hst.
      destruct (Hu q pr' img Hq Hst) as (n & Hn & Hlt'). exists n.
      split; [exact Hn|lia].
  - intros u Hin. destruct (Hrs u Hin) as [Hold|(_ & img & Himg & ->)].
    + destruct (Hr u Hold) as (n & Hn & Hlt'). exists n. split; [exact Hn|lia].
    + destruct (Hv img Himg) as [Hurl Hnext]. exists (urls st).
      split; [exact Hurl|lia].
  - intros k q img. rewrite Him. intros Hk Hsettled Hin.
    apply settled_value_image in Hsettled as (pr' & Hq & Hst).
    destruct (Hf k q Hk) as (pr0 & Hq0 & Hflag0).
    rewrite Hps in Hq. destruct (decide (q = p)) as [->|Hne].
    + rewrite list_lookup_insert_eq in Hq by exact Hlt. injection Hq as <-.
      cbn in Hst. injection Hst as Himg.
      destruct (Hv img Himg) as [Hurl _].
      assert (pr0 = pr) by congruence. subst pr0.
      destruct (Hrs _ Hin) as [Hold|(Hflag & _)]; [|congruence].
      destruct (Hr _ Hold) as (n & Hn & Hlt').
      rewrite Hurl in Hn. apply blob_url_inj in Hn. lia.
    + rewrite list_lookup_insert_ne in Hq by congruence.
      assert (Hsv : settled_value st q = Some (Some img))
        by (apply settled_value_image; eauto).
      destruct (Hrs _ Hin) as [Hold|(_ & img' & Himg' & Heq)].
      * exact (Hl k q img Hk Hsv Hold).
      * destruct (Hv img' Himg') as [Hurl _].
        destruct (Hu q pr' img Hq Hst) as (n & Hn & Hlt').
        rewrite Heq, Hurl in Hn. apply blob_url_inj in Hn. lia.
Qed.

Lemma live_inv_clear (st : State) : live_inv st -> live_inv (clear st).
Proof.
  intros [Ho Hf Hu Hr Hl].
  destruct (clear_shape st) as (acc & Hrel & _ & ->).
  split; cbn [imageMap promises urls revoked emit set_imageMap set_bundleMap].
  - intros key q H. rewrite lookup_empty in H. discriminate H.
  - intros key q H. rewrite lookup_empty in H. discriminate H.
  - intros q pr img Hq Hst. rewrite (rel_urls _ _ Hrel).
    pose proof (rel_state _ _ Hrel q) as Hs. rewrite Hq in Hs. cbn in Hs.
    destruct (promises st !! q) as [pr0|] eqn:Hq0; [|discriminate Hs].
    cbn in Hs. injection Hs as Hs. eapply (Hu q pr0); [exact Hq0|congruence].
  - intros u Hin. rewrite (rel_urls _ _ Hrel).
    destruct (rel_revoked_of _ _ Hrel u Hin)
      as [Hold|(q & pr & img & Hq & Hst & <-)]; [apply Hr, Hold|].
    eapply Hu; eassumption.
  - intros key q img H. rewrite lookup_empty in H. discriminate H.
Qed.

Lemma live_inv_step (r : Request) (st : State) :
  live_inv st -> live_inv (step' st r).
Proof.
  intros Hinv.
  destruct (step_shape_of r st) as [Hext|f p obj Hk Ho Hi ->|p c ->| ->].
  - eapply live_inv_extends; eassumption.
  - apply live_inv_published; assumption.
  - apply live_inv_settle, Hinv.
  - apply live_inv_clear, Hinv.
Qed.

Lemma live_inv_run (rs : list Request) :
  forall st, live_inv st -> live_inv (run' st rs).
Proof.
  induction rs as [|r rs IH]; intros st Hinv; [exact Hinv|].
  cbn [run fold_left]. apply IH, live_inv_step, Hinv.
Qed.

(** *** Image requests *)

Lemma loadImage_result (fileId : string) (pathId : Z) (st : State) :
  (exists q,
      loadImage fileId pathId st =
        (Later q (fun v => v), snd (loadImage fileId pathId st))
      /\ imageMap (snd (loadImage fileId pathId st))
           !! getAssetKey fileId pathId = Some q)
  \/ (loadImage fileId pathId st = (Now None, st)
      /\ imageMap st !! getAssetKey fileId pathId = None
      /\ isImageAssetObj (getAssetObj st fileId pathId) = false).
Proof.
  destruct (imageMap st !! getAssetKey fileId pathId) as [p|] eqn:Hkey.
  - left. exists p. rewrite (loadImage_hit _ _ _ _ Hkey). auto.
  - destruct (getAssetObj st fileId pathId) as [obj|] eqn:Hobj.
    + destruct (isImageAssetObj (Some obj)) eqn:Himg.
      * left. exists (length (promises st)).
        rewrite (loadImage_start _ _ _ _ Hkey Hobj Himg).
        split; [reflexivity|]. cbn. apply lookup_insert_eq.
      * right. split; [|auto]. unfold loadImage. rewrite Hkey, Hobj.
        unfold isImageAssetObj in Himg.
        apply orb_false_elim in Himg as [-> ->]. reflexivity.
    + right. split; [|auto]. unfold loadImage. rewrite Hkey, Hobj. reflexivity.
Qed.

Lemma loadImage_now (fileId : string) (pathId : Z) (st : State) :
  live_inv st ->
  isImageAssetObj (getAssetObj st fileId pathId) = false ->
  loadImage fileId pathId st = (Now None, st).
Proof.
  intros Hinv Himg.
  destruct (imageMap st !! getAssetKey fileId pathId) as [q|] eqn:Hkey.
  - destruct (live_object _ Hinv _ _ Hkey) as (f & p & obj & Heq & Hobj & Hi).
    apply getAssetKey_eq in Heq as [<- <-]. rewrite Hobj in Himg. congruence.
  - unfold loadImage. rewrite Hkey.
    destruct (getAssetObj st fileId pathId) as [obj|]; [|reflexivity].
    unfold isImageAssetObj in Himg.
    apply orb_false_elim in Himg as [-> ->]. reflexivity.
Qed.

(** X11.  In every state the worker can reach, an image request is answered
    at once with nothing exactly when the object is missing or is not a
    Sprite or Texture2D; such a request leaves the worker as it was: no
    promise is created and no decode is started. *)
Theorem getImageUrl_absent
  (before : list Request) (fileId : string) (pathId : Z) :
  let st := run' initial before in
  (fst (getImageUrl fileId pathId st) = Now None
   <-> isImageAssetObj (getAssetObj st fileId pathId) = false)
  /\ (fst (getImageUrl fileId pathId st) = Now None ->
      snd (getImageUrl fileId pathId st) = st).
Proof.
  intros st.
  assert (Hinv : live_inv st) by apply live_inv_run, live_inv_initial.
  unfold getImageUrl.
  destruct (loadImage_result fileId pathId st)
    as [(q & Hload & Hq)|(Hload & Hkey & Himg)]; rewrite Hload; cbn [fst snd Async_map].
  - split; [|discriminate]. split; [discriminate|]. intros Himg.
    rewrite (loadImage_now _ _ _ Hinv Himg) in Hload. discriminate Hload.
  - split; [|reflexivity]. split; [intros _; exact Himg|reflexivity].
Qed.

(** X12.  A URL the worker answers an image request with is a live one:
    from any history, when a request made before any requests that do not
    clear the cache has resolved to a URL, that URL has not been
    revoked. *)
Theorem image_url_live
  (before during : list Request) (fileId : string) (pathId : Z) (url : string) :
  forallb (fun r => negb (is_clear r)) during = true ->
  let st0 := run' initial before in
  let first := fst (getImageUrl fileId pathId st0) in
  let st1 := snd (getImageUrl fileId pathId st0) in
  let st2 := run' st1 during in
  await st2 first = Some (Some url) ->
  url ∉ revoked st2.
Proof.
  intros Hduring st0 first st1 st2 Hawait.
  assert (Hinv2 : live_inv st2).
  { apply live_inv_run.
    change st1 with (step' st0 (CallGetImageUrl fileId pathId)).
    apply live_inv_step, live_inv_run, live_inv_initial. }
  assert (Hst1 : st1 = snd (loadImage fileId pathId st0))
    by apply getImageUrl_state.
  subst first. unfold getImageUrl in Hawait.
  destruct (loadImage_result fileId pathId st0)
    as [(q & Hload & Hq)|(Hload & _)]; rewrite Hload in Hawait;
    cbn [fst Async_map await] in Hawait; [|discriminate Hawait].
  rewrite <- Hst1 in Hq.
  pose proof (published_run calcMd5 loadAssetBundle String_toLowerCase
                spreadError during _ q st1 Hduring Hq) as Hq2.
  fold st2 in Hq2.
  destruct (settled_value st2 q) as [[img|]|] eqn:Hv; try discriminate Hawait.
  cbn in Hawait. injection Hawait as <-.
  exact (live_url _ Hinv2 _ _ _ Hq2 Hv).
Qed.

Lemma bundleMap_run (rs : list Request) (k : string) (bundle : Bundle.t) :
  forall st : State,
    forallb (fun r => negb (is_clear r)) rs = true ->
    bundleMap st !! k = Some bundle ->
    bundleMap (run' st rs) !! k = Some bundle.
Proof.
  induction rs as [|r rs IH]; intros st Hrs Hb; [exact Hb|].
  cbn in Hrs. apply andb_prop in Hrs as [Hr Hrs].
  cbn [run fold_left]. apply IH; [exact Hrs|]. clear IH Hrs.
  apply negb_true_iff in Hr. destruct (is_settled r) eqn:Hs.
  - destruct r as [| | | |p c| | | |]; try discriminate Hs. cbn [step].
    destruct (settle_effect p c st) as (_ & Hb' & _). rewrite Hb'. exact Hb.
  - destruct (step_call_effect calcMd5 loadAssetBundle String_toLowerCase
                spreadError r st Hr Hs) as [Hext|k' job _ _ _ _ Hb'].
    + apply (ext_bundleMap _ _ Hext), Hb.
    + rewrite Hb'. exact Hb.
Qed.

(** X13.  Until the cache is cleared, an object that can be found stays
    the same object, whatever is requested: loading further files, a
    second file with the same content hash included, never replaces or
    drops a cached bundle, and a load of that content returns without
    calling the parser. *)
Theorem getAssetObj_stable
  (rs : list Request) (st : State) (fileId : string) (pathId : Z)
  (obj : AssetObject.t) :
  forallb (fun r => negb (is_clear r)) rs = true ->
  getAssetObj st fileId pathId = Some obj ->
  getAssetObj (run' st rs) fileId pathId = Some obj
  /\ forall (file : File.t) (options : BundleLoadOptions.t),
      calcMd5 (File.bytes file) = fileId ->
      trace (snd (loadFile' file options (run' st rs))) = trace (run' st rs).
Proof.
  intros Hrs. unfold getAssetObj.
  destruct (bundleMap st !! fileId) as [bundle|] eqn:Hb; [|discriminate].
  pose proof (bundleMap_run rs fileId bundle st Hrs Hb) as Hb'.
  rewrite Hb'. intros Hobj. split; [exact Hobj|].
  intros file options Hmd5.
  pose proof (loadFile_cases calcMd5 loadAssetBundle String_toLowerCase
                file options (run' st rs)) as Hcases.
  cbv zeta in Hcases. rewrite Hmd5, Hb' in Hcases. rewrite Hcases. reflexivity.
Qed.

(** *** Clearing *)

(** A pending promise that [clear] has marked. *)
Definition marked (st : State) (p : PromiseId) (job : DecodeJob) : Prop :=
  exists pr, promises st !! p = Some pr
             /\ Promise.state pr = Pending job
             /\ Promise.revokeWhenSettled pr = true.

Lemma marked_step (r : Request) (st : State) (p : PromiseId) (job : DecodeJob) :
  is_settled_of p r = false ->
  marked st p job -> marked (step' st r) p job.
Proof.
  intros Hp (pr & Hpr & Hjob & Hflag).
  destruct (is_clear r) eqn:Hc; [|destruct (is_settled r) eqn:Hs].
  - destruct r; try discriminate Hc. cbn [step].
    destruct (clear_shape st) as (acc & Hrel & _ & ->).
    cbn [promises emit set_imageMap set_bundleMap].
    destruct (rel_flag _ _ Hrel p pr Hpr Hflag) as (pr' & Hpr' & Hflag').
    exists pr'. split; [exact Hpr'|]. split; [|exact Hflag'].
    pose proof (rel_state _ _ Hrel p) as Hst. rewrite Hpr, Hpr' in Hst.
    cbn in Hst. congruence.
  - destruct r as [| | | |q c| | | |]; try discriminate Hs. cbn [step].
    cbn in Hp. apply Nat.eqb_neq in Hp.
    destruct (settle_effect q c st) as (_ & _ & _ & _ & Hother & _).
    exists pr. rewrite (Hother p) by congruence. auto.
  - destruct (step_call_effect calcMd5 loadAssetBundle String_toLowerCase
                spreadError r st Hc Hs) as [Hext|k job' _ _ Hps _ _].
    + exists pr. rewrite (ext_promises _ _ Hext). auto.
    + exists pr. rewrite Hps, lookup_app_l by (eapply lookup_lt_Some; exact Hpr).
      auto.
Qed.

Lemma marked_run (rs : list Request) (p : PromiseId) (job : DecodeJob) :
  forall st,
    forallb (fun r => negb (is_settled_of p r)) rs = true ->
    marked st p job -> marked (run' st rs) p job.
Proof.
  induction rs as [|r rs IH]; intros st Hrs Hm; [exact Hm|].
  cbn in Hrs. apply andb_prop in Hrs as [Hr Hrs].
  cbn [run fold_left]. apply IH; [exact Hrs|].
  apply marked_step; [|exact Hm]. apply negb_true_iff, Hr.
Qed.

Lemma settled_value_release_rel (st st' : State) (q : PromiseId) :
  release_rel st st' -> settled_value st' q = settled_value st q.
Proof.
  intros Hrel. unfold settled_value.
  pose proof (rel_state _ _ Hrel q) as Hs.
  destruct (promises st' !! q) as [pr'|], (promises st !! q) as [pr|];
    cbn in Hs; try discriminate Hs; [|reflexivity].
  injection Hs as ->. reflexivity.
Qed.

(** X14.  [clear] releases every URL of the image map and changes no
    result: an image that had resolved keeps its value, and its URL is
    revoked when [clear] returns; a decode still under way is left to end,
    whatever is requested in between, and when it ends with an image, the
    requests waiting for it resolve to a URL that is revoked at once. *)
Theorem clear_revokes (st : State) (key : string) (p : PromiseId) :
  imageMap st !! key = Some p ->
  (forall q, settled_value (clear st) q = settled_value st q)
  /\ (forall img,
         settled_value st p = Some (Some img) ->
         ImageResult.url img ∈ revoked (clear st))
  /\ (forall (job : DecodeJob) (during : list Request)
             (converted : option (list byte)) (buffer : list byte),
         pending_with st p job ->
         forallb (fun r => negb (is_settled_of p r)) during = true ->
         getAssetObjPNG_finish job converted = Some buffer ->
         let st1 := run' (clear st) during in
         let st2 := settle p converted st1 in
         let url := "blob:" +:+ pretty (urls st1) in
         settled_value st2 p =
           Some (Some {| ImageResult.url := url; ImageResult.blob := buffer |})
         /\ url ∈ revoked st2).
Proof.
  intros Hkey.
  destruct (clear_shape st) as (acc & Hrel & Hall & Hclear).
  assert (Hsame : forall q, settled_value (clear st) q = settled_value st q).
  { intros q. rewrite Hclear. apply (settled_value_release_rel st acc q Hrel). }
  split; [exact Hsame|]. split.
  - intros img Hv. rewrite <- Hsame in Hv. rewrite Hclear in Hv |- *.
    apply settled_value_image in Hv as (pr & Hpr & Hstate).
    cbn [promises revoked emit set_imageMap set_bundleMap] in Hpr |- *.
    pose proof (Hall key p Hkey pr Hpr) as Hh. rewrite Hstate in Hh. exact Hh.
  - intros job during converted buffer (pr & Hpr & Hjob) Hduring Hfinish st1 st2 url.
    assert (Hmarked : marked (clear st) p job).
    { rewrite Hclear. unfold marked.
      cbn [promises emit set_imageMap set_bundleMap].
      pose proof (rel_state _ _ Hrel p) as Hs. rewrite Hpr in Hs.
      destruct (promises acc !! p) as [pr'|] eqn:Hpr'; [|discriminate Hs].
      cbn in Hs. injection Hs as Hs. exists pr'. split; [reflexivity|].
      split; [congruence|].
      pose proof (Hall key p Hkey pr' Hpr') as Hh.
      rewrite Hs, Hjob in Hh. exact Hh. }
    destruct (marked_run during p job _ Hduring Hmarked)
      as (pr1 & Hpr1 & Hjob1 & Hflag1).
    fold st1 in Hpr1.
    pose proof (settle_cases p converted st1) as Hcases.
    rewrite Hpr1, Hjob1 in Hcases. fold st2 in Hcases.
    unfold settled_image in Hcases. rewrite Hfinish in Hcases.
    rewrite Hcases. unfold settled_value, settled_with.
    cbn [promises revoked ImageResult.url].
    rewrite list_lookup_insert_eq by (eapply lookup_lt_Some; exact Hpr1).
    cbn [Promise.state]. split; [reflexivity|].
    rewrite Hflag1. set_solver.
Qed.

(** *** The entries of an archive *)

Lemma Map_set_In {V} (m : list (string * V)) (k k' : string) (v v' : V) :
  In (k', v') (Map_set m k v) -> (k' = k /\ v' = v) \/ In (k', v') m.
Proof.
  induction m as [|[k0 v0] m IH]; cbn [Map_set].
  - intros [[= <- <-]|[]]. auto.
  - destruct (String.eqb k0 k).
    + intros [[= <- <-]|Hin]; [auto|]. right. right. exact Hin.
    + intros [Heq|Hin]; [right; left; exact Heq|].
      destruct (IH Hin) as [?|?]; [auto|]. right. right. assumption.
Qed.

Lemma Map_set_fst {V} (m : list (string * V)) (k : string) (v : V) :
  map fst (Map_set m k v) =
  if existsb (String.eqb k) (map fst m) then map fst m else map fst m ++ [k].
Proof.
  induction m as [|[k0 v0] m IH]; [reflexivity|].
  cbn [Map_set map fst existsb].
  rewrite (String.eqb_sym k k0).
  destruct (String.eqb k0 k) eqn:E; cbn [orb map fst].
  - apply String.eqb_eq in E. subst k0. reflexivity.
  - rewrite IH. destruct (existsb (String.eqb k) (map fst m)); reflexivity.
Qed.

Lemma objMap_fold (st : State) (params : list ExportParam.t) :
  forall m : list (string * ExportEntry.t),
    List.NoDup (map fst m) ->
    let m' := fold_left (fun m p => Map_set m (ExportEntry.key (exportEntry st p))
                                            (exportEntry st p)) params m in
    List.NoDup (map fst m')
    /\ (forall key, In key (map fst m') <->
                    In key (map fst m)
                    \/ exists p, In p params
                                 /\ ExportEntry.key (exportEntry st p) = key)
    /\ (forall key entry,
           In (key, entry) m' ->
           In (key, entry) m
           \/ (ExportEntry.key entry = key
               /\ exists p, In p params /\ entry = exportEntry st p))
    /\ (length m' <= length m + length params)%nat.
Proof.
  induction params as [|p params IH]; intros m Hnodup; cbn [fold_left].
  - split; [exact Hnodup|]. split; [|split; [auto|cbn; lia]].
    intros key. split; [auto|]. intros [H|(p & [] & _)]. exact H.
  - set (k := ExportEntry.key (exportEntry st p)).
    set (e := exportEntry st p).
    assert (Hfst := Map_set_fst m k e).
    assert (Hnodup' : List.NoDup (map fst (Map_set m k e))).
    { rewrite Hfst. destruct (existsb (String.eqb k) (map fst m)) eqn:E;
        [exact Hnodup|].
      apply List.NoDup_app; [exact Hnodup|repeat constructor; intros []|].
      intros x Hx [Hk|[]]. subst x.
      assert (existsb (String.eqb k) (map fst m) = true); [|congruence].
      apply existsb_exists. exists k. split; [exact Hx|apply String.eqb_refl]. }
    destruct (IH (Map_set m k e) Hnodup') as (H1 & H2 & H3 & H4).
    split; [exact H1|]. split; [|split].
    + intros key. rewrite H2, Hfst. split.
      * intros [Hin|(q & Hq & Hkey)].
        -- destruct (existsb (String.eqb k) (map fst m)); [auto|].
           apply in_app_or in Hin as [Hin|[<-|[]]]; [auto|].
           right. exists p. split; [left; reflexivity|reflexivity].
        -- right. exists q. split; [right; exact Hq|exact Hkey].
      * intros [Hin|(q & [<-|Hq] & Hkey)].
        -- left. destruct (existsb (String.eqb k) (map fst m)); [exact Hin|].
           apply in_or_app. auto.
        -- left. fold k in Hkey. subst key.
           destruct (existsb (String.eqb k) (map fst m)) eqn:E.
           ++ apply existsb_exists in E as (x & Hx & Heq).
              apply String.eqb_eq in Heq. subst x. exact Hx.
           ++ apply in_or_app. right. left. reflexivity.
        -- right. exists q. auto.
    + intros key entry Hin. destruct (H3 key entry Hin) as [Hm|(Hk & q & Hq & He)].
      * destruct (Map_set_In _ _ _ _ _ Hm) as [[-> ->]|Hold]; [|auto].
        right. split; [reflexivity|]. exists p. split; [left; reflexivity|reflexivity].
      * right. split; [exact Hk|]. exists q. split; [right; exact Hq|exact He].
    + assert (length (Map_set m k e) <= S (length m))%nat.
      { rewrite <- (length_map fst (Map_set m k e)), Hfst.
        destruct (existsb _ _); rewrite ?length_app, !length_map; cbn; lia. }
      cbn [length]. lia.
Qed.

(** X15.  The archive gets one entry per asset, however often the asset
    was selected: the keys of the entries of [exportAssets] are distinct,
    they are the keys of the selection, every entry is filed under its own
    key with the object found for it, and there are no more entries than
    selections. *)
Theorem exportAssets_objMap_keys (st : State) (params : list ExportParam.t) :
  let objMap := exportAssets_objMap st params in
  List.NoDup (map fst objMap)
  /\ (forall key,
         In key (map fst objMap) <->
         exists p, In p params
                   /\ getAssetKey (ExportParam.fileId p) (ExportParam.pathId p) = key)
  /\ (forall key entry,
         In (key, entry) objMap ->
         ExportEntry.key entry = key
         /\ exists p, In p params /\ entry = exportEntry st p)
  /\ (length objMap <= length params)%nat.
Proof.
  destruct (objMap_fold st params [] ltac:(constructor)) as (H1 & H2 & H3 & H4).
  split; [exact H1|]. split; [|split].
  - intros key. rewrite H2. cbn [map In]. split; [intros [[]|H]; exact H|auto].
  - intros key entry Hin. destruct (H3 key entry Hin) as [[]|H]. exact H.
  - exact H4.
Qed.

(** *** The preparation of an export *)

(** The encoded image the cache holds for [key], if its entry has resolved
    to one. *)
Definition cached_blob (st : State) (key : string) : option (list byte) :=
  match imageMap st !! key with
  | Some image =>
      match settled_value st image with
      | Some (Some img) => Some (ImageResult.blob img)
      | _ => None
      end
  | None => None
  end.

Definition data_of (st : State) (data : ExportEntry.t)
  : list (string * list byte) :=
  match ExportEntry.obj data, cached_blob st (ExportEntry.key data) with
  | Some _, Some blob => [(ExportEntry.key data, blob)]
  | _, _ => []
  end.

Definition bitmap_of (st : State) (data : ExportEntry.t)
  : list (string * ImgBitMap.t) :=
  match ExportEntry.obj data, cached_blob st (ExportEntry.key data) with
  | Some obj, None =>
      match AssetObject.getImageBitmap obj with
      | Some bitmap => [(ExportEntry.key data, bitmap)]
      | None => []
      end
  | _, _ => []
  end.

Definition asked_of (st : State) (data : ExportEntry.t) : list Event :=
  match ExportEntry.obj data, cached_blob st (ExportEntry.key data) with
  | Some _, None => [EvExportDecode (ExportEntry.key data)]
  | _, _ => []
  end.

Lemma prepare_image_cases
  (key : string) (obj : AssetObject.t) (acc : Prepared.t) (st : State) :
  prepare_image key obj acc st =
  match cached_blob st key with
  | Some blob =>
      ({| Prepared.imgData := Prepared.imgData acc ++ [(key, blob)];
          Prepared.imgBitmaps := Prepared.imgBitmaps acc |}, st)
  | None =>
      (match AssetObject.getImageBitmap obj with
       | Some bitmap =>
           {| Prepared.imgData := Prepared.imgData acc;
              Prepared.imgBitmaps := Prepared.imgBitmaps acc ++ [(key, bitmap)] |}
       | None => acc
       end, emit (EvExportDecode key) st)
  end.
Proof.
  unfold prepare_image, cached_blob.
  destruct (imageMap st !! key) as [image|];
    [destruct (settled_value st image) as [[img|]|]|];
    destruct (AssetObject.getImageBitmap obj); reflexivity.
Qed.

Lemma prepare_fold (st : State) (entries : list ExportEntry.t) :
  forall (acc : Prepared.t) (st0 : State),
    imageMap st0 = imageMap st ->
    promises st0 = promises st ->
    let r := fold_left
               (fun '(acc, st) data =>
                  match ExportEntry.obj data with
                  | Some obj => prepare_image (ExportEntry.key data) obj acc st
                  | None => (acc, st)
                  end) entries (acc, st0) in
    Prepared.imgData (fst r) = Prepared.imgData acc ++ flat_map (data_of st) entries
    /\ Prepared.imgBitmaps (fst r) =
       Prepared.imgBitmaps acc ++ flat_map (bitmap_of st) entries
    /\ trace (snd r) = rev (flat_map (asked_of st) entries) ++ trace st0
    /\ bundleMap (snd r) = bundleMap st0
    /\ imageMap (snd r) = imageMap st0
    /\ promises (snd r) = promises st0
    /\ urls (snd r) = urls st0
    /\ revoked (snd r) = revoked st0.
Proof.
  induction entries as [|data entries IH]; intros acc st0 Him Hps; cbv zeta.
  - cbn. rewrite !app_nil_r. repeat split; reflexivity.
  - cbn [fold_left flat_map].
    assert (Hcached : cached_blob st0 (ExportEntry.key data)
                      = cached_blob st (ExportEntry.key data)).
    { unfold cached_blob, settled_value. rewrite Him, Hps. reflexivity. }
    unfold data_of at 1, bitmap_of at 1, asked_of at 1.
    destruct (ExportEntry.obj data) as [obj|].
    + rewrite prepare_image_cases, Hcached.
      destruct (cached_blob st (ExportEntry.key data)) as [blob|].
      * destruct (IH {| Prepared.imgData :=
                          Prepared.imgData acc ++ [(ExportEntry.key data, blob)];
                        Prepared.imgBitmaps := Prepared.imgBitmaps acc |}
                     st0 Him Hps) as (H1 & H2 & H3 & H4).
        cbn [Prepared.imgData Prepared.imgBitmaps] in H1, H2.
        rewrite H1, H2, H3, <- app_assoc. cbn [app rev].
        split; [reflexivity|]. split; [reflexivity|]. split; [reflexivity|].
        exact H4.
      * destruct (IH (match AssetObject.getImageBitmap obj with
                      | Some bitmap =>
                          {| Prepared.imgData := Prepared.imgData acc;
                             Prepared.imgBitmaps :=
                               Prepared.imgBitmaps acc
                               ++ [(ExportEntry.key data, bitmap)] |}
                      | None => acc
                      end)
                     (emit (EvExportDecode (ExportEntry.key data)) st0) Him Hps)
          as (H1 & H2 & H3 & H4).
        rewrite H1, H2, H3. cbn [trace emit app rev].
        rewrite <- ?app_assoc. cbn [app].
        split; [destruct (AssetObject.getImageBitmap obj); reflexivity|].
        split; [|split; [reflexivity|exact H4]].
        destruct (AssetObject.getImageBitmap obj);
          cbn [Prepared.imgBitmaps app]; rewrite <- ?app_assoc; reflexivity.
    + destruct (IH acc st0 Him Hps) as (H1 & H2 & H3 & H4).
      rewrite H1, H2, H3. cbn [app rev]. auto.
Qed.

Lemma NoDup_map_filter {A B} (f : A -> B) (P : A -> bool) (l : list A) :
  List.NoDup (map f l) -> List.NoDup (map f (List.filter P l)).
Proof.
  induction l as [|a l IH]; [auto|]. cbn [map List.filter].
  intros Hnd. apply List.NoDup_cons_iff in Hnd as [Hnotin Hnd].
  destruct (P a); [|apply IH, Hnd]. cbn [map].
  apply List.NoDup_cons_iff. split; [|apply IH, Hnd].
  intros Hin. apply Hnotin. apply in_map_iff in Hin as (x & Hx & Hin).
  apply List.filter_In in Hin as [Hin _]. apply in_map_iff. eauto.
Qed.

Lemma NoDup_flat_map_keys {V}
  (f : ExportEntry.t -> list (string * V)) (entries : list ExportEntry.t) :
  (forall data, f data = [] \/ exists v, f data = [(ExportEntry.key data, v)]) ->
  List.NoDup (map ExportEntry.key entries) ->
  List.NoDup (map fst (flat_map f entries))
  /\ forall k, In k (map fst (flat_map f entries)) ->
               In k (map ExportEntry.key entries).
Proof.
  intros Hf. induction entries as [|data entries IH]; intros Hnd.
  - split; [constructor|auto].
  - apply List.NoDup_cons_iff in Hnd as [Hnotin Hnd].
    destruct (IH Hnd) as [IH1 IH2]. cbn [flat_map map].
    destruct (Hf data) as [->|(v & ->)]; cbn [app map fst].
    + split; [exact IH1|]. intros k Hk. right. auto.
    + split.
      * apply List.NoDup_cons_iff. split; [|exact IH1].
        intros Hin. apply Hnotin, IH2, Hin.
      * intros k [<-|Hk]; [left; reflexivity|right; auto].
Qed.

(** The selected images, as the loop of [exportAssets] goes through them. *)
Definition imgObjs (st : State) (params : list ExportParam.t)
  : list ExportEntry.t :=
  List.filter (fun data => isImageAssetObj (ExportEntry.obj data))
              (map snd (exportAssets_objMap st params)).

Lemma imgObjs_spec (st : State) (params : list ExportParam.t) :
  List.NoDup (map ExportEntry.key (imgObjs st params))
  /\ forall data,
      In data (imgObjs st params) ->
      isImageAssetObj (ExportEntry.obj data) = true
      /\ exists p, In p params /\ data = exportEntry st p.
Proof.
  destruct (objMap_fold st params [] ltac:(constructor)) as (H1 & _ & H3 & _).
  cbv zeta in H1, H3. fold (exportAssets_objMap st params) in H1, H3.
  assert (Hkeys : map ExportEntry.key (map snd (exportAssets_objMap st params))
                  = map fst (exportAssets_objMap st params)).
  { rewrite List.map_map. apply map_ext_in. intros [k e] Hin.
    destruct (H3 k e Hin) as [[]|[Hk _]]. exact Hk. }
  split.
  - apply NoDup_map_filter. rewrite Hkeys. exact H1.
  - intros data Hin. apply List.filter_In in Hin as [Hin Himg].
    split; [exact Himg|]. apply in_map_iff in Hin as ([k e] & <- & Hin).
    destruct (H3 k e Hin) as [[]|[_ Hp]]. exact Hp.
Qed.

Lemma exportAssets_prepare_fold (params : list ExportParam.t) (st : State) :
  let r := exportAssets_prepare params st in
  Prepared.imgData (fst r) = flat_map (data_of st) (imgObjs st params)
  /\ Prepared.imgBitmaps (fst r) = flat_map (bitmap_of st) (imgObjs st params)
  /\ trace (snd r) = rev (flat_map (asked_of st) (imgObjs st params)) ++ trace st
  /\ bundleMap (snd r) = bundleMap st
  /\ imageMap (snd r) = imageMap st
  /\ promises (snd r) = promises st
  /\ urls (snd r) = urls st
  /\ revoked (snd r) = revoked st.
Proof.
  exact (prepare_fold st (imgObjs st params)
           {| Prepared.imgData := []; Prepared.imgBitmaps := [] |} st
           eq_refl eq_refl).
Qed.

Lemma cached_blob_Some (st : State) (key : string) (blob : list byte) :
  cached_blob st key = Some blob <->
  exists q img, imageMap st !! key = Some q
                /\ settled_value st q = Some (Some img)
                /\ ImageResult.blob img = blob.
Proof.
  unfold cached_blob. split.
  - destruct (imageMap st !! key) as [q|]; [|discriminate].
    destruct (settled_value st q) as [[img|]|] eqn:Hv; try discriminate.
    intros [= <-]. eauto.
  - intros (q & img & -> & -> & <-). reflexivity.
Qed.

Lemma imgObjs_complete
  (st : State) (params : list ExportParam.t) (p : ExportParam.t)
  (obj : AssetObject.t) :
  In p params ->
  getAssetObj st (ExportParam.fileId p) (ExportParam.pathId p) = Some obj ->
  isImageAssetObj (Some obj) = true ->
  exists data,
    In data (imgObjs st params)
    /\ ExportEntry.key data
       = getAssetKey (ExportParam.fileId p) (ExportParam.pathId p)
    /\ ExportEntry.obj data = Some obj.
Proof.
  intros Hp Hobj Himg.
  destruct (objMap_fold st params [] ltac:(constructor)) as (_ & H2 & H3 & _).
  cbv zeta in H2, H3. fold (exportAssets_objMap st params) in H2, H3.
  assert (Hkey : In (getAssetKey (ExportParam.fileId p) (ExportParam.pathId p))
                    (map fst (exportAssets_objMap st params))).
  { apply H2. right. exists p. split; [exact Hp|reflexivity]. }
  apply in_map_iff in Hkey as ([k e] & Hk & Hin). cbn [fst] in Hk. subst k.
  destruct (H3 _ e Hin) as [[]|(Hke & p' & _ & He)].
  assert (Hsame : ExportEntry.obj e = Some obj).
  { subst e. cbn [ExportEntry.key ExportEntry.obj exportEntry] in Hke |- *.
    destruct (getAssetKey_eq _ _ _ _ Hke) as [-> ->]. exact Hobj. }
  exists e. split; [|split; [exact Hke|exact Hsame]].
  apply List.filter_In. split.
  - apply in_map_iff. exists (getAssetKey (ExportParam.fileId p)
                                          (ExportParam.pathId p), e).
    split; [reflexivity|exact Hin].
  - rewrite Hsame. exact Himg.
Qed.

Lemma sublist_flat_map_keys {V}
  (f : ExportEntry.t -> list (string * V)) (entries : list ExportEntry.t) :
  (forall data, f data = [] \/ exists v, f data = [(ExportEntry.key data, v)]) ->
  sublist (map fst (flat_map f entries)) (map ExportEntry.key entries).
Proof.
  intros Hf. induction entries as [|data entries IH]; [constructor|].
  cbn [flat_map map]. destruct (Hf data) as [->|(v & ->)]; cbn [app map fst].
  - apply sublist_cons, IH.
  - apply sublist_skip, IH.
Qed.

Lemma imgObjs_order (st : State) (params : list ExportParam.t) :
  sublist (map ExportEntry.key (imgObjs st params))
          (map fst (exportAssets_objMap st params)).
Proof.
  destruct (objMap_fold st params [] ltac:(constructor)) as (_ & _ & H3 & _).
  cbv zeta in H3. fold (exportAssets_objMap st params) in H3.
  unfold imgObjs.
  assert (Hown : forall k e, In (k, e) (exportAssets_objMap st params) ->
                             ExportEntry.key e = k).
  { intros k e Hin. destruct (H3 k e Hin) as [[]|[Hk _]]. exact Hk. }
  revert Hown. generalize (exportAssets_objMap st params) as m.
  induction m as [|[k e] m IH]; intros Hown; [constructor|].
  cbn [map List.filter snd fst].
  assert (Hrest : forall k' e', In (k', e') m -> ExportEntry.key e' = k')
    by (intros k' e' Hin; apply Hown; right; exact Hin).
  destruct (isImageAssetObj (ExportEntry.obj e)); cbn [map].
  - rewrite (Hown k e ltac:(left; reflexivity)). apply sublist_skip, IH, Hrest.
  - apply sublist_cons, IH, Hrest.
Qed.

Lemma data_of_cases (st : State) (data : ExportEntry.t) :
  data_of st data = []
  \/ exists blob, data_of st data = [(ExportEntry.key data, blob)].
Proof.
  unfold data_of. destruct (ExportEntry.obj data); [|auto].
  destruct (cached_blob st (ExportEntry.key data)); eauto.
Qed.

Lemma bitmap_of_cases (st : State) (data : ExportEntry.t) :
  bitmap_of st data = []
  \/ exists bitmap, bitmap_of st data = [(ExportEntry.key data, bitmap)].
Proof.
  unfold bitmap_of. destruct (ExportEntry.obj data) as [obj|]; [|auto].
  destruct (cached_blob st (ExportEntry.key data)); [auto|].
  destruct (AssetObject.getImageBitmap obj); eauto.
Qed.

(** X16.  The preparation of an export sorts every selected image once.
    The images taken from the cache are exactly the selected images whose
    cache entry has resolved to an image, each with the cached bytes; the
    images queued for conversion are exactly the other selected images
    that have a bitmap, each with that bitmap, their cache entry being
    absent, unsettled or resolved to nothing; an image without a bitmap
    and a selection that is no image of a loaded bundle are left out.
    Neither list names a key twice, both follow the order of the entries
    of the archive, and the two caches, the URL counter and the revoked
    URLs are left as they were. *)
Theorem exportAssets_prepare_sorted (params : list ExportParam.t) (st : State) :
  let prepared := fst (exportAssets_prepare params st) in
  let st' := snd (exportAssets_prepare params st) in
  let selected key obj :=
    exists p,
      In p params
      /\ getAssetKey (ExportParam.fileId p) (ExportParam.pathId p) = key
      /\ getAssetObj st (ExportParam.fileId p) (ExportParam.pathId p)
         = Some obj
      /\ isImageAssetObj (Some obj) = true in
  (bundleMap st' = bundleMap st /\ imageMap st' = imageMap st
   /\ promises st' = promises st /\ urls st' = urls st
   /\ revoked st' = revoked st)
  /\ (forall key blob,
         In (key, blob) (Prepared.imgData prepared) <->
         (exists obj, selected key obj)
         /\ exists q img,
             imageMap st !! key = Some q
             /\ settled_value st q = Some (Some img)
             /\ ImageResult.blob img = blob)
  /\ (forall key bitmap,
         In (key, bitmap) (Prepared.imgBitmaps prepared) <->
         (forall q img, imageMap st !! key = Some q ->
                        settled_value st q <> Some (Some img))
         /\ exists obj,
             selected key obj
             /\ AssetObject.getImageBitmap obj = Some bitmap)
  /\ List.NoDup (map fst (Prepared.imgData prepared))
  /\ List.NoDup (map fst (Prepared.imgBitmaps prepared))
  /\ sublist (map fst (Prepared.imgData prepared))
             (map fst (exportAssets_objMap st params))
  /\ sublist (map fst (Prepared.imgBitmaps prepared))
             (map fst (exportAssets_objMap st params)).
Proof.
  intros prepared st' selected.
  destruct (exportAssets_prepare_fold params st)
    as (Hdata & Hbitmaps & _ & Hb & Hi & Hp & Hu & Hr).
  destruct (imgObjs_spec st params) as [Hnodup Hobjs].
  fold prepared in Hdata, Hbitmaps. fold st' in Hb, Hi, Hp, Hu, Hr.
  split; [auto|]. rewrite Hdata, Hbitmaps.
  split; [|split; [|split; [|split; [|split]]]].
  - intros key blob. split.
    + intros Hin. apply in_flat_map in Hin as (data & Hdata' & Hin).
      destruct (Hobjs data Hdata') as (Himg & p & Hp' & ->).
      unfold data_of in Hin.
      cbn [ExportEntry.obj ExportEntry.key exportEntry] in *.
      destruct (getAssetObj st (ExportParam.fileId p) (ExportParam.pathId p))
        as [obj|] eqn:Hobj; [|destruct Hin].
      destruct (cached_blob st _) as [b|] eqn:Hc; [|destruct Hin].
      destruct Hin as [[= <- <-]|[]]. split.
      * exists obj, p. auto.
      * apply cached_blob_Some, Hc.
    + intros [(obj & p & Hp' & Hkey & Hobj & Himg) Hcached].
      apply cached_blob_Some in Hcached.
      destruct (imgObjs_complete st params p obj Hp' Hobj Himg)
        as (data & Hin & Hk & Ho).
      rewrite Hkey in Hk.
      apply in_flat_map. exists data. split; [exact Hin|].
      unfold data_of. rewrite Ho, Hk, Hcached. left. reflexivity.
  - intros key bitmap. split.
    + intros Hin. apply in_flat_map in Hin as (data & Hdata' & Hin).
      destruct (Hobjs data Hdata') as (Himg & p & Hp' & ->).
      unfold bitmap_of in Hin.
      cbn [ExportEntry.obj ExportEntry.key exportEntry] in *.
      destruct (getAssetObj st (ExportParam.fileId p) (ExportParam.pathId p))
        as [obj|] eqn:Hobj; [|destruct Hin].
      destruct (cached_blob st _) as [b|] eqn:Hc; [destruct Hin|].
      destruct (AssetObject.getImageBitmap obj) as [bm|] eqn:Hbm;
        [|destruct Hin].
      destruct Hin as [[= <- <-]|[]]. split.
      * intros q img Hq Hv.
        assert (cached_blob st (getAssetKey (ExportParam.fileId p)
                                            (ExportParam.pathId p))
                = Some (ImageResult.blob img))
          by (apply cached_blob_Some; eauto).
        congruence.
      * exists obj. split; [exists p; auto|exact Hbm].
    + intros [Hnone (obj & (p & Hp' & Hkey & Hobj & Himg) & Hbm)].
      destruct (imgObjs_complete st params p obj Hp' Hobj Himg)
        as (data & Hin & Hk & Ho).
      rewrite Hkey in Hk.
      apply in_flat_map. exists data. split; [exact Hin|].
      unfold bitmap_of. rewrite Ho, Hk, Hbm.
      destruct (cached_blob st key) as [blob|] eqn:Hc; [|left; reflexivity].
      apply cached_blob_Some in Hc as (q & img & Hq & Hv & _).
      exfalso. exact (Hnone q img Hq Hv).
  - apply NoDup_flat_map_keys; [apply data_of_cases|exact Hnodup].
  - apply NoDup_flat_map_keys; [apply bitmap_of_cases|exact Hnodup].
  - transitivity (map ExportEntry.key (imgObjs st params));
      [apply sublist_flat_map_keys, data_of_cases|apply imgObjs_order].
  - transitivity (map ExportEntry.key (imgObjs st params));
      [apply sublist_flat_map_keys, bitmap_of_cases|apply imgObjs_order].
Qed.

Lemma asked_quiet (st : State) (entries : list ExportEntry.t) :
  forallb quiet_event (rev (flat_map (asked_of st) entries)) = true.
Proof.
  apply forallb_forall. intros e Hin. apply in_rev in Hin.
  apply in_flat_map in Hin as (data & _ & Hin). unfold asked_of in Hin.
  destruct (ExportEntry.obj data); [|destruct Hin].
  destruct (cached_blob st (ExportEntry.key data)); [destruct Hin|].
  destruct Hin as [<-|[]]. reflexivity.
Qed.

Lemma length_filter_rev {A} (P : A -> bool) (l : list A) :
  length (List.filter P (rev l)) = length (List.filter P l).
Proof.
  induction l as [|a l IH]; [reflexivity|].
  cbn [rev List.filter]. rewrite List.filter_app, length_app, IH.
  cbn [List.filter]. destruct (P a); cbn [length]; lia.
Qed.

Lemma asked_count (st : State) (key : string) (entries : list ExportEntry.t) :
  List.NoDup (map ExportEntry.key entries) ->
  let c := length (List.filter (is_export_decode key)
                               (flat_map (asked_of st) entries)) in
  (c <= 1)%nat
  /\ ((0 < c)%nat ->
      In key (map ExportEntry.key entries) /\ cached_blob st key = None).
Proof.
  induction entries as [|data entries IH]; intros Hnd; cbv zeta.
  - cbn. split; [lia|]. intros H. lia.
  - apply List.NoDup_cons_iff in Hnd as [Hnotin Hnd].
    destruct (IH Hnd) as [IH1 IH2]. cbv zeta in IH1, IH2.
    cbn [flat_map map]. rewrite List.filter_app, length_app.
    unfold asked_of at 1 3.
    destruct (ExportEntry.obj data) as [obj|];
      [destruct (cached_blob st (ExportEntry.key data)) eqn:Hc|];
      cbn [List.filter is_export_decode length Nat.add].
    + split; [exact IH1|]. intros H. destruct (IH2 H) as [Hin Hn].
      split; [right; exact Hin|exact Hn].
    + destruct (String.eqb_spec (ExportEntry.key data) key) as [Heq|Hne];
        cbn [length Nat.add].
      * subst key.
        destruct (length (List.filter (is_export_decode (ExportEntry.key data))
                            (flat_map (asked_of st) entries))) as [|c] eqn:Hcount.
        -- split; [lia|]. intros _. split; [left; reflexivity|exact Hc].
        -- destruct (IH2 ltac:(lia)) as [Hin _]. contradiction.
      * split; [exact IH1|]. intros H. destruct (IH2 H) as [Hin Hn].
      split; [right; exact Hin|exact Hn].
    + split; [exact IH1|]. intros H. destruct (IH2 H) as [Hin Hn].
      split; [right; exact Hin|exact Hn].
Qed.

(** X17.  An export asks an image for its bitmap at most once, however
    often the image was selected, and not at all when the image is not
    selected or its cache entry has resolved to an image; it never counts
    as a decode of the image cache. *)
Theorem exportAssets_prepare_decodes
  (params : list ExportParam.t) (st : State) (key : string) :
  let st' := snd (exportAssets_prepare params st) in
  decodes key st' = decodes key st
  /\ (export_decodes key st <= export_decodes key st'
      <= export_decodes key st + 1)%nat
  /\ (forall q img,
         imageMap st !! key = Some q ->
         settled_value st q = Some (Some img) ->
         export_decodes key st' = export_decodes key st)
  /\ ((forall p, In p params ->
                 getAssetKey (ExportParam.fileId p) (ExportParam.pathId p) <> key) ->
      export_decodes key st' = export_decodes key st).
Proof.
  intros st'.
  destruct (exportAssets_prepare_fold params st) as (_ & _ & Htr & _).
  fold st' in Htr.
  destruct (imgObjs_spec st params) as [Hnodup Hobjs].
  destruct (asked_count st key (imgObjs st params) Hnodup) as [Hle Hpos].
  cbv zeta in Hle, Hpos.
  assert (Hcount : export_decodes key st' =
                   (length (List.filter (is_export_decode key)
                              (flat_map (asked_of st) (imgObjs st params)))
                    + export_decodes key st)%nat).
  { unfold export_decodes. rewrite Htr, since_clear_quiet by apply asked_quiet.
    rewrite List.filter_app, length_app, length_filter_rev. reflexivity. }
  split; [apply decodes_extends, exportAssets_prepare_extends|].
  rewrite Hcount. split; [lia|]. split.
  - intros q img Hq Hv.
    destruct (length (List.filter (is_export_decode key)
                        (flat_map (asked_of st) (imgObjs st params))))
      as [|c]; [reflexivity|].
    destruct (Hpos ltac:(lia)) as [_ Hnone].
    assert (cached_blob st key = Some (ImageResult.blob img))
      by (apply cached_blob_Some; eauto).
    congruence.
  - intros Hnot.
    destruct (length (List.filter (is_export_decode key)
                        (flat_map (asked_of st) (imgObjs st params))))
      as [|c]; [reflexivity|].
    destruct (Hpos ltac:(lia)) as [Hin _].
    apply in_map_iff in Hin as (data & Hkey & Hin).
    destruct (Hobjs data Hin) as (_ & p & Hp & ->).
    exfalso. exact (Hnot p Hp Hkey).
Qed.

(** The requests in which a load stores a bundle: a call of [loadFiles]
    that runs to its end, and the stretch of a load in flight that
    resumes once the parser has answered. *)
Definition is_load (r : Request) : bool :=
  match r with
  | CallLoadFiles _ _ | LoadParsed _ _ => true
  | _ => false
  end.

Lemma imgObjs_empty (st : State) (params : list ExportParam.t) :
  bundleMap st = ∅ -> imgObjs st params = [].
Proof.
  intros Hb. destruct (imgObjs_spec st params) as [_ Hobjs].
  destruct (imgObjs st params) as [|data rest]; [reflexivity|].
  destruct (Hobjs data ltac:(left; reflexivity)) as (Himg & p & _ & ->).
  cbn [ExportEntry.obj exportEntry] in Himg.
  unfold getAssetObj in Himg. rewrite Hb, lookup_empty in Himg.
  discriminate Himg.
Qed.

Lemma empty_step (r : Request) (st : State) :
  is_load r = false ->
  bundleMap st = ∅ -> imageMap st = ∅ ->
  bundleMap (step' st r) = ∅ /\ imageMap (step' st r) = ∅.
Proof.
  intros Hload Hb Hi.
  assert (Hobj : forall f p, getAssetObj st f p = None).
  { intros f p. unfold getAssetObj. rewrite Hb, lookup_empty. reflexivity. }
  assert (Himg : forall f p, loadImage f p st = (Now None, st)).
  { intros f p. unfold loadImage. rewrite Hi, lookup_empty, Hobj. reflexivity. }
  destruct r as [files options|f p|f p|params|q c|
                 |name i n total|file options|file options]; cbn [step];
    try discriminate Hload.
  - rewrite getImageUrl_state, Himg. auto.
  - unfold exportAsset. rewrite Hobj. auto.
  - destruct (exportAssets_prepare_fold params st) as (_ & _ & _ & Hb' & Hi' & _).
    rewrite Hb', Hi'. auto.
  - destruct (settle_effect q c st) as (Hi' & Hb' & _). rewrite Hb', Hi'. auto.
  - auto.
  - auto.
  - rewrite loadFile_lookup_state, Hb, lookup_empty. auto.
Qed.

(** X18.  [clear] forgets everything, but only until a load stores a
    bundle again, be it a load started afterwards or one that was in
    flight when [clear] ran.  As long as no [loadFiles] call runs to its
    end and no load in flight resumes after its parse, whatever else is
    requested or settled, and whatever reports and cache lookups loads in
    flight make, no object is found, image requests and single exports are
    answered at once with nothing and leave the worker as it was, and an
    export of many assets prepares no image and asks for no bitmap.  A
    load in flight whose parse succeeds then does bring its bundle back
    into the emptied cache. *)
Theorem clear_forgets
  (st : State) (rs : list Request) (fileId : string) (pathId : Z)
  (params : list ExportParam.t) :
  forallb (fun r => negb (is_load r)) rs = true ->
  let st' := run' (clear st) rs in
  getAssetObj st' fileId pathId = None
  /\ getImageUrl fileId pathId st' = (Now None, st')
  /\ exportAsset fileId pathId st' = (Now None, st')
  /\ fst (exportAssets_prepare params st') =
     {| Prepared.imgData := []; Prepared.imgBitmaps := [] |}
  /\ trace (snd (exportAssets_prepare params st')) = trace st'
  /\ forall (file : File.t) (options : BundleLoadOptions.t) (bundle : Bundle.t),
       loadAssetBundle (File.bytes file) options = inr bundle ->
       bundleMap (step' st' (LoadParsed file options))
         !! calcMd5 (File.bytes file) = Some bundle.
Proof.
  intros Hrs st'.
  assert (Hempty : bundleMap st' = ∅ /\ imageMap st' = ∅).
  { subst st'.
    assert (Hstart : bundleMap (clear st) = ∅ /\ imageMap (clear st) = ∅)
      by (split; reflexivity).
    revert Hstart. generalize (clear st) as st0. clear st.
    induction rs as [|r rs IH]; intros st0 Hstart; [exact Hstart|].
    cbn in Hrs. apply andb_prop in Hrs as [Hr Hrs].
    cbn [run fold_left]. apply (IH Hrs).
    destruct Hstart as [Hb Hi]. apply empty_step; [|exact Hb|exact Hi].
    apply negb_true_iff, Hr. }
  destruct Hempty as [Hb Hi].
  assert (Hobj : getAssetObj st' fileId pathId = None).
  { unfold getAssetObj. rewrite Hb, lookup_empty. reflexivity. }
  split; [exact Hobj|]. split; [|split].
  - unfold getImageUrl, loadImage. rewrite Hi, lookup_empty, Hobj. reflexivity.
  - unfold exportAsset. rewrite Hobj. reflexivity.
  - destruct (exportAssets_prepare_fold params st') as (Hd & Hm & Htr & _).
    rewrite (imgObjs_empty st' params Hb) in Hd, Hm, Htr.
    split; [|split; [exact Htr|]].
    + destruct (fst (exportAssets_prepare params st')) as [d m].
      cbn in Hd, Hm. subst. reflexivity.
    + intros file options bundle Hparse. cbn [step].
      rewrite loadFile_resume_state, Hparse, Hb, lookup_empty.
      cbn [bundleMap set_bundleMap]. apply lookup_insert_eq.
Qed.

(** *** What [loadFile] returns *)

Lemma Promise_all_Forall2
  (fileId fileName : string) (bundle : Bundle.t) (st : State)
  (objs : list AssetObject.t) :
  forall infos : list AssetInfo.t,
    fst (Promise_all (assetInfoOf String_toLowerCase fileId fileName bundle)
           objs st) = inr infos ->
    Forall2 (fun obj info =>
               fst (assetInfoOf String_toLowerCase fileId fileName bundle obj st)
               = inr info) objs infos.
Proof.
  induction objs as [|obj objs IH]; intros infos Hall.
  - cbn in Hall. injection Hall as <-. constructor.
  - rewrite Promise_all_assetInfoOf_cons in Hall.
    destruct (fst (assetInfoOf String_toLowerCase fileId fileName bundle obj st))
      as [err|info] eqn:Hinfo; [discriminate Hall|].
    destruct (fst (Promise_all _ objs st)) as [err|rest] eqn:Hrest;
      [discriminate Hall|].
    injection Hall as <-. constructor; [exact Hinfo|]. apply IH. reflexivity.
Qed.

(** X19.  What [loadFile] returns is one asset per displayable object of
    the bundle, in the bundle's order.  Each carries the key of its object
    under the content hash, the object's name and one of the four
    displayable type names, which the store's export check accepts exactly
    when the worker exports the type.  A TextAsset carries its decoded
    text, a SpriteAtlas nothing, and an image what the image cache held
    for its key when the file was loaded: the URL of a resolved image,
    [null] for a decode that resolved to nothing, and nothing while there
    is no entry or it is unsettled. *)
Theorem loadFile_infos
  (file : File.t) (options : BundleLoadOptions.t) (st st1 : State)
  (infos : list AssetInfo.t) :
  loadFile' file options st = (inr infos, st1) ->
  let fileId := calcMd5 (File.bytes file) in
  exists bundle : Bundle.t,
    bundleMap st1 !! fileId = Some bundle
    /\ Forall2
         (fun obj info =>
            let key := getAssetKey fileId (AssetObject.pathId obj) in
            showAssetType (AssetObject.type obj) = true
            /\ AssetInfo.key info = key
            /\ AssetInfo.name info = AssetObject.name obj
            /\ In (AssetInfo.type info)
                  ["TextAsset"; "Sprite"; "SpriteAtlas"; "Texture2D"]
            /\ store_canExport getCanExportAssetTypes (AssetInfo.type info)
               = canExportAssetType (AssetObject.type obj)
            /\ AssetInfo.data info =
               match AssetObject.type obj with
               | TextAsset =>
                   DataString (TextDecoder_decode (AssetObject.data obj))
               | Sprite | Texture2D =>
                   match imageMap st !! key with
                   | Some p =>
                       match settled_value st p with
                       | Some (Some img) => DataString (ImageResult.url img)
                       | Some None => DataNull
                       | None => DataUndefined
                       end
                   | None => DataUndefined
                   end
               | _ => DataUndefined
               end)
         (List.filter (fun obj => showAssetType (AssetObject.type obj))
                      (Bundle.objects bundle))
         infos.
Proof.
  intros Hload fileId.
  pose proof (loadFile_extends calcMd5 loadAssetBundle String_toLowerCase
                file options st) as Hext.
  rewrite Hload in Hext. cbn [snd] in Hext.
  destruct (loadFile_inr calcMd5 loadAssetBundle String_toLowerCase
              _ _ _ _ _ Hload) as (bundle & Hb & Hproj & _).
  exists bundle. split; [exact Hb|].
  unfold project in Hproj. apply Promise_all_Forall2 in Hproj.
  assert (Hshow : Forall (fun obj => showAssetType (AssetObject.type obj) = true)
                         (List.filter
                            (fun obj => showAssetType (AssetObject.type obj))
                            (Bundle.objects bundle))).
  { apply List.Forall_forall. intros obj Hin.
    apply List.filter_In in Hin. apply Hin. }
  clear Hload. revert Hshow Hproj.
  generalize (List.filter (fun obj => showAssetType (AssetObject.type obj))
                          (Bundle.objects bundle)) as objs.
  intros objs Hshow Hproj.
  induction Hproj as [|obj info objs infos Hinfo _ IH]; [constructor|].
  apply List.Forall_cons_iff in Hshow as [Hobj Hshow].
  constructor; [|apply IH, Hshow]. clear IH Hshow.
  unfold assetInfoOf, bind, gets, ret, throw in Hinfo.
  destruct (AssetObject.dump obj) as [err|d]; [discriminate Hinfo|].
  cbn [fst] in Hinfo. injection Hinfo as <-.
  cbn [AssetInfo.key AssetInfo.name AssetInfo.type AssetInfo.data].
  split; [exact Hobj|]. split; [reflexivity|]. split; [reflexivity|].
  unfold getAssetData, settled_value.
  rewrite (ext_imageMap _ _ Hext), (ext_promises _ _ Hext).
  destruct (AssetObject.type obj) as [| | | |id enumName];
    try discriminate Hobj; cbn [AssetType_name default In];
    (split; [auto 6|]); split; reflexivity.
Qed.

(** *** A decode that succeeds *)

(** X20.  Take an image object with a bitmap whose key is not published, a
    first [getImageUrl] for it, any requests that neither clear the cache
    nor settle this decode, then the end of the decode with the buffer the
    converter reported, then any requests that do not clear the cache.
    The first call resolves to a fresh URL, which the store records.  From
    then on a second [getImageUrl] resolves to the same URL, changes
    nothing and starts no decode; the URL has not been revoked; a file
    loaded again shows the URL as the data of the asset; a single export
    resolves to the buffer under the clean name with [.png], without
    changing anything; and an export of many assets finds the buffer in
    the cache. *)
Theorem decode_success_cached
  (before during between : list Request) (fileId : string) (pathId : Z)
  (obj : AssetObject.t) (bitmap : ImgBitMap.t) (buffer : list byte) :
  let key := getAssetKey fileId pathId in
  let st0 := run' initial before in
  let p := length (promises st0) in
  imageMap st0 !! key = None ->
  getAssetObj st0 fileId pathId = Some obj ->
  isImageAssetObj (Some obj) = true ->
  AssetObject.getImageBitmap obj = Some bitmap ->
  forallb (fun r => negb (is_clear r) && negb (is_settled_of p r)) during = true ->
  forallb (fun r => negb (is_clear r)) between = true ->
  let first := fst (getImageUrl fileId pathId st0) in
  let st1 := snd (getImageUrl fileId pathId st0) in
  let url := "blob:" +:+ pretty (urls (run' st1 during)) in
  let st2 := settle p (Some buffer) (run' st1 during) in
  let st3 := run' st2 between in
  let again := fst (getImageUrl fileId pathId st3) in
  let st4 := snd (getImageUrl fileId pathId st3) in
  await st2 first = Some (Some url)
  /\ store_loadImage_data <$> await st2 first = Some (DataString url)
  /\ await st4 again = Some (Some url)
  /\ st4 = st3
  /\ decodes key st4 = 1%nat
  /\ (url ∉ revoked st4)
  /\ getAssetData obj key st3 = DataString url
  /\ await st3 (fst (exportAsset fileId pathId st3)) =
     Some (Some {| ExportedFile.name :=
                     getLegalFileName (AssetObject.name obj) +:+ ".png";
                   ExportedFile.type := "image/png";
                   ExportedFile.data := buffer |})
  /\ snd (exportAsset fileId pathId st3) = st3
  /\ cached_blob st3 key = Some buffer.
Proof.
  intros key st0 p Hkey Hobj Himg Hbitmap Hduring Hbetween
         first st1 url st2 st3 again st4.
  pose proof (loadImage_start fileId pathId st0 obj Hkey Hobj Himg) as Hstart.
  assert (Hfirst : first = Later p (fun v => ImageResult.url <$> v)).
  { subst first. unfold getImageUrl. rewrite Hstart. reflexivity. }
  assert (Hst1 : st1 = snd (loadImage fileId pathId st0)).
  { subst st1. apply getImageUrl_state. }
  assert (Hinv0 : cache_inv st0) by apply cache_inv_run, cache_inv_initial.
  assert (Hlive0 : live_inv st0) by apply live_inv_run, live_inv_initial.
  assert (Hinv1 : cache_inv st1).
  { change st1 with (step' st0 (CallGetImageUrl fileId pathId)).
    apply cache_inv_step, Hinv0. }
  assert (Hlive1 : live_inv st1).
  { change st1 with (step' st0 (CallGetImageUrl fileId pathId)).
    apply live_inv_step, Hlive0. }
  rewrite Hstart in Hst1. cbn [snd] in Hst1.
  assert (Hkey1 : imageMap st1 !! key = Some p).
  { rewrite Hst1. cbn. apply lookup_insert_eq. }
  assert (Hobj1 : getAssetObj st1 fileId pathId = Some obj).
  { rewrite Hst1. exact Hobj. }
  assert (Hpend1 : pending_with st1 p (getAssetObjPNG_start obj)).
  { eexists. rewrite Hst1. cbn [promises set_imageMap set_promises emit].
    split; [apply list_lookup_middle; reflexivity|reflexivity]. }
  pose proof (pending_run calcMd5 loadAssetBundle String_toLowerCase
                spreadError during p _ st1 Hduring Hpend1) as (pr & Hpr & Hjob).
  assert (Hnoclear : forallb (fun r => negb (is_clear r)) during = true).
  { eapply forallb_weaken; [|exact Hduring].
    intros r Hr. apply andb_prop in Hr as [Hr _]. exact Hr. }
  pose proof (published_run calcMd5 loadAssetBundle String_toLowerCase
                spreadError during key p st1 Hnoclear Hkey1) as Hkey1'.
  destruct (settle_effect p (Some buffer) (run' st1 during))
    as (Hmap & Hbm & _ & _ & _ & _ & Hsettled).
  specialize (Hsettled pr _ Hpr Hjob).
  assert (Hfinish : getAssetObjPNG_finish (getAssetObjPNG_start obj) (Some buffer)
                    = Some buffer).
  { unfold getAssetObjPNG_start. rewrite Hbitmap. reflexivity. }
  rewrite Hfinish in Hsettled. fold st2 url in Hsettled, Hmap, Hbm.
  set (img := {| ImageResult.url := url; ImageResult.blob := buffer |}) in *.
  assert (Hkey2 : imageMap st2 !! key = Some p) by (rewrite Hmap; exact Hkey1').
  pose proof (settled_run calcMd5 loadAssetBundle String_toLowerCase
                spreadError between p _ st2 Hbetween Hsettled) as Hsettled3.
  pose proof (published_run calcMd5 loadAssetBundle String_toLowerCase
                spreadError between key p st2 Hbetween Hkey2) as Hkey3.
  fold st3 in Hsettled3, Hkey3.
  assert (Hstep2 : st2 = step' (run' st1 during) (Settled p (Some buffer)))
    by reflexivity.
  assert (Hinv3 : cache_inv st3).
  { apply cache_inv_run. rewrite Hstep2. apply cache_inv_step, cache_inv_run, Hinv1. }
  assert (Hlive3 : live_inv st3).
  { apply live_inv_run. rewrite Hstep2. apply live_inv_step, live_inv_run, Hlive1. }
  assert (Hobj3 : getAssetObj st3 fileId pathId = Some obj).
  { unfold getAssetObj in Hobj1 |- *.
    destruct (bundleMap st1 !! fileId) as [bundle|] eqn:Hb1; [|discriminate Hobj1].
    pose proof (bundleMap_run during fileId bundle st1 Hnoclear Hb1) as Hb2.
    rewrite <- Hbm in Hb2.
    pose proof (bundleMap_run between fileId bundle st2 Hbetween Hb2) as Hb3.
    fold st3 in Hb3. rewrite Hb3. exact Hobj1. }
  pose proof (loadImage_hit fileId pathId st3 p Hkey3) as Hhit.
  assert (Hagain : again = Later p (fun v => ImageResult.url <$> v)).
  { subst again. unfold getImageUrl. rewrite Hhit. reflexivity. }
  assert (Hst4 : st4 = st3).
  { subst st4. rewrite getImageUrl_state, Hhit. reflexivity. }
  rewrite Hfirst, Hagain, Hst4. cbn [await]. rewrite Hsettled, Hsettled3.
  split; [reflexivity|]. split; [reflexivity|]. split; [reflexivity|].
  split; [reflexivity|]. split.
  { rewrite (inv_decodes _ Hinv3 key), Hkey3. reflexivity. }
  split; [exact (live_url _ Hlive3 key p img Hkey3 Hsettled3)|]. split.
  { unfold getAssetData. fold key. rewrite Hkey3, Hsettled3.
    unfold isImageAssetObj in Himg.
    destruct (AssetObject.type obj); try discriminate Himg; reflexivity. }
  assert (Hexport : exportAsset fileId pathId st3 =
                    (Later p (fun r =>
                                match r with
                                | Some image =>
                                    Some {| ExportedFile.name :=
                                              getLegalFileName (AssetObject.name obj)
                                              +:+ ".png";
                                            ExportedFile.type := "image/png";
                                            ExportedFile.data := ImageResult.blob image |}
                                | None => None
                                end), st3)).
  { unfold exportAsset. rewrite Hobj3, Hhit.
    unfold isImageAssetObj in Himg.
    destruct (AssetObject.type obj); try discriminate Himg; reflexivity. }
  rewrite Hexport. cbn [fst snd await]. rewrite Hsettled3.
  split; [reflexivity|]. split; [reflexivity|].
  apply cached_blob_Some. exists p, img. auto.
Qed.

(** *** Loading an encrypted file *)

(** X21.  In environment 2 a file named [base.ab] is parsed, cached and
    identified by its decrypted content: the parser is called on the
    decrypted bytes, and only when no bundle is cached under their hash;
    every asset returned carries that hash as its file id, and the name of
    the file as it was given. *)
Theorem loadFiles_decrypts
  (base type : string) (raw : list byte) (options : BundleLoadOptions.t)
  (st : State) :
  BundleLoadOptions.envIndex options = 2 ->
  let file := {| File.name := base +:+ ".ab"; File.type := type;
                 File.bytes := raw |} in
  exists (decrypted : list byte) (result : LoadFilesResult.t) (st' : State),
    decryptAesCtrPbkdf1_default raw "System.Byte[]" (TextEncoder_encode base)
      = Some decrypted
    /\ loadFiles' [file] options st = (inr result, st')
    /\ Forall (fun info => AssetInfo.fileId info = calcMd5 decrypted
                           /\ AssetInfo.fileName info = base +:+ ".ab")
              (LoadFilesResult.infos result)
    /\ trace st' =
       match bundleMap st !! calcMd5 decrypted with
       | Some _ => [EvProgress (base +:+ ".ab") 0 1 0]
       | None => [EvParse decrypted; EvProgress (base +:+ ".ab") 0 1 0]
       end ++ trace st.
Proof.
  intros Henv file.
  set (st0 := emit (EvProgress (base +:+ ".ab") 0 1 0) st).
  destruct (decryptFile_salt base type raw options st0 Henv)
    as (decrypted & Hdec & Hfile).
  fold file in Hfile.
  set (file' := {| File.name := base +:+ ".ab"; File.type := type;
                   File.bytes := decrypted |}) in *.
  assert (Hatt : attempt' 1 options 0 file 0 st = loadFile' file' options st0).
  { unfold attempt, bind, onProgress, modify. cbv beta.
    change (File.name file) with (base +:+ ".ab"). fold st0.
    rewrite Hfile. reflexivity. }
  exists decrypted. rewrite loadFiles_outcomes. cbn [length outcomes].
  rewrite Hatt.
  pose proof (loadFile_cases calcMd5 loadAssetBundle String_toLowerCase
                file' options st0) as Hcases.
  cbv zeta in Hcases. change (File.bytes file') with decrypted in Hcases.
  change (bundleMap st0) with (bundleMap st) in Hcases.
  destruct (loadFile' file' options st0) as [outcome st1] eqn:Hload.
  cbn [fst snd]. eexists. eexists.
  split; [exact Hdec|]. split; [reflexivity|].
  cbn [LoadFilesResult.infos map concat fst snd]. rewrite app_nil_r. split.
  - destruct outcome as [err|infos]; [constructor|]. unfold pushed_of.
    destruct (spreadError (length infos)); [constructor|].
    destruct (loadFile_inr calcMd5 loadAssetBundle String_toLowerCase
                _ _ _ _ _ Hload) as (bundle & _ & Hproj & _).
    unfold project in Hproj.
    destruct (Promise_all_assetInfoOf_inr String_toLowerCase _ _ _ _ _ _ Hproj)
      as (_ & Hids & Hnames & _).
    apply List.Forall_forall. intros info Hin. split.
    + apply (in_map AssetInfo.fileId) in Hin. rewrite Hids in Hin.
      apply in_map_iff in Hin as (obj & Heq & _). exact (eq_sym Heq).
    + apply (in_map AssetInfo.fileName) in Hin. rewrite Hnames in Hin.
      apply in_map_iff in Hin as (obj & Heq & _). exact (eq_sym Heq).
  - destruct (bundleMap st !! calcMd5 decrypted) as [bundle|].
    + injection Hcases as _ ->. reflexivity.
    + destruct (loadAssetBundle decrypted options);
        injection Hcases as _ ->; reflexivity.
Qed.

End ManagerProperties.

(** ** The further theorems at work on the test doubles *)

Section FurtherExamples.

Import Fixture.

Local Abbreviation loadFile' := (loadFile hash parser lower).
Local Abbreviation loadFiles' := (loadFiles hash parser lower spread).
Local Abbreviation run' := (run hash parser lower spread).

(** The worker after the icon of the known bundle has been decoded. *)
Definition decoded : State :=
  run' loaded [CallGetImageUrl fileId 1; Settled 0 (Some png)].

Lemma image_url_live_witness :
  let before := [CallLoadFiles [file "a.bundle" assets] options;
                 CallGetImageUrl fileId 1; Settled 0 (Some png)] in
  let during := [CallExportAsset fileId 1; CallGetImageUrl fileId 2] in
  let st0 := run' initial before in
  let st2 := run' (snd (getImageUrl fileId 1 st0)) during in
  forallb (fun r => negb (is_clear r)) during = true
  /\ await st2 (fst (getImageUrl fileId 1 st0)) = Some (Some "blob:0")
  /\ "blob:0" ∉ revoked st2.
Proof.
  intros before during st0 st2.
  assert (Hawait : await st2 (fst (getImageUrl fileId 1 st0))
                   = Some (Some "blob:0")) by (vm_compute; reflexivity).
  split; [reflexivity|]. split; [exact Hawait|].
  exact (image_url_live hash parser lower spread before during fileId 1 "blob:0"
           eq_refl Hawait).
Defined.

Lemma getAssetObj_stable_witness :
  let rs := [CallLoadFiles [file "b.bundle" assets; file "c.bundle" scene] options;
             CallGetImageUrl fileId 1] in
  forallb (fun r => negb (is_clear r)) rs = true
  /\ getAssetObj loaded fileId 1 = Some icon
  /\ getAssetObj (run' loaded rs) fileId 1 = Some icon.
Proof.
  intros rs.
  assert (Hobj : getAssetObj loaded fileId 1 = Some icon)
    by (vm_compute; reflexivity).
  split; [reflexivity|]. split; [exact Hobj|].
  exact (proj1 (getAssetObj_stable hash parser lower spread rs loaded fileId 1 icon
                  eq_refl Hobj)).
Defined.

Lemma clear_revokes_witness :
  imageMap decoded !! getAssetKey fileId 1 = Some 0%nat
  /\ settled_value decoded 0 =
     Some (Some {| ImageResult.url := "blob:0"; ImageResult.blob := png |})
  /\ "blob:0" ∈ revoked (clear decoded).
Proof.
  assert (Hkey : imageMap decoded !! getAssetKey fileId 1 = Some 0%nat)
    by (vm_compute; reflexivity).
  assert (Hv : settled_value decoded 0 =
               Some (Some {| ImageResult.url := "blob:0";
                             ImageResult.blob := png |}))
    by (vm_compute; reflexivity).
  split; [exact Hkey|]. split; [exact Hv|].
  exact (proj1 (proj2 (clear_revokes hash parser lower spread decoded
                         (getAssetKey fileId 1) 0%nat Hkey))
           {| ImageResult.url := "blob:0"; ImageResult.blob := png |} Hv).
Defined.

Lemma clear_forgets_witness :
  let rs := [LoadReport "a.bundle" 0 1 0;
             LoadLookup (file "a.bundle" assets) options;
             CallGetImageUrl fileId 1; Settled 0 (Some png);
             CallExportAssets [select 1 EmptyString]] in
  forallb (fun r => negb (is_load r)) rs = true
  /\ getAssetObj (run' (clear decoded) rs) fileId 1 = None.
Proof.
  intros rs. split; [reflexivity|].
  exact (proj1 (clear_forgets hash parser lower spread decoded rs fileId 1
                  [select 1 EmptyString] eq_refl)).
Defined.

Lemma loadFile_infos_witness :
  let result := loadFile' (file "a.bundle" assets) options decoded in
  result = (inr (infos_of (fst result)), snd result)
  /\ exists bundle : Bundle.t,
      bundleMap (snd result) !! hash assets = Some bundle
      /\ length (infos_of (fst result)) =
         length (List.filter (fun obj => showAssetType (AssetObject.type obj))
                             (Bundle.objects bundle)).
Proof.
  intros result.
  assert (Hload : result = (inr (infos_of (fst result)), snd result))
    by (vm_compute; reflexivity).
  split; [exact Hload|].
  destruct (loadFile_infos hash parser lower (file "a.bundle" assets) options
              decoded (snd result) (infos_of (fst result)) Hload)
    as (bundle & Hb & Hall).
  exists bundle. split; [exact Hb|].
  symmetry. exact (Forall2_length _ _ _ Hall).
Defined.

Lemma decode_success_cached_witness :
  let during := [CallGetImageUrl fileId 2; Settled 1 None] in
  let between := [CallGetImageUrl fileId 1; CallExportAsset fileId 1] in
  let st1 := snd (getImageUrl fileId 1 loaded) in
  let st2 := settle 0 (Some png) (run' st1 during) in
  let st3 := run' st2 between in
  (imageMap loaded !! getAssetKey fileId 1 = None
   /\ getAssetObj loaded fileId 1 = Some icon
   /\ isImageAssetObj (Some icon) = true
   /\ AssetObject.getImageBitmap icon = Some pixel
   /\ forallb (fun r => negb (is_clear r) && negb (is_settled_of 0 r)) during = true
   /\ forallb (fun r => negb (is_clear r)) between = true)
  /\ snd (getImageUrl fileId 1 st3) = st3
  /\ decodes (getAssetKey fileId 1) (snd (getImageUrl fileId 1 st3)) = 1%nat
  /\ cached_blob st3 (getAssetKey fileId 1) = Some png.
Proof.
  intros during between st1 st2 st3.
  split; [vm_compute; repeat split; reflexivity|].
  destruct (decode_success_cached hash parser lower spread
              [CallLoadFiles [file "a.bundle" assets] options]
              during between fileId 1 icon pixel png
              ltac:(vm_compute; reflexivity) ltac:(vm_compute; reflexivity)
              eq_refl eq_refl
              ltac:(vm_compute; reflexivity) eq_refl)
    as (_ & _ & _ & Hsame & Hdecodes & _ & _ & _ & _ & Hcached).
  split; [exact Hsame|]. split; [exact Hdecodes|exact Hcached].
Defined.

Lemma loadFiles_decrypts_witness :
  let options2 := {| BundleLoadOptions.unityCNKey := None;
                     BundleLoadOptions.env := 0;
                     BundleLoadOptions.envIndex := 2 |} in
  BundleLoadOptions.envIndex options2 = 2
  /\ exists (decrypted : list byte) (result : LoadFilesResult.t) (st' : State),
      decryptAesCtrPbkdf1_default [] "System.Byte[]" (TextEncoder_encode "level")
        = Some decrypted
      /\ loadFiles' [{| File.name := "level.ab"; File.type := EmptyString;
                        File.bytes := [] |}] options2 initial
         = (inr result, st').
Proof.
  intros options2. split; [reflexivity|].
  destruct (loadFiles_decrypts hash parser lower spread "level" EmptyString []
              options2 initial eq_refl)
    as (decrypted & result & st' & Hdec & Hload & _).
  exists decrypted, result, st'. split; [exact Hdec|exact Hload].
Defined.

(** An engine that passes at most two arguments in one call. *)
Definition narrow (n : nat) : option string :=
  if (n <=? 2)%nat then None
  else Some "RangeError: Maximum call stack size exceeded".

(** A file with more infos than the engine can spread is counted as a
    success and listed as an error, and its infos are dropped; the files
    after it are attempted all the same: one without displayable objects,
    which is neither counted nor listed, and one the parser throws on. *)
Example loadFiles_spread_overflow :
  fst (loadFiles hash parser lower narrow
         [file "a.bundle" assets; file "b.bundle" scene; file "c.bundle" garbage]
         options initial)
  = inr {| LoadFilesResult.errors :=
             [{| FileLoadingError.name := "a.bundle";
                 FileLoadingError.error :=
                   "RangeError: Maximum call stack size exceeded" |};
              {| FileLoadingError.name := "c.bundle";
                 FileLoadingError.error := "Error: unsupported bundle" |}];
           LoadFilesResult.infos := [];
           LoadFilesResult.successNum := 1 |}.
Proof. vm_compute. reflexivity. Qed.

(** The same files on an engine that can spread them. *)
Example loadFiles_three_files :
  match fst (loadFiles' [file "a.bundle" assets; file "b.bundle" scene;
                         file "c.bundle" garbage] options initial) with
  | inr result =>
      LoadFilesResult.successNum result = 1%nat
      /\ map FileLoadingError.name (LoadFilesResult.errors result) = ["c.bundle"]
      /\ map AssetInfo.name (LoadFilesResult.infos result)
         = ["icon/large"; "ghost"; "notes"; "atlas"]
  | inl _ => False
  end.
Proof. vm_compute. repeat split; reflexivity. Qed.

(** A load in flight when [clear] runs brings its bundle back: the cache
    is cleared between the call of the parser and its answer, and the
    object is found afterwards. *)
Example clear_during_load :
  let st := run' initial [LoadReport "a.bundle" 0 1 0;
                          LoadLookup (file "a.bundle" assets) options;
                          CallClear;
                          LoadParsed (file "a.bundle" assets) options] in
  getAssetObj st fileId 1 = Some icon.
Proof. vm_compute. reflexivity. Qed.

End FurtherExamples.
